(** * AudioService: a process-supervised audio playback controller

    A verification development for [backend/api/audio_service.py].

    The Python class [AudioService] keeps one slot, [current_process], that
    holds the handle of the external PowerShell process it tracks, guarded
    by one [threading.Lock].  Public methods build a PowerShell command and
    hand it to [_run_command], which starts a worker thread; the worker
    spawns the process inside the lock, waits for it outside the lock and
    finally clears the slot inside the lock again.

    The embedding has three layers:
    - Python strings and the command builders (module [PyStr], the
      [*_command] definitions);
    - the PowerShell scripts carried by those commands, as functions over a
      media player oracle that produce the list of actions the script
      performs (module [Script]); the three intro scripts also as syntax
      trees whose text is the text the builders produce and whose
      execution is what those functions compute (module [PS]);
    - the controller itself, as a state-and-exception monad over a [State]
      record, with the bodies of the [with self._lock:] blocks as the
      atomic steps of an interleaving semantics; the methods keep their
      Python names. *)

From Stdlib Require Import String Ascii List Arith ZArith Lia Bool.
From stdpp Require Import base list strings.
Import ListNotations.

Local Open Scope string_scope.
Local Open Scope list_scope.

(** String literals are concatenated by computation in the proofs below. *)
#[local] Arguments String.append !s1 s2 : simpl nomatch.

(* ===================================================================== *)
(** * Python strings *)
(* ===================================================================== *)

(** A Python [str] is represented by its UTF-8 bytes.  The quote character
    and the letters of [.wav] are ASCII, and no byte of a multi-byte UTF-8
    sequence is below 128, so [replace] and the suffix test act on bytes as
    they do on code points. *)
Module PyStr.

(** The apostrophe, [chr(39)], and the double quote, [chr(34)]. *)
Definition apostrophe : ascii := "'"%char.
Definition dquote : ascii := "034"%char.

(** [s.replace(c, by)] for a one-character pattern [c]: every occurrence
    of [c], left to right, is replaced by [by]. *)
Fixpoint replace_char (c : ascii) (by_ : string) (s : string) : string :=
  match s with
  | EmptyString => EmptyString
  | String a rest =>
      if Ascii.eqb a c then by_ +:+ replace_char c by_ rest
      else String a (replace_char c by_ rest)
  end.

(** [ch.lower()] on one byte: only [A]..[Z] change. *)
Definition lower_ascii (a : ascii) : ascii :=
  let n := nat_of_ascii a in
  if ((65 <=? n)%nat && (n <=? 90)%nat)%bool then ascii_of_nat (n + 32)%nat
  else a.

(** [s.lower()]. *)
Fixpoint lower (s : string) : string :=
  match s with
  | EmptyString => EmptyString
  | String a rest => String (lower_ascii a) (lower rest)
  end.

(** [s.startswith(p)]. *)
Fixpoint startswith (s p : string) : bool :=
  match p, s with
  | EmptyString, _ => true
  | String _ _, EmptyString => false
  | String b p', String a s' => Ascii.eqb a b && startswith s' p'
  end.

(** [s.endswith(suffix)]: [suffix] is found at offset
    [len(s) - len(suffix)]. *)
Fixpoint drop (n : nat) (s : string) : string :=
  match n, s with
  | 0, _ => s
  | S n', String _ rest => drop n' rest
  | S _, EmptyString => EmptyString
  end.

Definition endswith (s suffix : string) : bool :=
  (String.length suffix <=? String.length s)%nat
  && String.eqb (drop (String.length s - String.length suffix) s) suffix.

(** [p in s]: substring test, used to inspect script texts. *)
Fixpoint contains (s p : string) : bool :=
  startswith s p
  || match s with
     | EmptyString => false
     | String _ rest => contains rest p
     end.

(** [str(n)] for a non-negative integer. *)
Definition digit (n : nat) : ascii := ascii_of_nat (48 + n mod 10)%nat.

Fixpoint str_nat_aux (fuel n : nat) (acc : string) : string :=
  match fuel with
  | 0 => acc
  | S fuel' =>
      let acc' := String (digit n) acc in
      if (n <? 10)%nat then acc' else str_nat_aux fuel' (n / 10)%nat acc'
  end.

Definition str_nat (n : nat) : string := str_nat_aux (S n) n EmptyString.

End PyStr.

(** The escaping every builder applies: [x.replace("'", "''")]. *)
Definition escape_quotes (s : string) : string :=
  PyStr.replace_char PyStr.apostrophe "''" s.

(** An external command line: the argument list given to [Popen] / [run]. *)
Definition command := list string.

(* ===================================================================== *)
(** * PowerShell single-quoted literals *)
(* ===================================================================== *)

(** The single-quote rule with the ASCII apostrophe, U+0027, as the only
    quote character; this is the rule the escaping of the source is written
    for.  (PowerShell itself knows four more quote characters: its rule is
    [pwsh_read_quoted] below.)  The input starts just after the opening
    apostrophe.  Two apostrophes in a row stand for one apostrophe of the
    contents; an apostrophe that is not followed by another one closes the
    literal.  The result is the decoded contents and the script text after
    the closing apostrophe; [None] when the literal is never closed. *)
Fixpoint ps_read_quoted (s : string) : option (string * string) :=
  match s with
  | EmptyString => None
  | String a rest =>
      if Ascii.eqb a PyStr.apostrophe then
        match rest with
        | String b rest' =>
            if Ascii.eqb b PyStr.apostrophe then
              match ps_read_quoted rest' with
              | Some (txt, after) => Some (String PyStr.apostrophe txt, after)
              | None => None
              end
            else Some (EmptyString, rest)
        | EmptyString => Some (EmptyString, rest)
        end
      else
        match ps_read_quoted rest with
        | Some (txt, after) => Some (String a txt, after)
        | None => None
        end
  end.

(** Number of apostrophes in a text. *)
Fixpoint count_quotes (s : string) : nat :=
  match s with
  | EmptyString => 0
  | String a rest =>
      ((if Ascii.eqb a PyStr.apostrophe then 1 else 0) + count_quotes rest)%nat
  end.

(* ===================================================================== *)
(** * The command builders *)
(* ===================================================================== *)

(** The texts below are the string and f-string literals of the source,
    line by line; [lines] joins them with the line feed the triple-quoted
    literals contain. *)
Definition nl : string := String "010"%char EmptyString.
Definition dq : string := String PyStr.dquote EmptyString.
Definition lines (ls : list string) : string := String.concat nl ls.

(** [play_text]: the command list of lines 22-26. *)
Definition play_text_script (text : string) : string :=
  let safe_text := escape_quotes text in
  "Add-Type –AssemblyName System.Speech; (New-Object System.Speech.Synthesis.SpeechSynthesizer).Speak('"
    +:+ safe_text +:+ "')".

Definition play_text_command (text : string) : command :=
  ["powershell"; "-Command"; play_text_script text].

(** [play_intro], missing file: [fallback_script] of line 41. *)
Definition fallback_script : string :=
  "[console]::beep(800, 400); Start-Sleep -Milliseconds 100; [console]::beep(600, 600)".

Definition fallback_command : command := ["powershell"; "-c"; fallback_script].

(** [play_intro], existing file: [ps_script] of lines 53-78. *)
Definition play_intro_script (file_path : string) : string :=
  let safe_path := escape_quotes file_path in
  lines [
      EmptyString;
      "        Add-Type -AssemblyName PresentationCore, PresentationFramework;";
      "        $p = New-Object System.Windows.Media.MediaPlayer;";
      ("        $p.Open('" +:+ safe_path +:+ "');");
      "        ";
      "        # 1. Wait for Media Open / Duration Load (Async)";
      "        $attempts = 20; ";
      "        while (-not $p.NaturalDuration.HasTimeSpan -and $attempts -gt 0) {";
      "            Start-Sleep -Milliseconds 100;";
      "            $attempts--;";
      "        }";
      "        ";
      "        $p.Play();";
      EmptyString;
      "        # 2. Synchronous Wait";
      "        if ($p.NaturalDuration.HasTimeSpan) {";
      "            while ($p.Position -lt $p.NaturalDuration.TimeSpan) {";
      "                Start-Sleep -Milliseconds 100;";
      "            }";
      "        } else {";
      "            # Fallback if duration never loaded (common with some encodings)";
      ("            write-host " +:+ dq +:+ "Duration unknown, using fallback wait." +:+ dq);
      "            Start-Sleep -Seconds 4;";
      "        }";
      "        $p.Close();";
      "        "
  ].

Definition play_intro_command (file_path : string) : command :=
  ["powershell"; "-c"; play_intro_script file_path].

(** [play_file]: the two branches of lines 95-128. *)
Definition play_file_wav_script (file_path : string) : string :=
  let safe_path := escape_quotes file_path in
  "(New-Object Media.SoundPlayer '" +:+ safe_path +:+ "').PlaySync()".

Definition play_file_media_script (file_path : string) : string :=
  let safe_path := escape_quotes file_path in
  lines [
      EmptyString;
      "                Add-Type -AssemblyName PresentationCore, PresentationFramework;";
      "                $p = New-Object System.Windows.Media.MediaPlayer;";
      ("                $p.Open('" +:+ safe_path +:+ "');");
      "                $p.Play();";
      "                # We need to keep process alive while playing";
      "                # But we can't easily detect end in a headless Popen without blocking.";
      "                # Hack: Just sleep for a long time or until stopped?";
      "                # Better: Use a loop that checks 'stop' signal? No, we kill process to stop.";
      "                while ($p.Position -lt $p.NaturalDuration.TimeSpan) { Start-Sleep -Milliseconds 500 }";
      "                $p.Close();";
      "             "
  ].

Definition play_file_command (file_path : string) : command :=
  if PyStr.endswith (PyStr.lower file_path) ".wav"
  then ["powershell"; "-c"; play_file_wav_script file_path]
  else ["powershell"; "-c"; play_file_media_script file_path].

(** [play_announcement]: [ps_script] of lines 195-225. *)
Definition play_announcement_script (intro_path text : string) : string :=
  let safe_intro := escape_quotes intro_path in
  let safe_text := escape_quotes text in
  lines [
      EmptyString;
      "        Add-Type -AssemblyName PresentationCore, PresentationFramework;";
      "        Add-Type -AssemblyName System.Speech;";
      "        ";
      "        # 1. Play Intro";
      "        $p = New-Object System.Windows.Media.MediaPlayer;";
      ("        $p.Open('" +:+ safe_intro +:+ "');");
      "        ";
      "        # Wait for load";
      "        $attempts = 20; ";
      "        while (-not $p.NaturalDuration.HasTimeSpan -and $attempts -gt 0) {";
      "            Start-Sleep -Milliseconds 100;";
      "            $attempts--;";
      "        }";
      "        ";
      "        $p.Play();";
      "        ";
      "        # Wait for end";
      "        if ($p.NaturalDuration.HasTimeSpan) {";
      "            while ($p.Position -lt $p.NaturalDuration.TimeSpan) {";
      "                Start-Sleep -Milliseconds 100;";
      "            }";
      "        } else {";
      "            Start-Sleep -Seconds 4; # Fallback";
      "        }";
      "        $p.Close();";
      "        ";
      "        # 2. Speak Text";
      "        $synth = New-Object System.Speech.Synthesis.SpeechSynthesizer;";
      ("        $synth.Speak('" +:+ safe_text +:+ "');");
      "        "
  ].

Definition play_announcement_command (intro_path text : string) : command :=
  ["powershell"; "-c"; play_announcement_script intro_path text].

(** [play_intro_async]: [ps_script] of lines 236-250. *)
Definition play_intro_async_script (file_path : string) : string :=
  let safe_path := escape_quotes file_path in
  lines [
      EmptyString;
      "         Add-Type -AssemblyName PresentationCore, PresentationFramework;";
      "         $p = New-Object System.Windows.Media.MediaPlayer;";
      ("         $p.Open('" +:+ safe_path +:+ "');");
      "         ";
      "         $attempts = 20; ";
      "         while (-not $p.NaturalDuration.HasTimeSpan -and $attempts -gt 0) { Start-Sleep -Milliseconds 100; $attempts--; }";
      "         ";
      "         $p.Play();";
      "         ";
      "         if ($p.NaturalDuration.HasTimeSpan) {";
      "            while ($p.Position -lt $p.NaturalDuration.TimeSpan) { Start-Sleep -Milliseconds 100; }";
      "         } else { Start-Sleep -Seconds 4; }";
      "         $p.Close();";
      "         "
  ].

Definition play_intro_async_command (file_path : string) : command :=
  ["powershell"; "-c"; play_intro_async_script file_path].

(* ===================================================================== *)
(** * What the PowerShell scripts do *)
(* ===================================================================== *)

(** The scripts are straight-line code with two kinds of loop.  Each is
    embedded as a function that returns the actions the script performs,
    oldest first.  The media player is an oracle: the n-th read of a
    player property by the script gets the n-th answer.  A script that is
    still inside a position loop when the fuel runs out reports
    [finished = false] together with the actions performed up to there. *)
Module Script.

Inductive action :=
| AddType (assemblies : string)       (* Add-Type -AssemblyName ... *)
| NewObject (class : string)          (* New-Object ... *)
| MediaOpen (path : string)           (* $p.Open('...') *)
| MediaPlay                           (* $p.Play() *)
| MediaClose                          (* $p.Close() *)
| Sleep (ms : nat)                    (* Start-Sleep *)
| WriteHost (msg : string)            (* write-host ... *)
| Beep (hz ms : nat)                  (* [console]::beep(hz, ms) *)
| Speak (text : string)               (* (...SpeechSynthesizer).Speak('...') *)
| SoundPlaySync (path : string).      (* (New-Object Media.SoundPlayer '...').PlaySync() *)

Record player := mkPlayer {
  (** [$p.NaturalDuration.HasTimeSpan] at the n-th read of the player *)
  has_time_span : nat -> bool;
  (** [$p.Position -lt $p.NaturalDuration.TimeSpan] at the n-th read *)
  position_lt_duration : nat -> bool
}.

Record st := mkSt {
  reads : nat;                (* player properties read so far *)
  performed : list action     (* actions so far, oldest first *)
}.

Definition start : st := mkSt 0 [].

Definition perform (a : action) (s : st) : st :=
  mkSt (reads s) (performed s ++ [a]).

Definition read_has_time_span (pl : player) (s : st) : bool * st :=
  (has_time_span pl (reads s), mkSt (S (reads s)) (performed s)).

Definition read_position_lt_duration (pl : player) (s : st) : bool * st :=
  (position_lt_duration pl (reads s), mkSt (S (reads s)) (performed s)).

(** [while (-not $p.NaturalDuration.HasTimeSpan -and $attempts -gt 0)
      { Start-Sleep -Milliseconds 100; $attempts--; }]
    The left operand of [-and] is read on every test, also on the one
    that finds [$attempts] at zero. *)
Fixpoint poll_duration (pl : player) (attempts : nat) (s : st) : st :=
  let '(known, s1) := read_has_time_span pl s in
  if known then s1
  else match attempts with
       | 0 => s1
       | S attempts' => poll_duration pl attempts' (perform (Sleep 100) s1)
       end.

(** [while ($p.Position -lt $p.NaturalDuration.TimeSpan)
      { Start-Sleep -Milliseconds interval }] *)
Fixpoint wait_position (pl : player) (interval fuel : nat) (s : st)
  : st * bool :=
  let '(playing, s1) := read_position_lt_duration pl s in
  if playing then
    match fuel with
    | 0 => (s1, false)
    | S fuel' => wait_position pl interval fuel' (perform (Sleep interval) s1)
    end
  else (s1, true).

(** Lines 54-77, the script of [play_intro]. *)
Definition intro (pl : player) (path : string) (fuel : nat) : st * bool :=
  let s := perform (AddType "PresentationCore, PresentationFramework") start in
  let s := perform (NewObject "System.Windows.Media.MediaPlayer") s in
  let s := perform (MediaOpen path) s in
  let s := poll_duration pl 20 s in
  let s := perform MediaPlay s in
  let '(known, s) := read_has_time_span pl s in
  let '(s, fin) :=
    if known then wait_position pl 100 fuel s
    else
      let s := perform (WriteHost "Duration unknown, using fallback wait.") s in
      (perform (Sleep (4 * 1000)) s, true) in
  if fin then (perform MediaClose s, true) else (s, false).

(** Lines 237-249, the script of [play_intro_async]. *)
Definition intro_async (pl : player) (path : string) (fuel : nat)
  : st * bool :=
  let s := perform (AddType "PresentationCore, PresentationFramework") start in
  let s := perform (NewObject "System.Windows.Media.MediaPlayer") s in
  let s := perform (MediaOpen path) s in
  let s := poll_duration pl 20 s in
  let s := perform MediaPlay s in
  let '(known, s) := read_has_time_span pl s in
  let '(s, fin) :=
    if known then wait_position pl 100 fuel s
    else (perform (Sleep (4 * 1000)) s, true) in
  if fin then (perform MediaClose s, true) else (s, false).

(** Lines 196-224, the script of [play_announcement]. *)
Definition announcement (pl : player) (intro_path text : string)
  (fuel : nat) : st * bool :=
  let s := perform (AddType "PresentationCore, PresentationFramework") start in
  let s := perform (AddType "System.Speech") s in
  let s := perform (NewObject "System.Windows.Media.MediaPlayer") s in
  let s := perform (MediaOpen intro_path) s in
  let s := poll_duration pl 20 s in
  let s := perform MediaPlay s in
  let '(known, s) := read_has_time_span pl s in
  let '(s, fin) :=
    if known then wait_position pl 100 fuel s
    else (perform (Sleep (4 * 1000)) s, true) in
  if fin then
    let s := perform MediaClose s in
    let s := perform (NewObject "System.Speech.Synthesis.SpeechSynthesizer") s in
    (perform (Speak text) s, true)
  else (s, false).

(** Lines 117-126, the script of [play_file] for anything but WAV. *)
Definition file_media (pl : player) (path : string) (fuel : nat)
  : st * bool :=
  let s := perform (AddType "PresentationCore, PresentationFramework") start in
  let s := perform (NewObject "System.Windows.Media.MediaPlayer") s in
  let s := perform (MediaOpen path) s in
  let s := perform MediaPlay s in
  let '(s, fin) := wait_position pl 500 fuel s in
  if fin then (perform MediaClose s, true) else (s, false).

(** Line 96, the script of [play_file] for WAV. *)
Definition file_wav (path : string) : list action :=
  [SoundPlaySync path].

(** Line 41, the fallback tone. *)
Definition fallback_tone : list action :=
  [Beep 800 400; Sleep 100; Beep 600 600].

(** Line 25, the script of [play_text]. *)
Definition speech (text : string) : list action :=
  [AddType "System.Speech";
   NewObject "System.Speech.Synthesis.SpeechSynthesizer";
   Speak text].

(** The text of the two statements the fallback tone is made of. *)
Definition statement (a : action) : option string :=
  match a with
  | Beep hz ms =>
      Some ("[console]::beep(" +:+ PyStr.str_nat hz +:+ ", "
              +:+ PyStr.str_nat ms +:+ ")")
  | Sleep ms => Some ("Start-Sleep -Milliseconds " +:+ PyStr.str_nat ms)
  | _ => None
  end.

Fixpoint statements (l : list action) : option string :=
  match l with
  | [] => Some EmptyString
  | [a] => statement a
  | a :: rest =>
      match statement a, statements rest with
      | Some t, Some ts => Some (t +:+ "; " +:+ ts)
      | _, _ => None
      end
  end.

(** Observations on a list of actions. *)
Definition is_sleep (a : action) : bool :=
  match a with Sleep _ => true | _ => false end.

Definition sleep_ms (a : action) : nat :=
  match a with Sleep ms => ms | _ => 0 end.

(** Milliseconds slept over a list of actions. *)
Definition slept (l : list action) : nat :=
  fold_right (fun a acc => sleep_ms a + acc) 0 l.

Definition is_speak (a : action) : bool :=
  match a with Speak _ => true | _ => false end.

Definition is_close (a : action) : bool :=
  match a with MediaClose => true | _ => false end.

(** A process that is killed after it has performed [k] actions has
    performed the first [k] actions of its script and nothing else. *)
Definition killed_after (k : nat) (l : list action) : list action :=
  firstn k l.

End Script.

(* ===================================================================== *)
(** * The controller *)
(* ===================================================================== *)

(** A process handle.  Two [Popen] objects are equal when they are the same
    object, so a handle is the serial number of the spawn that made it. *)
Definition proc := nat.

(** A raised Python exception: its class name and [str(e)].  Only
    subclasses of [Exception] are modelled (what [Popen], [terminate] and
    [communicate] raise); asynchronous interrupts are outside the model. *)
Record exn := mkExn { exn_class : string; exn_str : string }.

(** How a call ends. *)
Inductive outcome (A : Type) :=
| Returned (a : A)
| Raised (e : exn).
Arguments Returned {A} a.
Arguments Raised {A} e.

(** What the controller does that the outside can observe, oldest first. *)
Inductive event :=
| EvPrint (line : string)            (* print(...) *)
| EvPopen (p : proc) (cmd : command) (* subprocess.Popen(cmd, ...) made p *)
| EvRun (p : proc) (cmd : command)   (* subprocess.run(cmd, ...) made p *)
| EvTerminate (p : proc)             (* p.terminate() was called *)
| EvWait (p : proc).                 (* a wait on p came back *)

(** A thread of control that is inside the service.
    - [TSpawn cmd]: a worker whose [target()] has not yet entered its first
      [with self._lock:] block;
    - [TWait p]: a worker blocked in [proc.communicate()], lock released;
    - [TCleanup p r]: a worker about to run the [finally:] block, [r] being
      how the [try:] block ended;
    - [TRun p cmd]: a caller of [play_intro] blocked in [subprocess.run];
    - [TDone r]: finished, with the outcome the thread's function had. *)
Inductive thread :=
| TSpawn (cmd : command)
| TWait (p : proc)
| TCleanup (p : proc) (r : outcome unit)
| TRun (p : proc) (cmd : command)
| TDone (r : outcome unit).

(** The handle a thread holds in a local variable, if any. *)
Definition handle (t : thread) : option proc :=
  match t with
  | TWait p | TCleanup p _ | TRun p _ => Some p
  | TSpawn _ | TDone _ => None
  end.

(** [self.current_process], the operating system's next serial number, the
    threads, and the observable history. *)
Record State := mkState {
  current_process : option proc;
  next_proc : nat;
  threads : list thread;
  trace : list event
}.

Definition init : State := mkState None 0 [] [].

(** The collaborators: the file system, the process API and the processes
    themselves.  Every theorem holds for all of them. *)
Record World := mkWorld {
  (** [os.path.exists(path)] *)
  path_exists : string -> bool;
  (** what spawning [cmd] as process number [p] raises, if anything *)
  popen_error : command -> proc -> option exn;
  (** what [p.terminate()] raises, if anything *)
  terminate_error : proc -> option exn;
  (** [p.communicate()]: the pair (stdout, stderr), or an exception *)
  communicate_result : proc -> outcome (string * string);
  (** what [subprocess.run(..., check=True)] raises once [p] has ended,
      if anything: [CalledProcessError] for a non-zero exit status *)
  run_error : proc -> option exn
}.

(** ** A state and exception monad *)

Definition M (A : Type) : Type := State -> outcome A * State.

Definition ret {A} (a : A) : M A := fun s => (Returned a, s).

Definition raise {A} (e : exn) : M A := fun s => (Raised e, s).

Definition bind {A B} (m : M A) (k : A -> M B) : M B :=
  fun s =>
    match m s with
    | (Returned a, s') => k a s'
    | (Raised e, s') => (Raised e, s')
    end.

Notation "x <- m ;; k" := (bind m (fun x => k))
  (at level 100, m at next level, right associativity).
Notation "m ;; k" := (bind m (fun _ => k))
  (at level 100, right associativity).

(** [try: body  except ...: handler(e)] *)
Definition try_except {A} (body : M A) (handler : exn -> M A) : M A :=
  fun s =>
    match body s with
    | (Returned a, s') => (Returned a, s')
    | (Raised e, s') => handler e s'
    end.

Definition get_current_process : M (option proc) :=
  fun s => (Returned (current_process s), s).

Definition set_current_process (v : option proc) : M unit :=
  fun s => (Returned tt, mkState v (next_proc s) (threads s) (trace s)).

Definition emit (e : event) : M unit :=
  fun s =>
    (Returned tt,
     mkState (current_process s) (next_proc s) (threads s) (trace s ++ [e])).

(** [print(line)].  The write to the console is taken to succeed: a
    console that cannot encode the line, or is closed, is outside the
    model, and with it the [UnicodeEncodeError] or [OSError] that [print]
    would raise there. *)
Definition print (line : string) : M unit := emit (EvPrint line).

(** [x == y] on two handles, one of which may be [None]. *)
Definition handle_eqb (a b : option proc) : bool :=
  match a, b with
  | Some p, Some q => Nat.eqb p q
  | None, None => true
  | _, _ => false
  end.

(** The body of a [with self._lock:] block runs as one atomic step: the
    lock is free whenever a step begins and is released when the block is
    left, by its end, by [return] or by an exception. *)
Definition with_lock {A} (body : M A) : M A := body.

Section Controller.

Variable W : World.

(** ** The process API *)

(** [subprocess.Popen(command, stdout=PIPE, stderr=PIPE, text=True)] *)
Definition Popen (cmd : command) : M proc :=
  fun s =>
    let p := next_proc s in
    match popen_error W cmd p with
    | Some e => (Raised e, s)
    | None =>
        (Returned p,
         mkState (current_process s) (S p) (threads s)
                 (trace s ++ [EvPopen p cmd]))
    end.

(** [p.terminate()]: the request is made, then the call may fail. *)
Definition terminate (p : proc) : M unit :=
  emit (EvTerminate p) ;;
  match terminate_error W p with
  | Some e => raise e
  | None => ret tt
  end.

(** [p.communicate()]: blocks until [p] is gone and its pipes are read. *)
Definition communicate (p : proc) : M (string * string) :=
  match communicate_result W p with
  | Returned out => emit (EvWait p) ;; ret out
  | Raised e => raise e
  end.

(** ** [AudioService.stop], lines 132-142 *)
Definition stop : M unit :=
  with_lock (
    cur <- get_current_process ;;
    match cur with
    | Some p =>
        print "[AudioService] Stopping Audio..." ;;
        try_except (terminate p) (fun _ => ret tt) ;;
        set_current_process None
    | None => ret tt
    end).

(** ** [AudioService._run_command], lines 144-179 *)

(** [thread = threading.Thread(target=target); thread.start()].  The
    start is taken to succeed (no [RuntimeError] for want of resources);
    the new thread takes its steps when the scheduler says so. *)
Definition thread_start (t : thread) : M unit :=
  fun s =>
    (Returned tt,
     mkState (current_process s) (next_proc s) (threads s ++ [t]) (trace s)).

Definition _run_command (cmd : command) : M unit :=
  thread_start (TSpawn cmd).

(** Lines 149-161: the first critical section of [target].  The result is
    the value of the local [proc] when the section is left normally, and
    [None] when the [except] branch returned from [target]. *)
Definition target_spawn (cmd : command) : M (option proc) :=
  with_lock (
    try_except
      (p <- Popen cmd ;;
       set_current_process (Some p) ;;
       ret (Some p))
      (fun e =>
         print ("[AudioService] Exception starting process: " +:+ exn_str e) ;;
         ret None)).

(** Lines 166-171: the [try:] block of the wait, with its [except]. *)
Definition target_wait (p : proc) : M unit :=
  try_except
    (out <- communicate p ;;
     let stderr := snd out in
     match stderr with
     | EmptyString => ret tt
     | String _ _ => print ("[AudioService] Process Error: " +:+ stderr)
     end)
    (fun _ => ret tt).

(** Lines 172-176: the [finally:] block. *)
Definition target_cleanup (p : proc) : M unit :=
  with_lock (
    cur <- get_current_process ;;
    if handle_eqb cur (Some p) then set_current_process None else ret tt).

(** ** The public playback methods *)

(** Lines 12-28. *)
Definition play_text (text : string) : M unit :=
  stop ;;
  print ("[AudioService] Speaking: " +:+ text) ;;
  _run_command (play_text_command text).

(** Lines 87-130. *)
Definition play_file (file_path : string) : M unit :=
  stop ;;
  print ("[AudioService] Playing: " +:+ file_path) ;;
  _run_command (play_file_command file_path).

(** Lines 181-228. *)
Definition play_announcement (intro_path text : string) : M unit :=
  stop ;;
  print ("[AudioService] Announcing: Intro -> '" +:+ text +:+ "'") ;;
  _run_command (play_announcement_command intro_path text).

(** Lines 230-251. *)
Definition play_intro_async (file_path : string) : M unit :=
  stop ;;
  print ("[AudioService] Playing Intro (Async): " +:+ file_path) ;;
  _run_command (play_intro_async_command file_path).

(** [subprocess.run(command, check=True)], first half: the process is
    spawned, without pipes, and the caller starts to wait for it. *)
Definition run_spawn (cmd : command) : M proc :=
  fun s =>
    let p := next_proc s in
    match popen_error W cmd p with
    | Some e => (Raised e, s)
    | None =>
        (Returned p,
         mkState (current_process s) (S p) (threads s ++ [TRun p cmd])
                 (trace s ++ [EvRun p cmd]))
    end.

(** [subprocess.run(command, check=True)], second half: the process has
    ended; a non-zero status raises [CalledProcessError]. *)
Definition run_finish (p : proc) (cmd : command) : M unit :=
  emit (EvWait p) ;;
  match run_error W p with
  | Some e => raise e
  | None => ret tt
  end.

(** [except Exception as e: print(...)] of lines 84-85. *)
Definition intro_failed (e : exn) : M unit :=
  print ("[AudioService] Intro playback failed: " +:+ exn_str e).

(** How far a call of [play_intro] has come when it gives up control. *)
Inductive progress :=
| Finished                (* the method has returned *)
| Blocked (p : proc).     (* the caller waits in subprocess.run on p *)

(** Lines 30-85, up to the point where the caller blocks. *)
Definition play_intro (file_path : string) : M progress :=
  stop ;;
  print ("[AudioService] Playing Intro: " +:+ file_path) ;;
  if negb (path_exists W file_path) then
    print ("[AudioService] Intro file not found at " +:+ file_path
             +:+ ". Playing Fallback Tone.") ;;
    _run_command fallback_command ;;
    ret Finished
  else
    try_except
      (p <- run_spawn (play_intro_command file_path) ;; ret (Blocked p))
      (fun e => intro_failed e ;; ret Finished).

(** Lines 82-85, from the point where [subprocess.run] stops waiting. *)
Definition play_intro_resume (p : proc) (cmd : command) : M unit :=
  try_except (run_finish p cmd) intro_failed.

(** ** Interleaving *)

(** One atomic step of a thread: the thread's next state and the effect
    on the shared state. *)
Definition thread_step (t : thread) (s : State) : thread * State :=
  match t with
  | TSpawn cmd =>
      match target_spawn cmd s with
      | (Returned (Some p), s') => (TWait p, s')
      | (Returned None, s') => (TDone (Returned tt), s')
      | (Raised e, s') => (TDone (Raised e), s')
      end
  | TWait p =>
      let '(r, s') := target_wait p s in (TCleanup p r, s')
  | TCleanup p r =>
      match target_cleanup p s with
      | (Returned _, s') => (TDone r, s')
      | (Raised e, s') => (TDone (Raised e), s')
      end
  | TRun p cmd =>
      let '(r, s') := play_intro_resume p cmd s in (TDone r, s')
  | TDone r => (TDone r, s)
  end.

Definition set_threads (ts : list thread) (s : State) : State :=
  mkState (current_process s) (next_proc s) ts (trace s).

(** What a caller may ask of the service. *)
Inductive request :=
| PlayText (text : string)
| PlayIntro (file_path : string)
| PlayFile (file_path : string)
| PlayAnnouncement (intro_path text : string)
| PlayIntroAsync (file_path : string)
| Stop.

(** A request is one step of the interleaving: [stop()], the only part of
    a method that touches the slot, is one critical section, and what
    follows it, the prints and the start of the worker, commutes with the
    steps of the other threads (a worker that runs before the method has
    returned is a worker that is scheduled right after the request). *)
Definition call (r : request) : State -> State :=
  match r with
  | PlayText text => fun s => snd (play_text text s)
  | PlayIntro file_path => fun s => snd (play_intro file_path s)
  | PlayFile file_path => fun s => snd (play_file file_path s)
  | PlayAnnouncement intro_path text =>
      fun s => snd (play_announcement intro_path text s)
  | PlayIntroAsync file_path => fun s => snd (play_intro_async file_path s)
  | Stop => fun s => snd (stop s)
  end.

(** A step of the whole system: a caller makes a request, or the
    scheduler lets thread number [i] take its next atomic step. *)
Inductive move :=
| Call (r : request)
| Sched (i : nat).

Definition exec (a : move) (s : State) : State :=
  match a with
  | Call r => call r s
  | Sched i =>
      match threads s !! i with
      | Some t =>
          let '(t', s') := thread_step t s in
          set_threads (<[i := t']> (threads s')) s'
      | None => s
      end
  end.

(** A schedule is run from left to right. *)
Definition run (sched : list move) (s : State) : State :=
  fold_left (fun s a => exec a s) sched s.

Definition reachable (s : State) : Prop :=
  exists sched, s = run sched init.

End Controller.

(* ===================================================================== *)
(** * Definitions used by the statements *)
(* ===================================================================== *)

(** The escaping in the words of the specification: every character is
    kept, and an apostrophe is written twice. *)
Definition double_each_quote (s : string) : string :=
  string_of_list_ascii
    (flat_map (fun a => if Ascii.eqb a PyStr.apostrophe
                        then [PyStr.apostrophe; PyStr.apostrophe] else [a])
              (list_ascii_of_string s)).

(** State changes the steps are made of. *)
Definition logs (evs : list event) (s : State) : State :=
  mkState (current_process s) (next_proc s) (threads s) (trace s ++ evs).

Definition fork (t : thread) (s : State) : State :=
  mkState (current_process s) (next_proc s) (threads s ++ [t]) (trace s).

Definition set_slot (v : option proc) (s : State) : State :=
  mkState v (next_proc s) (threads s) (trace s).

(** What a worker that waits for [p] adds to the history. *)
Definition wait_events (W : World) (p : proc) : list event :=
  match communicate_result W p with
  | Returned (_, EmptyString) => [EvWait p]
  | Returned (_, String a err) =>
      [EvWait p; EvPrint ("[AudioService] Process Error: " +:+ String a err)]
  | Raised _ => []
  end.

(** What the caller of [play_intro] adds when [subprocess.run] is over. *)
Definition run_events (W : World) (p : proc) : list event :=
  match run_error W p with
  | None => [EvWait p]
  | Some e =>
      [EvWait p;
       EvPrint ("[AudioService] Intro playback failed: " +:+ exn_str e)]
  end.

(** Events that create no process and ask for no termination. *)
Definition quiet (e : event) : Prop :=
  match e with
  | EvPrint _ | EvWait _ => True
  | EvPopen _ _ | EvRun _ _ | EvTerminate _ => False
  end.

(** [p] was made by [Popen], the tracked way; [p] was made by
    [subprocess.run], the untracked way. *)
Definition popened (s : State) (p : proc) : Prop :=
  exists cmd, In (EvPopen p cmd) (trace s).

Definition ran (s : State) (p : proc) : Prop :=
  exists cmd, In (EvRun p cmd) (trace s).

(** The invariant of the interleaving semantics: serial numbers are handed
    out once; the slot and every termination request refer to a process
    that [Popen] made; no two threads hold the same handle. *)
Record consistent (s : State) : Prop := mkConsistent {
  popen_below : forall p cmd, In (EvPopen p cmd) (trace s) -> p < next_proc s;
  run_below : forall p cmd, In (EvRun p cmd) (trace s) -> p < next_proc s;
  run_apart : forall p, ran s p -> popened s p -> False;
  slot_popened : forall p, current_process s = Some p -> popened s p;
  terminate_popened :
    forall p, In (EvTerminate p) (trace s) -> popened s p;
  held_below :
    forall i t p, threads s !! i = Some t -> handle t = Some p ->
                  p < next_proc s;
  held_once :
    forall i j ti tj p,
      threads s !! i = Some ti -> threads s !! j = Some tj ->
      handle ti = Some p -> handle tj = Some p -> i = j
}.

(** ** PowerShell's own single-quote rule *)

(** The single-quote characters of PowerShell are U+0027 and the
    typographic quotes U+2018, U+2019, U+201A and U+201B, in UTF-8 the
    bytes E2 80 98 to E2 80 9B.  [quote_width s] is the number of bytes of
    the quote character that [s] starts with, 0 when it starts with none. *)
Definition is_typographic_quote (a b c : ascii) : bool :=
  Ascii.eqb a "226" && Ascii.eqb b "128"
  && (152 <=? nat_of_ascii c)%nat && (nat_of_ascii c <=? 155)%nat.

Definition quote_width (s : string) : nat :=
  match s with
  | EmptyString => 0
  | String a rest =>
      if Ascii.eqb a PyStr.apostrophe then 1
      else match rest with
           | String b (String c _) =>
               if is_typographic_quote a b c then 3 else 0
           | _ => 0
           end
  end.

(** How PowerShell's tokenizer reads a single-quoted literal, from just
    after the opening quote: a quote character followed by a quote
    character, of whatever kind, stands for the second of the two; a quote
    character followed by anything else closes the literal.  The result is
    the contents and the script text after the closing quote; [None] when
    the literal is not closed (or the fuel, one unit per character of the
    contents, runs out). *)
Fixpoint pwsh_read (fuel : nat) (s : string) : option (string * string) :=
  match fuel with
  | 0 => None
  | S fuel' =>
      match s with
      | EmptyString => None
      | String a rest =>
          match quote_width s with
          | 0 =>
              match pwsh_read fuel' rest with
              | Some (txt, after) => Some (String a txt, after)
              | None => None
              end
          | S _ =>
              let after_first := PyStr.drop (quote_width s) s in
              match quote_width after_first with
              | 0 => Some (EmptyString, after_first)
              | S _ =>
                  match
                    pwsh_read fuel'
                      (PyStr.drop (quote_width after_first) after_first)
                  with
                  | Some (txt, after) =>
                      Some (substring 0 (quote_width after_first) after_first
                              +:+ txt, after)
                  | None => None
                  end
              end
          end
      end
  end.

Definition pwsh_read_quoted (s : string) : option (string * string) :=
  pwsh_read (S (String.length s)) s.

(** A text in which no typographic single quote occurs. *)
Fixpoint no_typographic_quote (s : string) : bool :=
  match s with
  | EmptyString => true
  | String a rest =>
      negb (Nat.eqb (quote_width s) 3) && no_typographic_quote rest
  end.

(** ** The scripts as programs *)

(** The three intro scripts as syntax trees of the fragment of PowerShell
    they are written in.  [render] gives the text of a program, character
    by character, and [run] executes it over a player; the theorems show
    that the rendered text is the text the Python builders produce and
    that running the program is what the functions of [Script] compute.

    [Open] and [Speak] carry the contents of their single-quoted literal
    as the script has them; running them reads the literal by PowerShell's
    single-quote rule, and a script with a literal that does not end at
    its closing quote is not run at all. *)
Module PS.

Inductive cond :=
| HasTimeSpan                    (* $p.NaturalDuration.HasTimeSpan *)
| PositionBelowDuration          (* $p.Position -lt $p.NaturalDuration.TimeSpan *)
| AttemptsGt (n : nat)           (* $attempts -gt n *)
| Not (c : cond)                 (* -not c *)
| And (c1 c2 : cond).            (* c1 -and c2 *)

Inductive stmt :=
| Layout (text : string)         (* blanks, line feeds, semicolons, comments *)
| AddAssembly (names : string)   (* Add-Type -AssemblyName names *)
| NewPlayer                      (* $p = New-Object ...MediaPlayer *)
| OpenMedia (literal : string)   (* $p.Open('...') *)
| SetAttempts (n : nat)          (* $attempts = n *)
| DecrAttempts                   (* $attempts-- *)
| SleepMs (n : nat)              (* Start-Sleep -Milliseconds n *)
| SleepSeconds (n : nat)         (* Start-Sleep -Seconds n *)
| PlayMedia                      (* $p.Play() *)
| CloseMedia                     (* $p.Close() *)
| WriteHostMsg (msg : string)    (* write-host "msg" *)
| NewSynth                       (* $synth = New-Object ...SpeechSynthesizer *)
| SpeakText (literal : string)   (* $synth.Speak('...') *)
| While (c : cond) (body : block)
| IfElse (c : cond) (then_ else_ : block)
with block :=
| Done
| Then (s : stmt) (rest : block).

Fixpoint seq (l : list stmt) : block :=
  match l with
  | [] => Done
  | s :: rest => Then s (seq rest)
  end.

(** *** The text of a program *)

Fixpoint render_cond (c : cond) : string :=
  match c with
  | HasTimeSpan => "$p.NaturalDuration.HasTimeSpan"
  | PositionBelowDuration => "$p.Position -lt $p.NaturalDuration.TimeSpan"
  | AttemptsGt n => "$attempts -gt " +:+ PyStr.str_nat n
  | Not c1 => "-not " +:+ render_cond c1
  | And c1 c2 => render_cond c1 +:+ " -and " +:+ render_cond c2
  end.

Fixpoint render_stmt (s : stmt) : string :=
  match s with
  | Layout text => text
  | AddAssembly names => "Add-Type -AssemblyName " +:+ names
  | NewPlayer => "$p = New-Object System.Windows.Media.MediaPlayer"
  | OpenMedia literal => "$p.Open('" +:+ literal +:+ "')"
  | SetAttempts n => "$attempts = " +:+ PyStr.str_nat n
  | DecrAttempts => "$attempts--"
  | SleepMs n => "Start-Sleep -Milliseconds " +:+ PyStr.str_nat n
  | SleepSeconds n => "Start-Sleep -Seconds " +:+ PyStr.str_nat n
  | PlayMedia => "$p.Play()"
  | CloseMedia => "$p.Close()"
  | WriteHostMsg msg => "write-host " +:+ dq +:+ msg +:+ dq
  | NewSynth => "$synth = New-Object System.Speech.Synthesis.SpeechSynthesizer"
  | SpeakText literal => "$synth.Speak('" +:+ literal +:+ "')"
  | While c body =>
      "while (" +:+ render_cond c +:+ ") {" +:+ render body +:+ "}"
  | IfElse c then_ else_ =>
      "if (" +:+ render_cond c +:+ ") {" +:+ render then_ +:+ "} else {"
             +:+ render else_ +:+ "}"
  end
with render (b : block) : string :=
  match b with
  | Done => EmptyString
  | Then s rest => render_stmt s +:+ render rest
  end.

(** A layout text is made of blanks, line feeds, semicolons and comments,
    each comment running from [#] to the end of its line, and does not end
    inside a comment. *)
Fixpoint is_layout_from (in_comment : bool) (s : string) : bool :=
  match s with
  | EmptyString => negb in_comment
  | String a rest =>
      if Ascii.eqb a "010" then is_layout_from false rest
      else if in_comment then is_layout_from true rest
      else if Ascii.eqb a "#" then is_layout_from true rest
      else (Ascii.eqb a " " || Ascii.eqb a ";") && is_layout_from false rest
  end.

Definition is_layout (s : string) : bool := is_layout_from false s.

Fixpoint layout_ok_stmt (s : stmt) : bool :=
  match s with
  | Layout text => is_layout text
  | While _ body => layout_ok body
  | IfElse _ then_ else_ => layout_ok then_ && layout_ok else_
  | _ => true
  end
with layout_ok (b : block) : bool :=
  match b with
  | Done => true
  | Then s rest => layout_ok_stmt s && layout_ok rest
  end.

(** The value of a single-quoted literal, given its contents: the
    contents followed by the closing quote must read, by the single-quote
    rule, up to that quote and no less. *)
Definition decode (literal : string) : option string :=
  match pwsh_read_quoted (literal +:+ "'") with
  | Some (value, EmptyString) => Some value
  | _ => None
  end.

Definition literal_ok (literal : string) : bool :=
  match decode literal with Some _ => true | None => false end.

Fixpoint literals_ok_stmt (s : stmt) : bool :=
  match s with
  | OpenMedia literal => literal_ok literal
  | SpeakText literal => literal_ok literal
  | While _ body => literals_ok body
  | IfElse _ then_ else_ => literals_ok then_ && literals_ok else_
  | _ => true
  end
with literals_ok (b : block) : bool :=
  match b with
  | Done => true
  | Then s rest => literals_ok_stmt s && literals_ok rest
  end.

(** A program whose text PowerShell reads as that program. *)
Definition well_formed (b : block) : bool := layout_ok b && literals_ok b.

(** *** The execution of a program *)

(** The variable [$attempts] and the state of the player and of the
    actions performed. *)
Record env := mkEnv { attempts : Z; state : Script.st }.

Definition act (a : Script.action) (e : env) : env :=
  mkEnv (attempts e) (Script.perform a (state e)).

(** [-and] evaluates its right operand only when the left one is true. *)
Fixpoint eval (pl : Script.player) (c : cond) (e : env) : bool * env :=
  match c with
  | HasTimeSpan =>
      let '(b, s) := Script.read_has_time_span pl (state e) in
      (b, mkEnv (attempts e) s)
  | PositionBelowDuration =>
      let '(b, s) := Script.read_position_lt_duration pl (state e) in
      (b, mkEnv (attempts e) s)
  | AttemptsGt n => (Z.ltb (Z.of_nat n) (attempts e), e)
  | Not c1 => let '(b, e1) := eval pl c1 e in (negb b, e1)
  | And c1 c2 =>
      let '(b1, e1) := eval pl c1 e in
      if b1 then eval pl c2 e1 else (false, e1)
  end.

(** [while (test) { body }], with one unit of fuel per round; the flag is
    [false] when the fuel runs out with the test still true. *)
Fixpoint while_loop (test : env -> bool * env) (body : env -> env * bool)
         (fuel : nat) (e : env) : env * bool :=
  let '(b, e1) := test e in
  if b then
    match fuel with
    | 0 => (e1, false)
    | S fuel' =>
        let '(e2, ok) := body e1 in
        if ok then while_loop test body fuel' e2 else (e2, false)
    end
  else (e1, true).

Fixpoint run_stmt (pl : Script.player) (fuel : nat) (s : stmt) (e : env)
  : env * bool :=
  match s with
  | Layout _ => (e, true)
  | AddAssembly names => (act (Script.AddType names) e, true)
  | NewPlayer =>
      (act (Script.NewObject "System.Windows.Media.MediaPlayer") e, true)
  | OpenMedia literal =>
      match decode literal with
      | Some path => (act (Script.MediaOpen path) e, true)
      | None => (e, false)
      end
  | SetAttempts n => (mkEnv (Z.of_nat n) (state e), true)
  | DecrAttempts => (mkEnv (attempts e - 1) (state e), true)
  | SleepMs n => (act (Script.Sleep n) e, true)
  | SleepSeconds n => (act (Script.Sleep (n * 1000)) e, true)
  | PlayMedia => (act Script.MediaPlay e, true)
  | CloseMedia => (act Script.MediaClose e, true)
  | WriteHostMsg msg => (act (Script.WriteHost msg) e, true)
  | NewSynth =>
      (act (Script.NewObject "System.Speech.Synthesis.SpeechSynthesizer") e,
       true)
  | SpeakText literal =>
      match decode literal with
      | Some text => (act (Script.Speak text) e, true)
      | None => (e, false)
      end
  | While c body => while_loop (eval pl c) (run pl fuel body) fuel e
  | IfElse c then_ else_ =>
      let '(b, e1) := eval pl c e in
      if b then run pl fuel then_ e1 else run pl fuel else_ e1
  end
with run (pl : Script.player) (fuel : nat) (b : block) (e : env)
  : env * bool :=
  match b with
  | Done => (e, true)
  | Then s rest =>
      let '(e1, ok) := run_stmt pl fuel s e in
      if ok then run pl fuel rest e1 else (e1, false)
  end.

(** PowerShell reads the whole script before it runs any of it: a script
    that is not well formed performs nothing.  A script starts with
    [$attempts] unset, which compares as zero. *)
Definition run_program (pl : Script.player) (fuel : nat) (b : block)
  : Script.st * bool :=
  if well_formed b then
    let '(e, finished) := run pl fuel b (mkEnv 0 Script.start) in
    (state e, finished)
  else (Script.start, false).

(** *** The three programs *)

(** A line feed followed by [n] blanks. *)
Definition ln (n : nat) : string :=
  nl +:+ string_of_list_ascii (repeat " "%char n).

Definition poll_test : cond := And (Not HasTimeSpan) (AttemptsGt 0).

(** Lines 53-78. *)
Definition intro_program (file_path : string) : block :=
  seq [
    Layout (ln 8);
    AddAssembly "PresentationCore, PresentationFramework";
    Layout (";" +:+ ln 8);
    NewPlayer;
    Layout (";" +:+ ln 8);
    OpenMedia (escape_quotes file_path);
    Layout (";" +:+ ln 8 +:+ ln 8
              +:+ "# 1. Wait for Media Open / Duration Load (Async)" +:+ ln 8);
    SetAttempts 20;
    Layout ("; " +:+ ln 8);
    While poll_test
      (seq [Layout (ln 12); SleepMs 100; Layout (";" +:+ ln 12);
            DecrAttempts; Layout (";" +:+ ln 8)]);
    Layout (ln 8 +:+ ln 8);
    PlayMedia;
    Layout (";" +:+ ln 0 +:+ ln 8 +:+ "# 2. Synchronous Wait" +:+ ln 8);
    IfElse HasTimeSpan
      (seq [Layout (ln 12);
            While PositionBelowDuration
              (seq [Layout (ln 16); SleepMs 100; Layout (";" +:+ ln 12)]);
            Layout (ln 8)])
      (seq [Layout
              (ln 12
                 +:+ "# Fallback if duration never loaded (common with some encodings)"
                 +:+ ln 12);
            WriteHostMsg "Duration unknown, using fallback wait.";
            Layout (ln 12);
            SleepSeconds 4;
            Layout (";" +:+ ln 8)]);
    Layout (ln 8);
    CloseMedia;
    Layout (";" +:+ ln 8)
  ].

(** Lines 236-250. *)
Definition intro_async_program (file_path : string) : block :=
  seq [
    Layout (ln 9);
    AddAssembly "PresentationCore, PresentationFramework";
    Layout (";" +:+ ln 9);
    NewPlayer;
    Layout (";" +:+ ln 9);
    OpenMedia (escape_quotes file_path);
    Layout (";" +:+ ln 9 +:+ ln 9);
    SetAttempts 20;
    Layout ("; " +:+ ln 9);
    While poll_test
      (seq [Layout " "; SleepMs 100; Layout "; "; DecrAttempts; Layout "; "]);
    Layout (ln 9 +:+ ln 9);
    PlayMedia;
    Layout (";" +:+ ln 9 +:+ ln 9);
    IfElse HasTimeSpan
      (seq [Layout (ln 12);
            While PositionBelowDuration
              (seq [Layout " "; SleepMs 100; Layout "; "]);
            Layout (ln 9)])
      (seq [Layout " "; SleepSeconds 4; Layout "; "]);
    Layout (ln 9);
    CloseMedia;
    Layout (";" +:+ ln 9)
  ].

(** Lines 195-225. *)
Definition announcement_program (intro_path text : string) : block :=
  seq [
    Layout (ln 8);
    AddAssembly "PresentationCore, PresentationFramework";
    Layout (";" +:+ ln 8);
    AddAssembly "System.Speech";
    Layout (";" +:+ ln 8 +:+ ln 8 +:+ "# 1. Play Intro" +:+ ln 8);
    NewPlayer;
    Layout (";" +:+ ln 8);
    OpenMedia (escape_quotes intro_path);
    Layout (";" +:+ ln 8 +:+ ln 8 +:+ "# Wait for load" +:+ ln 8);
    SetAttempts 20;
    Layout ("; " +:+ ln 8);
    While poll_test
      (seq [Layout (ln 12); SleepMs 100; Layout (";" +:+ ln 12);
            DecrAttempts; Layout (";" +:+ ln 8)]);
    Layout (ln 8 +:+ ln 8);
    PlayMedia;
    Layout (";" +:+ ln 8 +:+ ln 8 +:+ "# Wait for end" +:+ ln 8);
    IfElse HasTimeSpan
      (seq [Layout (ln 12);
            While PositionBelowDuration
              (seq [Layout (ln 16); SleepMs 100; Layout (";" +:+ ln 12)]);
            Layout (ln 8)])
      (seq [Layout (ln 12); SleepSeconds 4;
            Layout ("; # Fallback" +:+ ln 8)]);
    Layout (ln 8);
    CloseMedia;
    Layout (";" +:+ ln 8 +:+ ln 8 +:+ "# 2. Speak Text" +:+ ln 8);
    NewSynth;
    Layout (";" +:+ ln 8);
    SpeakText (escape_quotes text);
    Layout (";" +:+ ln 8)
  ].

End PS.

(** The three media scripts with a metadata poll have one shape: some
    set-up, the poll, [Play], then either the wait on the position or,
    after an optional message, the fixed sleep; then the statements
    [closing] when the wait is over. *)
Definition perform_all (l : list Script.action) (s : Script.st) : Script.st :=
  fold_left (fun s a => Script.perform a s) l s.

Definition polled_media (setup prelude closing : list Script.action)
           (pl : Script.player) (fuel : nat) : Script.st * bool :=
  let s := perform_all setup Script.start in
  let s := Script.poll_duration pl 20 s in
  let s := Script.perform Script.MediaPlay s in
  let '(known, s) := Script.read_has_time_span pl s in
  let '(s, fin) :=
    if known then Script.wait_position pl 100 fuel s
    else (Script.perform (Script.Sleep 4000) (perform_all prelude s), true) in
  if fin then (perform_all closing s, true) else (s, false).

(** What the claims say of such a script, for every player and all fuel:
    [k] polls of 100 ms, [k] at most 20 and 20 unless the duration was
    found; [Play]; then, if the duration is unknown at the test after
    [Play], [prelude], 4000 ms of sleep and [closing], with no read of the
    position; otherwise polls of the position every 100 ms until it is not
    below the duration, and [closing].  The script fails to finish only
    when the duration is known and every one of the [fuel + 1] reads of
    the position has found it below the duration. *)
Definition bounded_poll_script (setup prelude closing : list Script.action)
           (script : Script.player -> nat -> Script.st * bool) : Prop :=
  forall pl fuel, exists k tail,
    k <= 20
    /\ Script.performed (fst (script pl fuel)) =
       setup ++ repeat (Script.Sleep 100) k ++ Script.MediaPlay :: tail
    /\ Script.slept (setup ++ repeat (Script.Sleep 100) k) = 100 * k
    /\ 100 * k <= 2000
    /\ (k < 20 -> Script.has_time_span pl k = true)
    /\ (forall j, j < k -> Script.has_time_span pl j = false)
    /\ (Script.has_time_span pl (S k) = false ->
        tail = prelude ++ Script.Sleep 4000 :: closing
        /\ snd (script pl fuel) = true)
    /\ (Script.has_time_span pl (S k) = true ->
        exists n,
          n <= fuel
          /\ tail = repeat (Script.Sleep 100) n
                    ++ (if snd (script pl fuel) then closing else [])
          /\ (forall j, j < n ->
                Script.position_lt_duration pl (S (S k) + j) = true)
          /\ (snd (script pl fuel) = true ->
              Script.position_lt_duration pl (S (S k) + n) = false)
          /\ (snd (script pl fuel) = false ->
              n = fuel
              /\ Script.position_lt_duration pl (S (S k) + n) = true)).

(** A world in which nothing fails: files exist, processes start, stop on
    request, print nothing and exit with status zero. *)
Definition calm : World :=
  mkWorld (fun _ => true) (fun _ _ => None) (fun _ => None)
          (fun _ => Returned (EmptyString, EmptyString)) (fun _ => None).

(** A world in which no program can be started and no file exists. *)
Definition barren : World :=
  mkWorld (fun _ => false)
          (fun _ _ => Some (mkExn "FileNotFoundError" "[WinError 2]"))
          (fun _ => None)
          (fun _ => Returned (EmptyString, EmptyString)) (fun _ => None).


(** The processes asked to terminate, in the order of the requests. *)
Fixpoint terminated (tr : list event) : list proc :=
  match tr with
  | [] => []
  | EvTerminate p :: rest => p :: terminated rest
  | _ :: rest => terminated rest
  end.

(** The processes made by [Popen], in the order of their making. *)
Fixpoint spawned (tr : list event) : list proc :=
  match tr with
  | [] => []
  | EvPopen p _ :: rest => p :: spawned rest
  | _ :: rest => spawned rest
  end.

(** A worker that still has the [finally:] block for [p] before it. *)
Definition waits_for (t : thread) (p : proc) : Prop :=
  t = TWait p \/ exists r, t = TCleanup p r.

(** A second invariant of the interleaving semantics: the process in the
    slot has not been asked to terminate; no process is asked twice, and
    none before [Popen] made it; no serial number is given twice; and the
    process in the slot has a worker that will run its cleanup. *)
Record tidy (s : State) : Prop := mkTidy {
  slot_not_terminated :
    forall p, current_process s = Some p -> ~ In p (terminated (trace s));
  terminated_once : NoDup (terminated (trace s));
  spawned_once : NoDup (spawned (trace s));
  terminate_after_popen :
    forall before p after,
      trace s = before ++ EvTerminate p :: after -> In p (spawned before);
  slot_has_waiter :
    forall p, current_process s = Some p ->
              exists i t, threads s !! i = Some t /\ waits_for t p
}.

(** The command a fire-and-forget request hands to [_run_command]. *)
Definition request_command (r : request) : option command :=
  match r with
  | PlayText text => Some (play_text_command text)
  | PlayFile file_path => Some (play_file_command file_path)
  | PlayAnnouncement intro_path text =>
      Some (play_announcement_command intro_path text)
  | PlayIntroAsync file_path => Some (play_intro_async_command file_path)
  | PlayIntro _ | Stop => None
  end.

(** [n] steps in a row of thread [i]. *)
Definition steps (W : World) (i n : nat) (s : State) : State :=
  run W (repeat (Sched i) n) s.

(** How many atomic steps a thread has before it at most. *)
Definition steps_left (t : thread) : nat :=
  match t with
  | TSpawn _ => 3
  | TWait _ => 2
  | TCleanup _ _ | TRun _ _ => 1
  | TDone _ => 0
  end.

(* ===================================================================== *)
(** * Escaping and the single-quote rule *)
(* ===================================================================== *)

Lemma escape_quotes_unfold (a : ascii) (s : string) :
  escape_quotes (String a s) =
  if Ascii.eqb a PyStr.apostrophe
  then String PyStr.apostrophe (String PyStr.apostrophe (escape_quotes s))
  else String a (escape_quotes s).
Proof.
  unfold escape_quotes. cbn [PyStr.replace_char].
  now destruct (Ascii.eqb a PyStr.apostrophe).
Qed.

Lemma escape_quotes_doubles (s : string) :
  escape_quotes s = double_each_quote s.
Proof.
  unfold double_each_quote.
  induction s as [|a s IH]; [reflexivity|].
  rewrite escape_quotes_unfold. cbn [list_ascii_of_string flat_map].
  destruct (Ascii.eqb a PyStr.apostrophe);
    cbn [app string_of_list_ascii]; now rewrite IH.
Qed.

Lemma escape_quotes_length (s : string) :
  String.length (escape_quotes s) = String.length s + count_quotes s.
Proof.
  induction s as [|a s IH]; [reflexivity|].
  rewrite escape_quotes_unfold. cbn [count_quotes].
  destruct (Ascii.eqb a PyStr.apostrophe);
    cbn [String.length]; rewrite IH; lia.
Qed.

(** Reading an escaped text that is followed by the closing apostrophe
    gives the text back and stops exactly at that apostrophe. *)
Lemma ps_read_quoted_escape (text after : string) :
  PyStr.startswith after "'" = false ->
  ps_read_quoted (escape_quotes text +:+ "'" +:+ after) = Some (text, after).
Proof.
  intros Hafter.
  change ("'" +:+ after) with (String PyStr.apostrophe after).
  induction text as [|a text IH].
  - change (escape_quotes EmptyString) with EmptyString.
    cbn [String.append ps_read_quoted]. rewrite Ascii.eqb_refl.
    destruct after as [|b after']; [reflexivity|].
    cbn [PyStr.startswith] in Hafter.
    replace (PyStr.startswith after' EmptyString) with true
      in Hafter by now destruct after'.
    rewrite andb_true_r in Hafter.
    unfold PyStr.apostrophe. now rewrite Hafter.
  - rewrite escape_quotes_unfold.
    destruct (Ascii.eqb a PyStr.apostrophe) eqn:Ha.
    + apply Ascii.eqb_eq in Ha. subst a.
      cbn [String.append ps_read_quoted].
      rewrite Ascii.eqb_refl. now rewrite IH.
    + cbn [String.append ps_read_quoted]. rewrite Ha. now rewrite IH.
Qed.

(** Without the escaping the literal is closed by the first apostrophe of
    the text: the escaping is what the round trip rests on. *)
Example unescaped_quote_closes_literal :
  ps_read_quoted ("it's fine" +:+ "')") = Some ("it", "s fine')").
Proof. reflexivity. Qed.

(* ===================================================================== *)
(** * Atomic steps of the controller *)
(* ===================================================================== *)

Lemma app_two {A} (l : list A) (a b : A) : (l ++ [a]) ++ [b] = l ++ [a; b].
Proof. now rewrite <- app_assoc. Qed.

(** [stop] in closed form. *)
Lemma stop_eq (W : World) (s : State) :
  stop W s =
  (Returned tt,
   match current_process s with
   | Some p =>
       mkState None (next_proc s) (threads s)
               (trace s ++ [EvPrint "[AudioService] Stopping Audio...";
                            EvTerminate p])
   | None => s
   end).
Proof.
  unfold stop, with_lock, bind, get_current_process. cbn.
  destruct (current_process s) as [p|] eqn:Hcur; [|reflexivity].
  unfold print, emit, try_except, terminate, bind, emit, set_current_process.
  cbn. destruct (terminate_error W p); cbn; now rewrite app_two.
Qed.

Lemma stop_current (W : World) (s : State) :
  current_process (snd (stop W s)) = None.
Proof. rewrite stop_eq. cbn. now destruct (current_process s) eqn:E. Qed.

Lemma stop_threads (W : World) (s : State) :
  threads (snd (stop W s)) = threads s.
Proof. rewrite stop_eq. cbn. now destruct (current_process s). Qed.

Lemma stop_next_proc (W : World) (s : State) :
  next_proc (snd (stop W s)) = next_proc s.
Proof. rewrite stop_eq. cbn. now destruct (current_process s). Qed.

(** [target_cleanup] in closed form. *)
Lemma target_cleanup_eq (p : proc) (s : State) :
  target_cleanup p s =
  (Returned tt,
   match current_process s with
   | Some q =>
       if Nat.eqb q p
       then mkState None (next_proc s) (threads s) (trace s)
       else s
   | None => s
   end).
Proof.
  unfold target_cleanup, with_lock, bind, get_current_process. cbn.
  destruct (current_process s) as [q|]; cbn; [|reflexivity].
  now destruct (Nat.eqb q p).
Qed.

(** The first critical section of a worker, by cases on the spawn. *)
Lemma target_spawn_ok (W : World) (cmd : command) (s : State) :
  popen_error W cmd (next_proc s) = None ->
  target_spawn W cmd s =
  (Returned (Some (next_proc s)),
   mkState (Some (next_proc s)) (S (next_proc s)) (threads s)
           (trace s ++ [EvPopen (next_proc s) cmd])).
Proof.
  intros H. unfold target_spawn, with_lock, try_except, bind, Popen.
  now rewrite H.
Qed.

Lemma target_spawn_fails (W : World) (cmd : command) (s : State) (e : exn) :
  popen_error W cmd (next_proc s) = Some e ->
  target_spawn W cmd s =
  (Returned None,
   mkState (current_process s) (next_proc s) (threads s)
           (trace s ++ [EvPrint ("[AudioService] Exception starting process: "
                                   +:+ exn_str e)])).
Proof.
  intros H. unfold target_spawn, with_lock, try_except, bind, Popen.
  now rewrite H.
Qed.

(** A worker's step, by the state of the worker. *)
Lemma exec_sched_none (W : World) (i : nat) (s : State) :
  threads s !! i = None -> exec W (Sched i) s = s.
Proof. intros H. cbn. now rewrite H. Qed.

Lemma exec_sched_spawn_ok (W : World) (i : nat) (cmd : command) (s : State) :
  threads s !! i = Some (TSpawn cmd) ->
  popen_error W cmd (next_proc s) = None ->
  exec W (Sched i) s =
  mkState (Some (next_proc s)) (S (next_proc s))
          (<[i := TWait (next_proc s)]> (threads s))
          (trace s ++ [EvPopen (next_proc s) cmd]).
Proof.
  intros Ht Hp. cbn. rewrite Ht. cbn [thread_step].
  now rewrite target_spawn_ok.
Qed.

Lemma exec_sched_spawn_fails (W : World) (i : nat) (cmd : command)
      (s : State) (e : exn) :
  threads s !! i = Some (TSpawn cmd) ->
  popen_error W cmd (next_proc s) = Some e ->
  exec W (Sched i) s =
  set_threads (<[i := TDone (Returned tt)]> (threads s))
    (logs [EvPrint ("[AudioService] Exception starting process: "
                      +:+ exn_str e)] s).
Proof.
  intros Ht Hp. cbn. rewrite Ht. cbn [thread_step].
  now rewrite (target_spawn_fails _ _ _ e).
Qed.

Lemma target_wait_eq (W : World) (p : proc) (s : State) :
  target_wait W p s = (Returned tt, logs (wait_events W p) s).
Proof.
  unfold target_wait, try_except, bind, communicate, wait_events, logs.
  destruct (communicate_result W p) as [[out err]|e]; cbn.
  - destruct err; cbn; [reflexivity|]. now rewrite app_two.
  - destruct s; cbn. now rewrite app_nil_r.
Qed.

Lemma exec_sched_wait (W : World) (i : nat) (p : proc) (s : State) :
  threads s !! i = Some (TWait p) ->
  exec W (Sched i) s =
  set_threads (<[i := TCleanup p (Returned tt)]> (threads s))
              (logs (wait_events W p) s).
Proof.
  intros Ht. cbn. rewrite Ht. cbn [thread_step].
  now rewrite target_wait_eq.
Qed.

Lemma exec_sched_cleanup (W : World) (i : nat) (p : proc) (r : outcome unit)
      (s : State) :
  threads s !! i = Some (TCleanup p r) ->
  exec W (Sched i) s =
  set_threads (<[i := TDone r]> (threads s))
    (match current_process s with
     | Some q => if Nat.eqb q p then set_slot None s else s
     | None => s
     end).
Proof.
  intros Ht. cbn. rewrite Ht. cbn [thread_step].
  rewrite target_cleanup_eq.
  destruct (current_process s) as [q|]; [|reflexivity].
  now destruct (Nat.eqb q p).
Qed.

Lemma play_intro_resume_eq (W : World) (p : proc) (cmd : command) (s : State) :
  play_intro_resume W p cmd s = (Returned tt, logs (run_events W p) s).
Proof.
  unfold play_intro_resume, try_except, run_finish, bind, run_events, logs,
    intro_failed, print, emit.
  cbn. destruct (run_error W p); cbn; [|reflexivity].
  now rewrite app_two.
Qed.

Lemma exec_sched_run (W : World) (i : nat) (p : proc) (cmd : command)
      (s : State) :
  threads s !! i = Some (TRun p cmd) ->
  exec W (Sched i) s =
  set_threads (<[i := TDone (Returned tt)]> (threads s))
              (logs (run_events W p) s).
Proof.
  intros Ht. cbn. rewrite Ht. cbn [thread_step].
  now rewrite play_intro_resume_eq.
Qed.

Lemma exec_sched_done (W : World) (i : nat) (r : outcome unit) (s : State) :
  threads s !! i = Some (TDone r) -> exec W (Sched i) s = s.
Proof.
  intros Ht. cbn. rewrite Ht. cbn [thread_step]. unfold set_threads.
  rewrite list_insert_id by assumption. now destruct s.
Qed.

(** The four fire-and-forget methods are [stop], one [print] and one
    [_run_command]. *)
Lemma dispatch_eq (W : World) (line : string) (cmd : command) (s : State) :
  (stop W ;; print line ;; _run_command cmd) s =
  (Returned tt, fork (TSpawn cmd) (logs [EvPrint line] (snd (stop W s)))).
Proof. unfold bind. rewrite stop_eq. reflexivity. Qed.

Lemma play_text_eq (W : World) (text : string) (s : State) :
  play_text W text s =
  (Returned tt,
   fork (TSpawn (play_text_command text))
        (logs [EvPrint ("[AudioService] Speaking: " +:+ text)]
              (snd (stop W s)))).
Proof. apply dispatch_eq. Qed.

Lemma play_file_eq (W : World) (file_path : string) (s : State) :
  play_file W file_path s =
  (Returned tt,
   fork (TSpawn (play_file_command file_path))
        (logs [EvPrint ("[AudioService] Playing: " +:+ file_path)]
              (snd (stop W s)))).
Proof. apply dispatch_eq. Qed.

Lemma play_announcement_eq (W : World) (intro_path text : string) (s : State) :
  play_announcement W intro_path text s =
  (Returned tt,
   fork (TSpawn (play_announcement_command intro_path text))
        (logs [EvPrint ("[AudioService] Announcing: Intro -> '" +:+ text
                          +:+ "'")]
              (snd (stop W s)))).
Proof. apply dispatch_eq. Qed.

Lemma play_intro_async_eq (W : World) (file_path : string) (s : State) :
  play_intro_async W file_path s =
  (Returned tt,
   fork (TSpawn (play_intro_async_command file_path))
        (logs [EvPrint ("[AudioService] Playing Intro (Async): "
                          +:+ file_path)]
              (snd (stop W s)))).
Proof. apply dispatch_eq. Qed.

(** [play_intro], by cases on the file and on the spawn. *)
Lemma play_intro_absent (W : World) (file_path : string) (s : State) :
  path_exists W file_path = false ->
  play_intro W file_path s =
  (Returned Finished,
   fork (TSpawn fallback_command)
        (logs [EvPrint ("[AudioService] Playing Intro: " +:+ file_path);
               EvPrint ("[AudioService] Intro file not found at "
                          +:+ file_path +:+ ". Playing Fallback Tone.")]
              (snd (stop W s)))).
Proof.
  intros H. unfold play_intro, bind. rewrite stop_eq, H. cbn.
  unfold fork, logs. cbn. now rewrite app_two.
Qed.

Lemma play_intro_present (W : World) (file_path : string) (s : State) :
  path_exists W file_path = true ->
  popen_error W (play_intro_command file_path) (next_proc s) = None ->
  play_intro W file_path s =
  (Returned (Blocked (next_proc s)),
   let s1 :=
     logs [EvPrint ("[AudioService] Playing Intro: " +:+ file_path)]
          (snd (stop W s)) in
   mkState (current_process s1) (S (next_proc s1))
           (threads s1
              ++ [TRun (next_proc s1) (play_intro_command file_path)])
           (trace s1 ++ [EvRun (next_proc s1) (play_intro_command file_path)])).
Proof.
  intros H Hp. unfold play_intro, bind. rewrite stop_eq, H. cbn.
  unfold try_except, bind, run_spawn. cbn.
  destruct (current_process s); cbn; now rewrite Hp.
Qed.

Lemma play_intro_unstartable (W : World) (file_path : string) (s : State)
      (e : exn) :
  path_exists W file_path = true ->
  popen_error W (play_intro_command file_path) (next_proc s) = Some e ->
  play_intro W file_path s =
  (Returned Finished,
   logs [EvPrint ("[AudioService] Playing Intro: " +:+ file_path);
         EvPrint ("[AudioService] Intro playback failed: " +:+ exn_str e)]
        (snd (stop W s))).
Proof.
  intros H Hp. unfold play_intro, bind. rewrite stop_eq, H. cbn.
  unfold try_except, bind, run_spawn. cbn.
  destruct (current_process s); cbn; rewrite Hp; cbn;
    unfold logs; cbn; now rewrite app_two.
Qed.

(* ===================================================================== *)
(** * The invariant *)
(* ===================================================================== *)

Lemma consistent_init : consistent init.
Proof.
  constructor; cbn.
  - intros p cmd [].
  - intros p cmd [].
  - intros p [cmd []].
  - intros p H. discriminate.
  - intros p [].
  - intros i t p H. now rewrite lookup_nil in H.
  - intros i j ti tj p H. now rewrite lookup_nil in H.
Qed.

Lemma quiet_not_popen (evs : list event) (p : proc) (cmd : command) :
  Forall quiet evs -> In (EvPopen p cmd) evs -> False.
Proof.
  intros Hq Hin. rewrite Forall_forall in Hq.
  apply list_elem_of_In in Hin. exact (Hq _ Hin).
Qed.

Lemma quiet_not_run (evs : list event) (p : proc) (cmd : command) :
  Forall quiet evs -> In (EvRun p cmd) evs -> False.
Proof.
  intros Hq Hin. rewrite Forall_forall in Hq.
  apply list_elem_of_In in Hin. exact (Hq _ Hin).
Qed.

Lemma quiet_not_terminate (evs : list event) (p : proc) :
  Forall quiet evs -> In (EvTerminate p) evs -> False.
Proof.
  intros Hq Hin. rewrite Forall_forall in Hq.
  apply list_elem_of_In in Hin. exact (Hq _ Hin).
Qed.

Lemma popened_logs (evs : list event) (s : State) (p : proc) :
  popened s p -> popened (logs evs s) p.
Proof. intros [cmd H]. exists cmd. cbn. apply in_or_app. now left. Qed.

Lemma consistent_logs (evs : list event) (s : State) :
  Forall quiet evs -> consistent s -> consistent (logs evs s).
Proof.
  intros Hq [H1 H2 H3 H4 H5 H6 H7].
  constructor; cbn.
  - intros p cmd Hin. apply in_app_or in Hin as [Hin|Hin]; [eauto|].
    now destruct (quiet_not_popen _ _ _ Hq Hin).
  - intros p cmd Hin. apply in_app_or in Hin as [Hin|Hin]; [eauto|].
    now destruct (quiet_not_run _ _ _ Hq Hin).
  - intros p [c1 Hr] [c2 Hp]. cbn in Hr, Hp.
    apply in_app_or in Hr as [Hr|Hr];
      [|now destruct (quiet_not_run _ _ _ Hq Hr)].
    apply in_app_or in Hp as [Hp|Hp];
      [|now destruct (quiet_not_popen _ _ _ Hq Hp)].
    apply (H3 p); [now exists c1 | now exists c2].
  - intros p Hc. apply popened_logs. auto.
  - intros p Hin. apply in_app_or in Hin as [Hin|Hin].
    + apply popened_logs. auto.
    + now destruct (quiet_not_terminate _ _ Hq Hin).
  - exact H6.
  - exact H7.
Qed.

Lemma consistent_terminate (p : proc) (s : State) :
  current_process s = Some p -> consistent s ->
  consistent (logs [EvTerminate p] s).
Proof.
  intros Hcur [H1 H2 H3 H4 H5 H6 H7].
  constructor; cbn.
  - intros q cmd Hin. apply in_app_or in Hin as [Hin|[Hin|[]]]; [eauto|].
    discriminate.
  - intros q cmd Hin. apply in_app_or in Hin as [Hin|[Hin|[]]]; [eauto|].
    discriminate.
  - intros q [c1 Hr] [c2 Hp]. cbn in Hr, Hp.
    apply in_app_or in Hr as [Hr|[Hr|[]]]; [|discriminate].
    apply in_app_or in Hp as [Hp|[Hp|[]]]; [|discriminate].
    apply (H3 q); [now exists c1 | now exists c2].
  - intros q Hc. apply popened_logs. auto.
  - intros q Hin. apply popened_logs.
    apply in_app_or in Hin as [Hin|[Hin|[]]]; [auto|].
    injection Hin as <-. auto.
  - exact H6.
  - exact H7.
Qed.

Lemma consistent_clear (s : State) :
  consistent s -> consistent (set_slot None s).
Proof.
  intros [H1 H2 H3 H4 H5 H6 H7].
  constructor; cbn; try assumption. intros p H. discriminate.
Qed.

Lemma consistent_stop (W : World) (s : State) :
  consistent s -> consistent (snd (stop W s)).
Proof.
  intros H. rewrite stop_eq. cbn.
  destruct (current_process s) as [p|] eqn:Hcur; [|assumption].
  apply (consistent_logs [EvPrint "[AudioService] Stopping Audio..."]) in H;
    [|repeat constructor].
  apply (consistent_terminate p) in H; [|assumption].
  apply consistent_clear in H.
  unfold set_slot, logs in H. cbn in H. now rewrite app_two in H.
Qed.

Lemma consistent_fork (t : thread) (s : State) :
  handle t = None -> consistent s -> consistent (fork t s).
Proof.
  intros Ht [H1 H2 H3 H4 H5 H6 H7].
  constructor; cbn; try assumption.
  - intros i t' p Hi Hh. apply lookup_app_Some in Hi as [Hi|[_ Hi]]; [eauto|].
    apply list_lookup_singleton_Some in Hi as [_ <-]. congruence.
  - intros i j ti tj p Hi Hj Hhi Hhj.
    apply lookup_app_Some in Hi as [Hi|[_ Hi]];
      [|apply list_lookup_singleton_Some in Hi as [_ <-]; congruence].
    apply lookup_app_Some in Hj as [Hj|[_ Hj]];
      [|apply list_lookup_singleton_Some in Hj as [_ <-]; congruence].
    eauto.
Qed.

(** A thread moves on without taking a new handle. *)
Lemma consistent_set_thread (i : nat) (t t' : thread) (s : State) :
  threads s !! i = Some t ->
  handle t' = None \/ handle t' = handle t ->
  consistent s ->
  consistent (set_threads (<[i := t']> (threads s)) s).
Proof.
  intros Hi Ht' [H1 H2 H3 H4 H5 H6 H7].
  assert (Hkeep : forall j tj p,
             <[i := t']> (threads s) !! j = Some tj -> handle tj = Some p ->
             exists tj', threads s !! j = Some tj' /\ handle tj' = Some p).
  { intros j tj p Hj Hh.
    apply list_lookup_insert_Some in Hj as [(-> & -> & _)|[_ Hj]].
    - exists t. split; [assumption|]. destruct Ht' as [E|E]; congruence.
    - now exists tj. }
  constructor; cbn; try assumption.
  - intros j tj p Hj Hh. destruct (Hkeep _ _ _ Hj Hh) as (tj' & Hj' & Hh').
    eauto.
  - intros j k tj tk p Hj Hk Hhj Hhk.
    destruct (Hkeep _ _ _ Hj Hhj) as (tj' & Hj' & Hhj').
    destruct (Hkeep _ _ _ Hk Hhk) as (tk' & Hk' & Hhk').
    eauto.
Qed.

(** A worker spawns: the fresh serial number goes to the slot, to the
    history and to the worker. *)
Lemma consistent_popen (i : nat) (cmd : command) (s : State) :
  threads s !! i = Some (TSpawn cmd) ->
  consistent s ->
  consistent
    (mkState (Some (next_proc s)) (S (next_proc s))
             (<[i := TWait (next_proc s)]> (threads s))
             (trace s ++ [EvPopen (next_proc s) cmd])).
Proof.
  intros Hi [H1 H2 H3 H4 H5 H6 H7].
  assert (Hkeep : forall j tj p,
             <[i := TWait (next_proc s)]> (threads s) !! j = Some tj ->
             handle tj = Some p ->
             (j = i /\ p = next_proc s) \/
             (j <> i /\ p < next_proc s /\
              exists tj', threads s !! j = Some tj' /\ handle tj' = Some p)).
  { intros j tj p Hj Hh.
    apply list_lookup_insert_Some in Hj as [(-> & <- & _)|[Hne Hj]].
    - left. cbn in Hh. split; congruence.
    - right. repeat split; [congruence|eauto|eauto]. }
  constructor; cbn.
  - intros p c Hin. apply in_app_or in Hin as [Hin|[Hin|[]]].
    + apply H1 in Hin. lia.
    + injection Hin as <- _. lia.
  - intros p c Hin. apply in_app_or in Hin as [Hin|[Hin|[]]];
      [|discriminate].
    apply H2 in Hin. lia.
  - intros p [c1 Hr] [c2 Hp]. cbn in Hr, Hp.
    apply in_app_or in Hr as [Hr|[Hr|[]]]; [|discriminate].
    apply in_app_or in Hp as [Hp|[Hp|[]]].
    + apply (H3 p); [now exists c1 | now exists c2].
    + injection Hp as <- _. apply H2 in Hr. lia.
  - intros p Hp. injection Hp as <-. exists cmd. apply in_or_app.
    right. now left.
  - intros p Hin. apply in_app_or in Hin as [Hin|[Hin|[]]]; [|discriminate].
    destruct (H5 p Hin) as [c Hc]. exists c. cbn. apply in_or_app. now left.
  - intros j tj p Hj Hh.
    destruct (Hkeep _ _ _ Hj Hh) as [[_ ->]|(_ & Hlt & _)]; lia.
  - intros j k tj tk p Hj Hk Hhj Hhk.
    destruct (Hkeep _ _ _ Hj Hhj) as [[-> ->]|(Hnj & Hlj & tj' & Hj' & Hhj')];
      destruct (Hkeep _ _ _ Hk Hhk) as [[-> Hp]|(Hnk & Hlk & tk' & Hk' & Hhk')];
      try reflexivity; try lia.
    eauto.
Qed.

(** A caller of [play_intro] spawns: the fresh serial number goes to the
    history and to the caller, not to the slot. *)
Lemma consistent_run_spawn (cmd : command) (s : State) :
  consistent s ->
  consistent
    (mkState (current_process s) (S (next_proc s))
             (threads s ++ [TRun (next_proc s) cmd])
             (trace s ++ [EvRun (next_proc s) cmd])).
Proof.
  intros [H1 H2 H3 H4 H5 H6 H7].
  assert (Hkeep : forall j tj p,
             (threads s ++ [TRun (next_proc s) cmd]) !! j = Some tj ->
             handle tj = Some p ->
             (j = length (threads s) /\ p = next_proc s) \/
             (j < length (threads s) /\ p < next_proc s /\
              exists tj', threads s !! j = Some tj' /\ handle tj' = Some p)).
  { intros j tj p Hj Hh.
    apply lookup_app_Some in Hj as [Hj|[Hge Hj]].
    - right. split; [eapply lookup_lt_Some; eassumption|]. eauto.
    - left. apply list_lookup_singleton_Some in Hj as [Hz <-].
      cbn in Hh. split; [lia|congruence]. }
  constructor; cbn.
  - intros p c Hin. apply in_app_or in Hin as [Hin|[Hin|[]]];
      [|discriminate].
    apply H1 in Hin. lia.
  - intros p c Hin. apply in_app_or in Hin as [Hin|[Hin|[]]].
    + apply H2 in Hin. lia.
    + injection Hin as <- _. lia.
  - intros p [c1 Hr] [c2 Hp]. cbn in Hr, Hp.
    apply in_app_or in Hp as [Hp|[Hp|[]]]; [|discriminate].
    apply in_app_or in Hr as [Hr|[Hr|[]]].
    + apply (H3 p); [now exists c1 | now exists c2].
    + injection Hr as <- _. apply H1 in Hp. lia.
  - intros p Hp. destruct (H4 p Hp) as [c Hc]. exists c. cbn.
    apply in_or_app. now left.
  - intros p Hin. apply in_app_or in Hin as [Hin|[Hin|[]]]; [|discriminate].
    destruct (H5 p Hin) as [c Hc]. exists c. cbn. apply in_or_app. now left.
  - intros j tj p Hj Hh.
    destruct (Hkeep _ _ _ Hj Hh) as [[_ ->]|(_ & Hlt & _)]; lia.
  - intros j k tj tk p Hj Hk Hhj Hhk.
    destruct (Hkeep _ _ _ Hj Hhj) as [[-> ->]|(Hnj & Hlj & tj' & Hj' & Hhj')];
      destruct (Hkeep _ _ _ Hk Hhk) as [[-> Hp]|(Hnk & Hlk & tk' & Hk' & Hhk')];
      try reflexivity; try lia.
    eauto.
Qed.

Lemma quiet_wait_events (W : World) (p : proc) : Forall quiet (wait_events W p).
Proof.
  unfold wait_events.
  destruct (communicate_result W p) as [[out [|a err]]|e];
    repeat constructor.
Qed.

Lemma quiet_run_events (W : World) (p : proc) : Forall quiet (run_events W p).
Proof. unfold run_events. destruct (run_error W p); repeat constructor. Qed.

Lemma consistent_dispatch (W : World) (line : string) (cmd : command)
      (s : State) :
  consistent s ->
  consistent (fork (TSpawn cmd) (logs [EvPrint line] (snd (stop W s)))).
Proof.
  intros H. apply consistent_fork; [reflexivity|].
  apply consistent_logs; [repeat constructor|]. now apply consistent_stop.
Qed.

Lemma consistent_call (W : World) (r : request) (s : State) :
  consistent s -> consistent (call W r s).
Proof.
  intros H. destruct r as [text|path|path|intro text|path|]; cbn [call].
  - rewrite play_text_eq. now apply consistent_dispatch.
  - destruct (path_exists W path) eqn:Hex.
    + destruct (popen_error W (play_intro_command path) (next_proc s))
        as [e|] eqn:Hp.
      * rewrite (play_intro_unstartable _ _ _ e) by assumption. cbn [snd].
        apply consistent_logs; [repeat constructor|].
        now apply consistent_stop.
      * rewrite play_intro_present by assumption. cbn [snd].
        apply (consistent_run_spawn (play_intro_command path)
                 (logs [EvPrint ("[AudioService] Playing Intro: " +:+ path)]
                       (snd (stop W s)))).
        apply consistent_logs; [repeat constructor|].
        now apply consistent_stop.
    + rewrite play_intro_absent by assumption. cbn [snd].
      apply consistent_fork; [reflexivity|].
      apply consistent_logs; [repeat constructor|].
      now apply consistent_stop.
  - rewrite play_file_eq. now apply consistent_dispatch.
  - rewrite play_announcement_eq. now apply consistent_dispatch.
  - rewrite play_intro_async_eq. now apply consistent_dispatch.
  - now apply consistent_stop.
Qed.

Lemma consistent_exec (W : World) (a : move) (s : State) :
  consistent s -> consistent (exec W a s).
Proof.
  intros H. destruct a as [r|i]; [now apply consistent_call|].
  destruct (threads s !! i) as [[cmd|p|p r|p cmd|r]|] eqn:Ht.
  - destruct (popen_error W cmd (next_proc s)) as [e|] eqn:Hp.
    + rewrite (exec_sched_spawn_fails W i cmd s e) by assumption.
      apply (consistent_set_thread i (TSpawn cmd) _ (logs _ s));
        [assumption|now left|].
      apply consistent_logs; [repeat constructor|assumption].
    + rewrite (exec_sched_spawn_ok _ _ cmd) by assumption.
      now apply consistent_popen.
  - rewrite (exec_sched_wait _ _ p) by assumption.
    apply (consistent_set_thread i (TWait p) _ (logs _ s));
      [assumption|now right|].
    apply consistent_logs; [apply quiet_wait_events|assumption].
  - rewrite (exec_sched_cleanup _ _ p r) by assumption.
    destruct (current_process s) as [q|] eqn:Hc;
      [destruct (Nat.eqb q p)|].
    + apply (consistent_set_thread i (TCleanup p r) _ (set_slot None s));
        [assumption|now left|]. now apply consistent_clear.
    + apply (consistent_set_thread i (TCleanup p r)); [assumption|now left|].
      assumption.
    + apply (consistent_set_thread i (TCleanup p r)); [assumption|now left|].
      assumption.
  - rewrite (exec_sched_run _ _ p cmd) by assumption.
    apply (consistent_set_thread i (TRun p cmd) _ (logs _ s));
      [assumption|now left|].
    apply consistent_logs; [apply quiet_run_events|assumption].
  - now rewrite (exec_sched_done _ _ r).
  - now rewrite exec_sched_none.
Qed.

Lemma consistent_run (W : World) (sched : list move) (s : State) :
  consistent s -> consistent (run W sched s).
Proof.
  revert s. induction sched as [|a sched IH]; intros s H; [assumption|].
  cbn. apply IH. now apply consistent_exec.
Qed.

Lemma reachable_consistent (W : World) (s : State) :
  reachable W s -> consistent s.
Proof. intros [sched ->]. apply consistent_run, consistent_init. Qed.

(* ===================================================================== *)
(** * The loops of the scripts *)
(* ===================================================================== *)

Lemma repeat_snoc {A} (a : A) (k : nat) : repeat a k ++ [a] = a :: repeat a k.
Proof. induction k as [|k IH]; cbn; [reflexivity|]. now rewrite IH. Qed.

(** The metadata poll sleeps [k] times, [k] at most the budget: it stops
    at the first read that finds the duration, or with the budget used up. *)
Lemma poll_duration_spec (pl : Script.player) (budget : nat) (s : Script.st) :
  exists k,
    k <= budget
    /\ Script.poll_duration pl budget s =
       Script.mkSt (Script.reads s + S k)
                   (Script.performed s ++ repeat (Script.Sleep 100) k)
    /\ (k < budget -> Script.has_time_span pl (Script.reads s + k) = true)
    /\ (forall j, j < k -> Script.has_time_span pl (Script.reads s + j) = false).
Proof.
  revert s. induction budget as [|budget IH]; intros s.
  - exists 0. cbn. rewrite app_nil_r, Nat.add_1_r.
    repeat split; try lia.
    now destruct (Script.has_time_span pl (Script.reads s)).
  - cbn [Script.poll_duration Script.read_has_time_span].
    destruct (Script.has_time_span pl (Script.reads s)) eqn:Hk.
    + exists 0. cbn. rewrite app_nil_r, Nat.add_1_r, Nat.add_0_r.
      repeat split; try lia. intros _. assumption.
    + destruct (IH (Script.perform (Script.Sleep 100)
                      (Script.mkSt (S (Script.reads s)) (Script.performed s))))
        as (k & Hle & Heq & Hstop & Hbefore).
      exists (S k). cbn in Heq, Hstop, Hbefore. rewrite Heq.
      repeat split.
      * lia.
      * f_equal; [lia|]. now rewrite <- app_assoc.
      * intros Hlt. replace (Script.reads s + S k) with (S (Script.reads s + k))
          by lia. apply Hstop. lia.
      * intros j Hj. destruct j as [|j].
        -- now rewrite Nat.add_0_r.
        -- replace (Script.reads s + S j) with (S (Script.reads s + j)) by lia.
           apply Hbefore. lia.
Qed.

(** The position loop sleeps once per read that finds the position short
    of the duration, and ends at the first read that does not. *)
Lemma wait_position_spec (pl : Script.player) (interval fuel : nat)
      (s : Script.st) :
  exists k,
    k <= fuel
    /\ Script.performed (fst (Script.wait_position pl interval fuel s)) =
       Script.performed s ++ repeat (Script.Sleep interval) k
    /\ (forall j, j < k ->
                  Script.position_lt_duration pl (Script.reads s + j) = true)
    /\ (snd (Script.wait_position pl interval fuel s) = true ->
        Script.position_lt_duration pl (Script.reads s + k) = false)
    /\ (snd (Script.wait_position pl interval fuel s) = false ->
        k = fuel
        /\ Script.position_lt_duration pl (Script.reads s + k) = true).
Proof.
  revert s. induction fuel as [|fuel IH]; intros s.
  - exists 0. cbn. rewrite app_nil_r, Nat.add_0_r.
    destruct (Script.position_lt_duration pl (Script.reads s)) eqn:Hp; cbn;
      repeat split; try lia; try congruence.
  - cbn [Script.wait_position Script.read_position_lt_duration].
    destruct (Script.position_lt_duration pl (Script.reads s)) eqn:Hp.
    + destruct (IH (Script.perform (Script.Sleep interval)
                      (Script.mkSt (S (Script.reads s)) (Script.performed s))))
        as (k & Hle & Heq & Hbefore & Hend & Hout).
      exists (S k). cbn in Heq, Hbefore, Hend, Hout.
      replace (Script.reads s + S k) with (S (Script.reads s + k)) by lia.
      split; [|split; [|split; [|split]]].
      * lia.
      * rewrite Heq. now rewrite <- app_assoc.
      * intros j Hj. destruct j as [|j].
        -- now rewrite Nat.add_0_r.
        -- replace (Script.reads s + S j) with (S (Script.reads s + j)) by lia.
           apply Hbefore. lia.
      * assumption.
      * intros Hf. destruct (Hout Hf) as [-> Hq]. now split.
    + exists 0. cbn. rewrite app_nil_r, Nat.add_0_r.
      repeat split; try lia; try congruence.
Qed.

Lemma slept_app (l1 l2 : list Script.action) :
  Script.slept (l1 ++ l2) = Script.slept l1 + Script.slept l2.
Proof.
  unfold Script.slept.
  induction l1 as [|a l1 IH]; cbn; [reflexivity|]. rewrite IH. lia.
Qed.

Lemma slept_repeat (ms k : nat) :
  Script.slept (repeat (Script.Sleep ms) k) = ms * k.
Proof.
  unfold Script.slept.
  induction k as [|k IH]; cbn; [lia|]. rewrite IH. lia.
Qed.

Lemma perform_all_spec (l : list Script.action) (s : Script.st) :
  perform_all l s = Script.mkSt (Script.reads s) (Script.performed s ++ l).
Proof.
  revert s. induction l as [|a l IH]; intros s; cbn.
  - rewrite app_nil_r. now destruct s.
  - unfold perform_all in IH. rewrite IH. cbn. now rewrite <- app_assoc.
Qed.

Lemma slept_no_sleep (l : list Script.action) :
  Forall (fun a => Script.sleep_ms a = 0) l -> Script.slept l = 0.
Proof.
  unfold Script.slept.
  induction 1 as [|a l Ha _ IH]; cbn [fold_right]; [reflexivity|].
  now rewrite Ha, IH.
Qed.

Lemma polled_media_spec (setup prelude closing : list Script.action) :
  Forall (fun a => Script.sleep_ms a = 0) setup ->
  bounded_poll_script setup prelude closing
                      (polled_media setup prelude closing).
Proof.
  intros Hsetup pl fuel. unfold polled_media.
  rewrite perform_all_spec. cbn [Script.start Script.reads Script.performed app].
  destruct (poll_duration_spec pl 20 (Script.mkSt 0 setup))
    as (k & Hk & Hpoll & Hstop & Hbefore).
  cbn [Script.reads Script.performed Nat.add] in Hpoll, Hstop, Hbefore.
  rewrite Hpoll.
  cbn [Script.perform Script.read_has_time_span Script.reads Script.performed].
  assert (Hslept : Script.slept (setup ++ repeat (Script.Sleep 100) k) = 100 * k).
  { rewrite slept_app, slept_repeat.
    rewrite (slept_no_sleep setup Hsetup). lia. }
  destruct (Script.has_time_span pl (S k)) eqn:Hknown.
  - destruct (wait_position_spec pl 100 fuel
                (Script.mkSt (S (S k))
                   ((setup ++ repeat (Script.Sleep 100) k) ++ [Script.MediaPlay])))
      as (n & Hn & Hacts & Hplaying & Hend & Hout).
    cbn [Script.reads Script.performed] in Hacts, Hplaying, Hend, Hout.
    destruct (Script.wait_position pl 100 fuel _) as [s1 fin] eqn:Hw.
    cbn [fst snd] in Hacts, Hend, Hout.
    exists k, (repeat (Script.Sleep 100) n ++ (if fin then closing else [])).
    split; [assumption|]. split.
    { destruct fin; cbn [fst].
      - rewrite perform_all_spec. cbn [Script.performed]. rewrite Hacts.
        rewrite <- !app_assoc. reflexivity.
      - rewrite Hacts. rewrite app_nil_r, <- !app_assoc. reflexivity. }
    split; [assumption|]. split; [lia|]. split; [assumption|].
    split; [assumption|]. split; [intros Hd; congruence|].
    intros _. exists n. split; [assumption|]. split.
    { now destruct fin. }
    split; [assumption|].
    split.
    { destruct fin; cbn [snd]; [assumption|intros Hd; discriminate Hd]. }
    destruct fin; cbn [snd]; [intros Hd; discriminate Hd|assumption].
  - exists k, (prelude ++ Script.Sleep 4000 :: closing).
    split; [assumption|]. split.
    { cbn [fst]. rewrite !perform_all_spec.
      cbn [Script.perform Script.performed Script.reads].
      rewrite <- !app_assoc. reflexivity. }
    split; [assumption|]. split; [lia|]. split; [assumption|].
    split; [assumption|].
    split; [intros _; split; reflexivity|intros Hd; congruence].
Qed.

(** The scripts of the source are instances of that shape. *)
Lemma play_intro_polled (pl : Script.player) (path : string) (fuel : nat) :
  Script.intro pl path fuel =
  polled_media
    [Script.AddType "PresentationCore, PresentationFramework";
     Script.NewObject "System.Windows.Media.MediaPlayer";
     Script.MediaOpen path]
    [Script.WriteHost "Duration unknown, using fallback wait."]
    [Script.MediaClose] pl fuel.
Proof. reflexivity. Qed.

Lemma play_intro_async_polled (pl : Script.player) (path : string) (fuel : nat) :
  Script.intro_async pl path fuel =
  polled_media
    [Script.AddType "PresentationCore, PresentationFramework";
     Script.NewObject "System.Windows.Media.MediaPlayer";
     Script.MediaOpen path]
    []
    [Script.MediaClose] pl fuel.
Proof. reflexivity. Qed.

Lemma play_announcement_polled (pl : Script.player) (intro text : string)
      (fuel : nat) :
  Script.announcement pl intro text fuel =
  polled_media
    [Script.AddType "PresentationCore, PresentationFramework";
     Script.AddType "System.Speech";
     Script.NewObject "System.Windows.Media.MediaPlayer";
     Script.MediaOpen intro]
    []
    [Script.MediaClose;
     Script.NewObject "System.Speech.Synthesis.SpeechSynthesizer";
     Script.Speak text] pl fuel.
Proof. reflexivity. Qed.

(* ===================================================================== *)
(** * The text of the scripts *)
(* ===================================================================== *)

Lemma append_assoc (a b c : string) : (a +:+ b) +:+ c = a +:+ b +:+ c.
Proof. induction a as [|x a IH]; cbn; [reflexivity|]. now rewrite IH. Qed.

Lemma lines_cons (x : string) (l : list string) :
  l <> [] -> lines (x :: l) = x +:+ nl +:+ lines l.
Proof. destruct l; [congruence|reflexivity]. Qed.

(** A line with a hole in it splits the text at the hole. *)
Lemma lines_hole (xs : list string) (a x b : string) (ys : list string) :
  lines (xs ++ (a +:+ x +:+ b) :: ys) =
  lines (xs ++ [a]) +:+ x +:+ lines (b :: ys).
Proof.
  induction xs as [|c xs IH].
  - cbn [app]. destruct ys as [|y ys]; [reflexivity|].
    rewrite !lines_cons by discriminate.
    change (lines [a]) with a. now rewrite !append_assoc.
  - cbn [app]. rewrite !lines_cons by (now destruct xs).
    rewrite IH. now rewrite !append_assoc.
Qed.

Lemma contains_append_r (a b p : string) :
  PyStr.contains b p = true -> PyStr.contains (a +:+ b) p = true.
Proof.
  intros H. induction a as [|x a IH]; [assumption|].
  cbn [String.append PyStr.contains]. rewrite IH. apply orb_true_r.
Qed.

(** The announcement script is one text: it opens the intro, and after
    the statement that closes the player it speaks the text.  Both
    arguments sit in single-quoted literals. *)
Lemma play_announcement_script_text (intro_path text : string) :
  exists head mid after,
    play_announcement_script intro_path text =
    head +:+ escape_quotes intro_path +:+ "'" +:+ mid
         +:+ escape_quotes text +:+ "'" +:+ after
    /\ PyStr.endswith head "$p.Open('" = true
    /\ PyStr.contains head "Speak(" = false
    /\ PyStr.startswith mid ");" = true
    /\ PyStr.contains mid "$attempts = 20;" = true
    /\ PyStr.contains mid "Start-Sleep -Milliseconds 100;" = true
    /\ PyStr.contains mid "Start-Sleep -Seconds 4;" = true
    /\ PyStr.contains mid "$p.Close();" = true
    /\ PyStr.endswith mid "$synth.Speak('" = true
    /\ PyStr.startswith after ");" = true.
Proof.
  exists
    (lines [EmptyString;
            "        Add-Type -AssemblyName PresentationCore, PresentationFramework;";
            "        Add-Type -AssemblyName System.Speech;";
            "        ";
            "        # 1. Play Intro";
            "        $p = New-Object System.Windows.Media.MediaPlayer;";
            "        $p.Open('"]),
    (lines [");";
            "        ";
            "        # Wait for load";
            "        $attempts = 20; ";
            "        while (-not $p.NaturalDuration.HasTimeSpan -and $attempts -gt 0) {";
            "            Start-Sleep -Milliseconds 100;";
            "            $attempts--;";
            "        }";
            "        ";
            "        $p.Play();";
            "        ";
            "        # Wait for end";
            "        if ($p.NaturalDuration.HasTimeSpan) {";
            "            while ($p.Position -lt $p.NaturalDuration.TimeSpan) {";
            "                Start-Sleep -Milliseconds 100;";
            "            }";
            "        } else {";
            "            Start-Sleep -Seconds 4; # Fallback";
            "        }";
            "        $p.Close();";
            "        ";
            "        # 2. Speak Text";
            "        $synth = New-Object System.Speech.Synthesis.SpeechSynthesizer;";
            "        $synth.Speak('"]),
    (lines [");"; "        "]).
  split; [|repeat split; vm_compute; reflexivity].
  unfold play_announcement_script. cbv zeta.
  etransitivity; [exact (lines_hole
             [EmptyString;
              "        Add-Type -AssemblyName PresentationCore, PresentationFramework;";
              "        Add-Type -AssemblyName System.Speech;";
              "        ";
              "        # 1. Play Intro";
              "        $p = New-Object System.Windows.Media.MediaPlayer;"]
             "        $p.Open('" (escape_quotes intro_path) "');" _)|].
  cbn [app]. do 2 f_equal.
  etransitivity; [exact (lines_hole
             ["');";
              "        ";
              "        # Wait for load";
              "        $attempts = 20; ";
              "        while (-not $p.NaturalDuration.HasTimeSpan -and $attempts -gt 0) {";
              "            Start-Sleep -Milliseconds 100;";
              "            $attempts--;";
              "        }";
              "        ";
              "        $p.Play();";
              "        ";
              "        # Wait for end";
              "        if ($p.NaturalDuration.HasTimeSpan) {";
              "            while ($p.Position -lt $p.NaturalDuration.TimeSpan) {";
              "                Start-Sleep -Milliseconds 100;";
              "            }";
              "        } else {";
              "            Start-Sleep -Seconds 4; # Fallback";
              "        }";
              "        $p.Close();";
              "        ";
              "        # 2. Speak Text";
              "        $synth = New-Object System.Speech.Synthesis.SpeechSynthesizer;"]
             "        $synth.Speak('" (escape_quotes text) "');" _)|].
  reflexivity.
Qed.

(** The two intro scripts: one hole, the path, and after it the poll with
    its constants. *)
Lemma play_intro_script_text (file_path : string) :
  exists head after,
    play_intro_script file_path =
    head +:+ escape_quotes file_path +:+ "'" +:+ after
    /\ PyStr.endswith head "$p.Open('" = true
    /\ PyStr.startswith after ");" = true
    /\ PyStr.contains after "$attempts = 20;" = true
    /\ PyStr.contains after "Start-Sleep -Milliseconds 100;" = true
    /\ PyStr.contains after "Start-Sleep -Seconds 4;" = true.
Proof.
  exists
    (lines [EmptyString;
            "        Add-Type -AssemblyName PresentationCore, PresentationFramework;";
            "        $p = New-Object System.Windows.Media.MediaPlayer;";
            "        $p.Open('"]),
    (PyStr.drop 1
       (lines ["');";
               "        ";
               "        # 1. Wait for Media Open / Duration Load (Async)";
               "        $attempts = 20; ";
               "        while (-not $p.NaturalDuration.HasTimeSpan -and $attempts -gt 0) {";
               "            Start-Sleep -Milliseconds 100;";
               "            $attempts--;";
               "        }";
               "        ";
               "        $p.Play();";
               EmptyString;
               "        # 2. Synchronous Wait";
               "        if ($p.NaturalDuration.HasTimeSpan) {";
               "            while ($p.Position -lt $p.NaturalDuration.TimeSpan) {";
               "                Start-Sleep -Milliseconds 100;";
               "            }";
               "        } else {";
               "            # Fallback if duration never loaded (common with some encodings)";
               ("            write-host " +:+ dq +:+ "Duration unknown, using fallback wait." +:+ dq);
               "            Start-Sleep -Seconds 4;";
               "        }";
               "        $p.Close();";
               "        "])).
  split; [|repeat split; vm_compute; reflexivity].
  unfold play_intro_script. cbv zeta.
  etransitivity; [exact (lines_hole
             [EmptyString;
              "        Add-Type -AssemblyName PresentationCore, PresentationFramework;";
              "        $p = New-Object System.Windows.Media.MediaPlayer;"]
             "        $p.Open('" (escape_quotes file_path) "');" _)|].
  reflexivity.
Qed.

Lemma play_intro_async_script_text (file_path : string) :
  exists head after,
    play_intro_async_script file_path =
    head +:+ escape_quotes file_path +:+ "'" +:+ after
    /\ PyStr.endswith head "$p.Open('" = true
    /\ PyStr.startswith after ");" = true
    /\ PyStr.contains after "$attempts = 20;" = true
    /\ PyStr.contains after "Start-Sleep -Milliseconds 100;" = true
    /\ PyStr.contains after "Start-Sleep -Seconds 4;" = true.
Proof.
  exists
    (lines [EmptyString;
            "         Add-Type -AssemblyName PresentationCore, PresentationFramework;";
            "         $p = New-Object System.Windows.Media.MediaPlayer;";
            "         $p.Open('"]),
    (PyStr.drop 1
       (lines ["');";
               "         ";
               "         $attempts = 20; ";
               "         while (-not $p.NaturalDuration.HasTimeSpan -and $attempts -gt 0) { Start-Sleep -Milliseconds 100; $attempts--; }";
               "         ";
               "         $p.Play();";
               "         ";
               "         if ($p.NaturalDuration.HasTimeSpan) {";
               "            while ($p.Position -lt $p.NaturalDuration.TimeSpan) { Start-Sleep -Milliseconds 100; }";
               "         } else { Start-Sleep -Seconds 4; }";
               "         $p.Close();";
               "         "])).
  split; [|repeat split; vm_compute; reflexivity].
  unfold play_intro_async_script. cbv zeta.
  etransitivity; [exact (lines_hole
             [EmptyString;
              "         Add-Type -AssemblyName PresentationCore, PresentationFramework;";
              "         $p = New-Object System.Windows.Media.MediaPlayer;"]
             "         $p.Open('" (escape_quotes file_path) "');" _)|].
  reflexivity.
Qed.

(* ===================================================================== *)
(** * The history only grows *)
(* ===================================================================== *)

Lemma stop_trace (W : World) (s : State) :
  exists evs, trace (snd (stop W s)) = trace s ++ evs.
Proof.
  rewrite stop_eq. cbn. destruct (current_process s) as [p|]; cbn.
  - eexists. reflexivity.
  - exists []. now rewrite app_nil_r.
Qed.

Lemma call_trace (W : World) (r : request) (s : State) :
  exists evs, trace (call W r s) = trace s ++ evs.
Proof.
  destruct (stop_trace W s) as [evs0 Hstop].
  destruct r as [text|path|path|intro text|path|]; cbn [call].
  - rewrite play_text_eq. cbn [snd trace fork logs]. rewrite Hstop, <- app_assoc. eexists. reflexivity.
  - destruct (path_exists W path) eqn:Hex.
    + destruct (popen_error W (play_intro_command path) (next_proc s))
        as [e|] eqn:Hp.
      * rewrite (play_intro_unstartable _ _ _ e) by assumption. cbn [snd trace fork logs].
        rewrite Hstop, <- app_assoc. eexists. reflexivity.
      * rewrite play_intro_present by assumption. cbn [snd trace fork logs].
        rewrite Hstop, <- !app_assoc. eexists. reflexivity.
    + rewrite play_intro_absent by assumption. cbn [snd trace fork logs].
      rewrite Hstop, <- app_assoc. eexists. reflexivity.
  - rewrite play_file_eq. cbn [snd trace fork logs]. rewrite Hstop, <- app_assoc. eexists. reflexivity.
  - rewrite play_announcement_eq. cbn [snd trace fork logs]. rewrite Hstop, <- app_assoc.
    eexists. reflexivity.
  - rewrite play_intro_async_eq. cbn [snd trace fork logs]. rewrite Hstop, <- app_assoc.
    eexists. reflexivity.
  - exact (stop_trace W s).
Qed.

Lemma exec_trace (W : World) (a : move) (s : State) :
  exists evs, trace (exec W a s) = trace s ++ evs.
Proof.
  destruct a as [r|i]; [apply call_trace|].
  destruct (threads s !! i) as [[cmd|p|p r|p cmd|r]|] eqn:Ht.
  - destruct (popen_error W cmd (next_proc s)) as [e|] eqn:Hp.
    + rewrite (exec_sched_spawn_fails W i cmd s e) by assumption.
      eexists. reflexivity.
    + rewrite (exec_sched_spawn_ok _ _ cmd) by assumption.
      eexists. reflexivity.
  - rewrite (exec_sched_wait _ _ p) by assumption. eexists. reflexivity.
  - rewrite (exec_sched_cleanup _ _ p r) by assumption.
    exists []. rewrite app_nil_r.
    destruct (current_process s) as [q|]; [destruct (Nat.eqb q p)|];
      reflexivity.
  - rewrite (exec_sched_run _ _ p cmd) by assumption. eexists. reflexivity.
  - rewrite (exec_sched_done _ _ r) by assumption.
    exists []. now rewrite app_nil_r.
  - rewrite exec_sched_none by assumption. exists []. now rewrite app_nil_r.
Qed.

Lemma run_trace (W : World) (sched : list move) (s : State) :
  exists evs, trace (run W sched s) = trace s ++ evs.
Proof.
  revert s. induction sched as [|a sched IH]; intros s.
  - exists []. cbn. now rewrite app_nil_r.
  - cbn. destruct (IH (exec W a s)) as [evs2 H2].
    destruct (exec_trace W a s) as [evs1 H1].
    exists (evs1 ++ evs2). unfold run in H2. rewrite H2, H1.
    now rewrite app_assoc.
Qed.

Lemma run_keeps (W : World) (sched : list move) (s : State) (e : event) :
  In e (trace s) -> In e (trace (run W sched s)).
Proof.
  intros H. destruct (run_trace W sched s) as [evs ->].
  apply in_or_app. now left.
Qed.

(** A process made by [subprocess.run] is never in the slot and is never
    asked to terminate. *)
Lemma ran_untouched (s : State) (p : proc) :
  consistent s -> ran s p ->
  current_process s <> Some p /\ ~ In (EvTerminate p) (trace s).
Proof.
  intros H Hr. split.
  - intros Hc. exact (run_apart s H p Hr (slot_popened s H p Hc)).
  - intros Ht. exact (run_apart s H p Hr (terminate_popened s H p Ht)).
Qed.

(* ===================================================================== *)
(** * The claims *)
(* ===================================================================== *)

(** The call [p.terminate()] does raise in a world that says so: what
    [stop] swallows is a real exception. *)
Lemma terminate_raises (W : World) (p : proc) (e : exn) (s : State) :
  terminate_error W p = Some e ->
  terminate W p s = (Raised e, logs [EvTerminate p] s).
Proof. intros H. unfold terminate, bind, emit. cbn. now rewrite H. Qed.

(** C3: [stop()] never raises and always leaves the slot empty.  With a
    process [p] in the slot it prints, calls [p.terminate()] once, whatever
    that call does, and clears the slot; the history gets the message and
    the request and nothing else, in particular no wait.  With the slot
    empty it changes nothing and requests nothing. *)
Theorem C3_stop_never_raises_and_clears (W : World) (s : State) :
  fst (stop W s) = Returned tt
  /\ current_process (snd (stop W s)) = None
  /\ next_proc (snd (stop W s)) = next_proc s
  /\ threads (snd (stop W s)) = threads s
  /\ match current_process s with
     | Some p =>
         trace (snd (stop W s)) =
         trace s ++ [EvPrint "[AudioService] Stopping Audio...";
                     EvTerminate p]
     | None => snd (stop W s) = s
     end.
Proof.
  rewrite stop_eq. cbn [fst snd].
  destruct (current_process s) as [p|] eqn:Hcur; cbn; auto.
Qed.

(** C2: the [finally:] block of a worker that holds [p] clears the slot
    only when the slot holds [p].  A slot that holds another process [q] is
    left as it is, an empty slot stays empty, and nothing else changes.  In
    every reachable state the handle of another thread differs from [p]:
    the cleanup of one worker never clears the slot that another worker
    filled. *)
Theorem C2_stale_handle_guard (W : World) (s : State) (i : nat) (p : proc)
        (r : outcome unit) :
  threads s !! i = Some (TCleanup p r) ->
  (forall q, current_process s = Some q -> q <> p ->
             current_process (exec W (Sched i) s) = Some q)
  /\ (current_process s = Some p \/ current_process s = None ->
      current_process (exec W (Sched i) s) = None)
  /\ trace (exec W (Sched i) s) = trace s
  /\ next_proc (exec W (Sched i) s) = next_proc s
  /\ (reachable W s ->
      forall j tj q,
        j <> i -> threads s !! j = Some tj -> handle tj = Some q ->
        current_process s = Some q ->
        current_process (exec W (Sched i) s) = Some q).
Proof.
  intros Hi. rewrite (exec_sched_cleanup W i p r s Hi).
  assert (Hother : forall q, current_process s = Some q -> q <> p ->
            current_process
              (set_threads (<[i:=TDone r]> (threads s))
                 match current_process s with
                 | Some q0 => if Nat.eqb q0 p then set_slot None s else s
                 | None => s
                 end) = Some q).
  { intros q Hq Hne. rewrite Hq.
    destruct (Nat.eqb q p) eqn:E; [apply Nat.eqb_eq in E; contradiction|].
    exact Hq. }
  split; [exact Hother|]. split.
  { intros [Hc|Hc]; rewrite Hc; [rewrite Nat.eqb_refl|]; cbn; auto. }
  split.
  { destruct (current_process s) as [q|]; [destruct (Nat.eqb q p)|];
      reflexivity. }
  split.
  { destruct (current_process s) as [q|]; [destruct (Nat.eqb q p)|];
      reflexivity. }
  intros Hreach j tj q Hji Hj Hh Hq. apply Hother; [assumption|].
  intros ->. apply Hji.
  exact (held_once s (reachable_consistent W s Hreach) j i tj
           (TCleanup p r) p Hj Hi Hh eq_refl).
Qed.

(** Witness for C2: A is started and spawned, B is started and spawned,
    then A's wait ends; A's cleanup leaves B's handle in the slot. *)
Lemma C2_stale_handle_guard_witness :
  let s := run calm [Call (PlayText "A"); Sched 0;
                     Call (PlayText "B"); Sched 1; Sched 0] init in
  threads s !! 0 = Some (TCleanup 0 (Returned tt))
  /\ current_process s = Some 1
  /\ current_process (exec calm (Sched 0) s) = Some 1.
Proof.
  intros s.
  assert (H0 : threads s !! 0 = Some (TCleanup 0 (Returned tt)))
    by reflexivity.
  assert (H1 : current_process s = Some 1) by reflexivity.
  split; [exact H0|]. split; [exact H1|].
  exact (proj1 (C2_stale_handle_guard calm s 0 0 (Returned tt) H0) 1 H1
               (Nat.neq_succ_0 0)).
Defined.

(** C9: when the spawn raises inside the worker, the worker prints the
    error and its [target] returns.  Nothing is raised, no process is
    recorded, no wait happens now or at any later step of that worker, and
    the slot keeps its value: an empty slot stays empty. *)
Theorem C9_spawn_failure_is_logged (W : World) (s : State) (i : nat)
        (cmd : command) (e : exn) :
  threads s !! i = Some (TSpawn cmd) ->
  popen_error W cmd (next_proc s) = Some e ->
  target_spawn W cmd s =
    (Returned None,
     logs [EvPrint ("[AudioService] Exception starting process: "
                      +:+ exn_str e)] s)
  /\ threads (exec W (Sched i) s) !! i = Some (TDone (Returned tt))
  /\ trace (exec W (Sched i) s) =
     trace s ++ [EvPrint ("[AudioService] Exception starting process: "
                            +:+ exn_str e)]
  /\ current_process (exec W (Sched i) s) = current_process s
  /\ next_proc (exec W (Sched i) s) = next_proc s
  /\ (current_process s = None -> current_process (exec W (Sched i) s) = None)
  /\ exec W (Sched i) (exec W (Sched i) s) = exec W (Sched i) s.
Proof.
  intros Hi Hp.
  split; [exact (target_spawn_fails W cmd s e Hp)|].
  assert (Hdone : threads (exec W (Sched i) s) !! i = Some (TDone (Returned tt))).
  { rewrite (exec_sched_spawn_fails W i cmd s e Hi Hp). cbn.
    apply list_lookup_insert_eq. eapply lookup_lt_Some. exact Hi. }
  split; [exact Hdone|].
  rewrite (exec_sched_done W i (Returned tt) _ Hdone).
  rewrite (exec_sched_spawn_fails W i cmd s e Hi Hp). cbn.
  repeat split; auto.
Qed.

(** Witness for C9: one request in a world where no program starts. *)
Lemma C9_spawn_failure_is_logged_witness :
  let s := run barren [Call (PlayText "hi")] init in
  threads s !! 0 = Some (TSpawn (play_text_command "hi"))
  /\ current_process (exec barren (Sched 0) s) = None
  /\ threads (exec barren (Sched 0) s) !! 0 = Some (TDone (Returned tt)).
Proof.
  intros s.
  assert (H0 : threads s !! 0 = Some (TSpawn (play_text_command "hi")))
    by reflexivity.
  assert (H1 : popen_error barren (play_text_command "hi") (next_proc s)
               = Some (mkExn "FileNotFoundError" "[WinError 2]"))
    by reflexivity.
  pose proof (C9_spawn_failure_is_logged barren s 0 _ _ H0 H1)
    as (_ & Hdone & _ & _ & _ & Hidle & _).
  split; [exact H0|]. split; [exact (Hidle eq_refl)|exact Hdone].
Defined.

(** C5: the escaping of [play_text] doubles the ASCII apostrophe only.
    PowerShell closes a single-quoted literal on U+2018, U+2019, U+201A
    and U+201B as well, and these pass through [escape_quotes] as they are.
    For the text [it’s fine], written with U+2019, the script carries the
    text unchanged, the literal ends after [it], and what follows, the
    rest of the text included, is read as script: the round trip fails.
    The command goes to the worker as built. *)
Theorem C5_typographic_quote_closes_literal :
  let text := "it’s fine" in
  String.length text = 11
  /\ count_quotes text = 0
  /\ escape_quotes text = text
  /\ play_text_command text =
     ["powershell"; "-Command";
      "Add-Type –AssemblyName System.Speech; (New-Object System.Speech.Synthesis.SpeechSynthesizer).Speak('it’s fine')"]
  /\ play_text_script text =
     "Add-Type –AssemblyName System.Speech; (New-Object System.Speech.Synthesis.SpeechSynthesizer).Speak('"
       +:+ escape_quotes text +:+ "')"
  /\ pwsh_read_quoted (escape_quotes text +:+ "')") = Some ("it", "s fine')")
  /\ pwsh_read_quoted (escape_quotes text +:+ "')") <> Some (text, ")")
  /\ threads (snd (play_text calm text init)) =
     [TSpawn (play_text_command text)].
Proof.
  cbv zeta.
  split; [reflexivity|]. split; [reflexivity|]. split; [reflexivity|].
  split; [reflexivity|]. split; [reflexivity|].
  split; [vm_compute; reflexivity|].
  split; [vm_compute; discriminate|].
  reflexivity.
Qed.

(** The example of the specification, with the ASCII apostrophe, is read
    back under both rules. *)
Example speak_its_fine :
  escape_quotes "it's fine" = "it''s fine"
  /\ ps_read_quoted (escape_quotes "it's fine" +:+ "')")
     = Some ("it's fine", ")")
  /\ pwsh_read_quoted (escape_quotes "it's fine" +:+ "')")
     = Some ("it's fine", ")").
Proof. split; [|split]; reflexivity. Qed.

(** A text that closes the literal with U+2019 and carries a statement of
    its own: the literal holds [x] and the statement is script. *)
Example typographic_quote_injects_script :
  pwsh_read_quoted
    (escape_quotes "x’); Remove-Item y; (’" +:+ "')")
  = Some ("x", "); Remove-Item y; (’')").
Proof. vm_compute. reflexivity. Qed.

(** The fallback script is not the media script, whatever the path. *)
Lemma fallback_is_not_media (file_path : string) :
  fallback_script <> play_intro_script file_path.
Proof.
  unfold play_intro_script. cbv zeta.
  rewrite lines_cons by discriminate. discriminate.
Qed.

(** C6: for a path the file system reports absent, [play_intro] returns
    normally after handing the fallback command to a worker, and does
    nothing else than [stop] and two prints: no process is started by the
    caller and the media command is not used.  The fallback script is the
    tone pattern: 800 Hz for 400 ms, 100 ms of sleep, 600 Hz for 600 ms. *)
Theorem C6_missing_intro_plays_fallback_tone (W : World) (file_path : string)
        (s : State) :
  path_exists W file_path = false ->
  fst (play_intro W file_path s) = Returned Finished
  /\ threads (snd (play_intro W file_path s)) =
     threads s ++ [TSpawn fallback_command]
  /\ trace (snd (play_intro W file_path s)) =
     trace (snd (stop W s))
       ++ [EvPrint ("[AudioService] Playing Intro: " +:+ file_path);
           EvPrint ("[AudioService] Intro file not found at " +:+ file_path
                      +:+ ". Playing Fallback Tone.")]
  /\ next_proc (snd (play_intro W file_path s)) = next_proc s
  /\ fallback_command <> play_intro_command file_path
  /\ fallback_command = ["powershell"; "-c"; fallback_script]
  /\ Script.statements
       [Script.Beep 800 400; Script.Sleep 100; Script.Beep 600 600]
     = Some fallback_script
  /\ Script.fallback_tone =
     [Script.Beep 800 400; Script.Sleep 100; Script.Beep 600 600].
Proof.
  intros Habsent. rewrite (play_intro_absent W file_path s Habsent).
  cbn [fst snd fork logs threads trace next_proc].
  rewrite stop_threads, stop_next_proc.
  repeat split; try reflexivity.
  intros Heq. apply (fallback_is_not_media file_path).
  unfold fallback_command, play_intro_command in Heq. congruence.
Qed.

(** Witness for C6: the path of the specification, no file anywhere. *)
Lemma C6_missing_intro_plays_fallback_tone_witness :
  path_exists barren "/missing/file.mp3" = false
  /\ threads (snd (play_intro barren "/missing/file.mp3" init)) =
     [TSpawn fallback_command].
Proof.
  assert (H : path_exists barren "/missing/file.mp3" = false) by reflexivity.
  split; [exact H|].
  exact (proj1 (proj2 (C6_missing_intro_plays_fallback_tone
                         barren "/missing/file.mp3" init H))).
Defined.

(** The two command lines of [play_file] are never the same. *)
Lemma play_file_scripts_differ (file_path : string) :
  play_file_wav_script file_path <> play_file_media_script file_path.
Proof.
  unfold play_file_wav_script, play_file_media_script. cbv zeta.
  rewrite lines_cons by discriminate. discriminate.
Qed.

(** The position loop of [play_file] runs as long as the player says the
    position is short of the duration. *)
Lemma play_file_media_runs (pl : Script.player) (path : string) (fuel : nat) :
  exists k,
    k <= fuel
    /\ Script.performed (fst (Script.file_media pl path fuel)) =
       [Script.AddType "PresentationCore, PresentationFramework";
        Script.NewObject "System.Windows.Media.MediaPlayer";
        Script.MediaOpen path; Script.MediaPlay]
         ++ repeat (Script.Sleep 500) k
         ++ (if snd (Script.file_media pl path fuel)
             then [Script.MediaClose] else [])
    /\ (forall j, j < k -> Script.position_lt_duration pl j = true)
    /\ (snd (Script.file_media pl path fuel) = true ->
        Script.position_lt_duration pl k = false)
    /\ (snd (Script.file_media pl path fuel) = false ->
        k = fuel /\ Script.position_lt_duration pl k = true).
Proof.
  unfold Script.file_media.
  cbn [Script.perform Script.start Script.reads Script.performed app].
  destruct (wait_position_spec pl 500 fuel
              (Script.mkSt 0
                 [Script.AddType "PresentationCore, PresentationFramework";
                  Script.NewObject "System.Windows.Media.MediaPlayer";
                  Script.MediaOpen path; Script.MediaPlay]))
    as (k & Hk & Hacts & Hplaying & Hend & Hout).
  cbn [Script.reads Script.performed Nat.add] in Hacts, Hplaying, Hend, Hout.
  destruct (Script.wait_position pl 500 fuel _) as [s1 fin].
  cbn [fst snd] in Hacts, Hend, Hout.
  exists k. split; [assumption|].
  destruct fin; cbn [fst snd Script.perform Script.performed].
  - rewrite Hacts. rewrite <- app_assoc. repeat split; auto; discriminate.
  - rewrite Hacts, app_nil_r. repeat split; auto; try discriminate.
    + now destruct (Hout eq_refl).
    + now destruct (Hout eq_refl).
Qed.

(** The claim as stated, with the suffix test on the path itself, fails:
    an upper-case extension selects the SoundPlayer command too. *)
Lemma C8_uppercase_extension_counterexample :
  ~ (forall file_path,
        play_file_command file_path =
          ["powershell"; "-c"; play_file_wav_script file_path]
        <-> PyStr.endswith file_path ".wav" = true).
Proof.
  intros H. destruct (H "A.WAV") as [Hwav _].
  specialize (Hwav eq_refl). vm_compute in Hwav. discriminate Hwav.
Qed.

(** C8, amended: [play_file] builds the SoundPlayer command exactly when
    the lower-cased path ends with [.wav], and the MediaPlayer command
    otherwise; the command goes to [_run_command].  The MediaPlayer script
    opens, plays and then sleeps 500 ms for every read that finds the
    position below the duration; the number of rounds has no bound. *)
Theorem C8_play_file_by_lowercased_extension (W : World) (file_path : string)
        (s : State) :
  (play_file_command file_path =
     ["powershell"; "-c"; play_file_wav_script file_path]
   <-> PyStr.endswith (PyStr.lower file_path) ".wav" = true)
  /\ (play_file_command file_path =
        ["powershell"; "-c"; play_file_media_script file_path]
      <-> PyStr.endswith (PyStr.lower file_path) ".wav" = false)
  /\ play_file W file_path s =
     (Returned tt,
      fork (TSpawn (play_file_command file_path))
           (logs [EvPrint ("[AudioService] Playing: " +:+ file_path)]
                 (snd (stop W s))))
  /\ Script.file_wav file_path = [Script.SoundPlaySync file_path]
  /\ (forall pl fuel, exists k,
        k <= fuel
        /\ Script.performed (fst (Script.file_media pl file_path fuel)) =
           [Script.AddType "PresentationCore, PresentationFramework";
            Script.NewObject "System.Windows.Media.MediaPlayer";
            Script.MediaOpen file_path; Script.MediaPlay]
             ++ repeat (Script.Sleep 500) k
             ++ (if snd (Script.file_media pl file_path fuel)
                 then [Script.MediaClose] else [])
        /\ (forall j, j < k -> Script.position_lt_duration pl j = true)
        /\ (snd (Script.file_media pl file_path fuel) = true ->
            Script.position_lt_duration pl k = false))
  /\ (forall n, exists pl, forall fuel,
        n <= fuel ->
        Script.performed (fst (Script.file_media pl file_path fuel)) =
        [Script.AddType "PresentationCore, PresentationFramework";
         Script.NewObject "System.Windows.Media.MediaPlayer";
         Script.MediaOpen file_path; Script.MediaPlay]
          ++ repeat (Script.Sleep 500) n ++ [Script.MediaClose]).
Proof.
  pose proof (play_file_scripts_differ file_path) as Hdiff.
  split; [|split; [|split; [|split; [|split]]]].
  - unfold play_file_command.
    destruct (PyStr.endswith (PyStr.lower file_path) ".wav");
      split; intros H; try reflexivity; try discriminate;
      exfalso; apply Hdiff; congruence.
  - unfold play_file_command.
    destruct (PyStr.endswith (PyStr.lower file_path) ".wav");
      split; intros H; try reflexivity; try discriminate;
      exfalso; apply Hdiff; congruence.
  - apply play_file_eq.
  - reflexivity.
  - intros pl fuel.
    destruct (play_file_media_runs pl file_path fuel)
      as (k & Hk & Hacts & Hplaying & Hend & _).
    exists k. auto.
  - intros n.
    exists (Script.mkPlayer (fun _ => true) (fun j => Nat.ltb j n)).
    intros fuel Hfuel.
    destruct (play_file_media_runs
                (Script.mkPlayer (fun _ => true) (fun j => Nat.ltb j n))
                file_path fuel)
      as (k & Hk & Hacts & Hplaying & Hend & Hout).
    cbn [Script.position_lt_duration] in Hplaying, Hend, Hout.
    assert (Hkn : k <= n).
    { destruct (Nat.le_gt_cases k n) as [Hle|Hgt]; [assumption|].
      specialize (Hplaying n Hgt). apply Nat.ltb_lt in Hplaying. lia. }
    rewrite Hacts.
    destruct (snd (Script.file_media _ file_path fuel)).
    + specialize (Hend eq_refl). apply Nat.ltb_ge in Hend.
      now replace k with n by lia.
    + destruct (Hout eq_refl) as [-> Hlt]. apply Nat.ltb_lt in Hlt. lia.
Qed.

(** Witness for C8: an upper-case extension, a lower-case one, another. *)
Lemma C8_play_file_by_lowercased_extension_witness :
  play_file_command "A.WAV" = ["powershell"; "-c"; play_file_wav_script "A.WAV"]
  /\ play_file_command "a.wav" =
     ["powershell"; "-c"; play_file_wav_script "a.wav"]
  /\ play_file_command "a.mp3" =
     ["powershell"; "-c"; play_file_media_script "a.mp3"].
Proof.
  split; [|split].
  - exact (proj2 (proj1 (C8_play_file_by_lowercased_extension
                           calm "A.WAV" init)) eq_refl).
  - exact (proj2 (proj1 (C8_play_file_by_lowercased_extension
                           calm "a.wav" init)) eq_refl).
  - exact (proj2 (proj1 (proj2 (C8_play_file_by_lowercased_extension
                                  calm "a.mp3" init))) eq_refl).
Defined.

Lemma startswith_append_l (a b p : string) :
  PyStr.startswith a p = true -> PyStr.startswith (a +:+ b) p = true.
Proof.
  revert a. induction p as [|c p IH]; intros a H.
  - now destruct (a +:+ b).
  - destruct a as [|x a]; [discriminate H|].
    cbn [String.append PyStr.startswith] in *.
    apply andb_true_iff in H as [H1 H2]. rewrite H1. cbn. now apply IH.
Qed.

Lemma contains_append_l (a b p : string) :
  PyStr.contains a p = true -> PyStr.contains (a +:+ b) p = true.
Proof.
  induction a as [|c a IH]; intros H.
  - cbn [PyStr.contains] in H. rewrite orb_false_r in H.
    destruct p; [|discriminate H]. cbn [String.append].
    now destruct b.
  - cbn [String.append PyStr.contains] in *.
    apply orb_true_iff in H as [H|H]; apply orb_true_iff.
    + left. exact (startswith_append_l (String c a) b p H).
    + right. now apply IH.
Qed.

(** A player that never reports a duration: 20 polls, then the fixed wait. *)
Example never_known_duration :
  Script.performed
    (fst (Script.intro_async
            (Script.mkPlayer (fun _ => false) (fun _ => true)) "chime.mp3" 0))
  = [Script.AddType "PresentationCore, PresentationFramework";
     Script.NewObject "System.Windows.Media.MediaPlayer";
     Script.MediaOpen "chime.mp3"]
      ++ repeat (Script.Sleep 100) 20
      ++ [Script.MediaPlay; Script.Sleep 4000; Script.MediaClose].
Proof. reflexivity. Qed.

(** The actions of a polled media script: a body made of the set-up, the
    message, sleeps and [Play], followed by [closing] when the script got
    to the end of its wait. *)
Lemma polled_media_body (setup prelude closing : list Script.action)
      (pl : Script.player) (fuel : nat) :
  Forall (fun a => Script.sleep_ms a = 0) setup ->
  exists body,
    Script.performed (fst (polled_media setup prelude closing pl fuel)) =
    body ++ (if snd (polled_media setup prelude closing pl fuel)
             then closing else [])
    /\ Forall (fun a => In a setup \/ In a prelude \/ Script.is_sleep a = true
                        \/ a = Script.MediaPlay) body.
Proof.
  intros Hsetup.
  destruct (polled_media_spec setup prelude closing Hsetup pl fuel)
    as (k & tail & _ & Hacts & _ & _ & _ & _ & Hunknown & Hknown).
  assert (Hsleeps : forall ms n,
            Forall (fun a => In a setup \/ In a prelude
                             \/ Script.is_sleep a = true
                             \/ a = Script.MediaPlay)
                   (repeat (Script.Sleep ms) n)).
  { intros ms n. apply Forall_forall. intros a Ha.
    apply list_elem_of_In, repeat_spec in Ha. subst a. auto. }
  assert (Hset : Forall (fun a => In a setup \/ In a prelude
                                  \/ Script.is_sleep a = true
                                  \/ a = Script.MediaPlay) setup).
  { apply Forall_forall. intros a Ha. left. now apply list_elem_of_In. }
  assert (Hpre : Forall (fun a => In a setup \/ In a prelude
                                  \/ Script.is_sleep a = true
                                  \/ a = Script.MediaPlay) prelude).
  { apply Forall_forall. intros a Ha. right. left. now apply list_elem_of_In. }
  destruct (Script.has_time_span pl (S k)) eqn:Hk.
  - destruct (Hknown eq_refl) as (n & _ & -> & _).
    exists (setup ++ repeat (Script.Sleep 100) k
              ++ Script.MediaPlay :: repeat (Script.Sleep 100) n).
    split.
    + rewrite Hacts. now rewrite <- !app_assoc.
    + apply Forall_app. split; [assumption|].
      apply Forall_app. split; [apply Hsleeps|].
      apply Forall_cons. split; [auto|apply Hsleeps].
  - destruct (Hunknown eq_refl) as [-> Hfin].
    exists (setup ++ repeat (Script.Sleep 100) k
              ++ Script.MediaPlay :: prelude ++ [Script.Sleep 4000]).
    split.
    + rewrite Hacts, Hfin.
      rewrite <- !app_assoc. cbn [app]. rewrite <- !app_assoc. reflexivity.
    + apply Forall_app. split; [assumption|].
      apply Forall_app. split; [apply Hsleeps|].
      apply Forall_cons. split; [auto|].
      apply Forall_app. split; [assumption|].
      apply Forall_cons. split; [auto|constructor].
Qed.

(** The actions of the announcement script: nothing is spoken and the
    player is not closed before the closing statements, and these are
    performed only after the wait for the intro has ended. *)
Lemma announcement_body (pl : Script.player) (intro text : string)
      (fuel : nat) :
  exists body,
    Script.performed (fst (Script.announcement pl intro text fuel)) =
    body ++ (if snd (Script.announcement pl intro text fuel)
             then [Script.MediaClose;
                   Script.NewObject "System.Speech.Synthesis.SpeechSynthesizer";
                   Script.Speak text]
             else [])
    /\ Forall (fun a => Script.is_speak a = false
                        /\ Script.is_close a = false) body.
Proof.
  rewrite play_announcement_polled.
  destruct (polled_media_body
              [Script.AddType "PresentationCore, PresentationFramework";
               Script.AddType "System.Speech";
               Script.NewObject "System.Windows.Media.MediaPlayer";
               Script.MediaOpen intro] []
              [Script.MediaClose;
               Script.NewObject "System.Speech.Synthesis.SpeechSynthesizer";
               Script.Speak text] pl fuel)
    as (body & Hacts & Hbody); [repeat constructor|].
  exists body. split; [exact Hacts|].
  eapply Forall_impl; [exact Hbody|].
  intros a [Ha | [[] | [Ha | ->]]]; [|now destruct a|now split].
  cbn in Ha. destruct Ha as [<-|[<-|[<-|[<-|[]]]]]; now split.
Qed.

Lemma in_firstn {A} (a : A) (k : nat) (l : list A) :
  In a (firstn k l) -> In a l.
Proof.
  intros H. rewrite <- (firstn_skipn k l). apply in_or_app. now left.
Qed.

(** A process killed before it has closed the player has not spoken. *)
Lemma killed_before_close_is_silent (body closing : list Script.action)
      (k : nat) :
  Forall (fun a => Script.is_speak a = false /\ Script.is_close a = false)
         body ->
  (closing = [] \/ exists x t, closing = [Script.MediaClose; x; Script.Speak t]
                               /\ Script.is_speak x = false) ->
  ~ In Script.MediaClose (Script.killed_after k (body ++ closing)) ->
  forall t, ~ In (Script.Speak t) (Script.killed_after k (body ++ closing)).
Proof.
  intros Hbody Hclosing Hnoclose t Hspeak.
  unfold Script.killed_after in *. rewrite firstn_app in *.
  apply in_app_or in Hspeak as [Hs|Hs].
  - apply in_firstn in Hs. rewrite Forall_forall in Hbody.
    apply list_elem_of_In in Hs. now destruct (Hbody _ Hs) as [Hd _].
  - destruct Hclosing as [->|(x & t' & -> & Hx)].
    + now rewrite firstn_nil in Hs.
    + apply Hnoclose. apply in_or_app. right.
      destruct (k - length body) as [|n]; [contradiction|]. now left.
Qed.

Lemma starts_paren_not_quote (s : string) :
  PyStr.startswith s ");" = true -> PyStr.startswith s "'" = false.
Proof.
  intros H. destruct s as [|c s]; [discriminate H|].
  cbn [PyStr.startswith] in *.
  apply andb_true_iff in H as [H _]. apply Ascii.eqb_eq in H. now subst c.
Qed.

(** C10: for an existing file, [play_intro] clears the slot by its
    [stop()] and does not touch it again, neither when it spawns nor when
    the wait in [subprocess.run] is over; it starts no worker.  The
    process it spawned is not in the slot, an immediate [stop()] does
    nothing, and in no later state, whatever the callers and the workers
    do, is that process in the slot or asked to terminate. *)
Theorem C10_synchronous_intro_is_untracked (W : World) (file_path : string)
        (s : State) :
  path_exists W file_path = true ->
  current_process (snd (play_intro W file_path s)) = None
  /\ current_process (snd (play_intro W file_path s)) =
     current_process (snd (stop W s))
  /\ (forall cmd, ~ In (TSpawn cmd) (threads s) ->
                  ~ In (TSpawn cmd) (threads (snd (play_intro W file_path s))))
  /\ (forall p cmd s',
        fst (play_intro_resume W p cmd s') = Returned tt
        /\ current_process (snd (play_intro_resume W p cmd s')) =
           current_process s')
  /\ (popen_error W (play_intro_command file_path) (next_proc s) = None ->
      reachable W s ->
      fst (play_intro W file_path s) = Returned (Blocked (next_proc s))
      /\ In (EvRun (next_proc s) (play_intro_command file_path))
            (trace (snd (play_intro W file_path s)))
      /\ stop W (snd (play_intro W file_path s)) =
         (Returned tt, snd (play_intro W file_path s))
      /\ forall sched,
          current_process (run W sched (snd (play_intro W file_path s)))
            <> Some (next_proc s)
          /\ ~ In (EvTerminate (next_proc s))
                  (trace (run W sched (snd (play_intro W file_path s))))).
Proof.
  intros Hexists.
  assert (Hslot : current_process (snd (play_intro W file_path s)) = None).
  { destruct (popen_error W (play_intro_command file_path) (next_proc s))
      as [e|] eqn:Hp.
    - rewrite (play_intro_unstartable W file_path s e Hexists Hp).
      cbn [snd logs current_process]. apply stop_current.
    - rewrite (play_intro_present W file_path s Hexists Hp).
      cbn [snd logs current_process]. apply stop_current. }
  split; [exact Hslot|].
  split; [now rewrite Hslot, stop_current|].
  split.
  { intros cmd Hnot.
    destruct (popen_error W (play_intro_command file_path) (next_proc s))
      as [e|] eqn:Hp.
    - rewrite (play_intro_unstartable W file_path s e Hexists Hp).
      cbn [snd logs threads]. now rewrite stop_threads.
    - rewrite (play_intro_present W file_path s Hexists Hp).
      cbn [snd logs threads]. rewrite stop_threads.
      intros Hin. apply in_app_or in Hin as [Hin|[Hin|[]]];
        [contradiction|discriminate]. }
  split.
  { intros p cmd s'. rewrite play_intro_resume_eq. split; reflexivity. }
  intros Hp Hreach.
  assert (Hcons : consistent (snd (play_intro W file_path s))).
  { exact (consistent_call W (PlayIntro file_path) s
             (reachable_consistent W s Hreach)). }
  assert (Hran : In (EvRun (next_proc s) (play_intro_command file_path))
                    (trace (snd (play_intro W file_path s)))).
  { rewrite (play_intro_present W file_path s Hexists Hp).
    cbn [snd logs trace next_proc]. rewrite stop_next_proc.
    apply in_or_app. right. now left. }
  split.
  { now rewrite (play_intro_present W file_path s Hexists Hp). }
  split; [exact Hran|].
  split.
  { rewrite stop_eq, Hslot. reflexivity. }
  intros sched. apply ran_untouched.
  - now apply consistent_run.
  - exists (play_intro_command file_path). now apply run_keeps.
Qed.

(** Witness for C10: the intro is started, and while it plays one caller
    stops and another speaks; the intro process, number 0, is left alone. *)
Lemma C10_synchronous_intro_is_untracked_witness :
  path_exists calm "chime.mp3" = true
  /\ fst (play_intro calm "chime.mp3" init) = Returned (Blocked 0)
  /\ ~ In (EvTerminate 0)
          (trace (run calm [Call Stop; Call (PlayText "x"); Sched 1; Call Stop]
                      (snd (play_intro calm "chime.mp3" init)))).
Proof.
  assert (H : path_exists calm "chime.mp3" = true) by reflexivity.
  pose proof (C10_synchronous_intro_is_untracked calm "chime.mp3" init H)
    as (_ & _ & _ & _ & Hrun).
  destruct (Hrun eq_refl (ex_intro _ [] eq_refl)) as (Hblocked & _ & _ & Hlater).
  split; [exact H|]. split; [exact Hblocked|].
  exact (proj2 (Hlater [Call Stop; Call (PlayText "x"); Sched 1; Call Stop])).
Defined.

(** To be compared with the tracked case: the same requests around a
    process made by a worker do terminate it. *)
Example tracked_process_is_terminated :
  In (EvTerminate 0)
     (trace (run calm [Call (PlayIntroAsync "chime.mp3"); Sched 0; Call Stop]
                 init)).
Proof. vm_compute. right. right. right. now left. Qed.

(** C1, the code at the failing schedule: two requests are made before
    the worker of the first has spawned.  Both calls of [stop()] find the
    slot empty.  The first worker then installs process 0; the second
    worker spawns process 1 while 0 is in the slot, and overwrites it.
    Process 0 is never asked to terminate. *)
Theorem C1_second_spawn_overlaps_first :
  let s := run calm [Call (PlayText "a"); Call (PlayText "b"); Sched 0] init in
  current_process s = Some 0
  /\ threads s !! 1 = Some (TSpawn (play_text_command "b"))
  /\ trace (exec calm (Sched 1) s) =
     trace s ++ [EvPopen 1 (play_text_command "b")]
  /\ current_process (exec calm (Sched 1) s) = Some 1
  /\ ~ In (EvTerminate 0) (trace (exec calm (Sched 1) s)).
Proof.
  intros s. repeat split; try reflexivity.
  vm_compute. intros H.
  repeat (destruct H as [H|H]; [discriminate H|]). exact H.
Qed.

(** What does hold of every playback method: its first effect is that of
    [stop()], and what it adds after that is one print and one thread
    (for [play_intro], see [play_intro_absent] and [play_intro_present]). *)
Lemma playback_methods_stop_first (W : World) (s : State) :
  (forall text,
      exists line cmd,
        snd (play_text W text s)
        = fork (TSpawn cmd) (logs [EvPrint line] (snd (stop W s))))
  /\ (forall path,
        exists line cmd,
          snd (play_file W path s)
          = fork (TSpawn cmd) (logs [EvPrint line] (snd (stop W s))))
  /\ (forall path,
        exists line cmd,
          snd (play_intro_async W path s)
          = fork (TSpawn cmd) (logs [EvPrint line] (snd (stop W s))))
  /\ (forall intro text,
        exists line cmd,
          snd (play_announcement W intro text s)
          = fork (TSpawn cmd) (logs [EvPrint line] (snd (stop W s)))).
Proof.
  repeat split; intros.
  - rewrite play_text_eq. eexists _, _. reflexivity.
  - rewrite play_file_eq. eexists _, _. reflexivity.
  - rewrite play_intro_async_eq. eexists _, _. reflexivity.
  - rewrite play_announcement_eq. eexists _, _. reflexivity.
Qed.

(** With one caller and the worker scheduled before the next request, the
    earlier process is asked to terminate before the next one is made. *)
Example orderly_schedule_terminates_first :
  trace (run calm [Call (PlayText "a"); Sched 0;
                   Call (PlayText "b"); Sched 1] init)
  = [EvPrint "[AudioService] Speaking: a";
     EvPopen 0 (play_text_command "a");
     EvPrint "[AudioService] Stopping Audio...";
     EvTerminate 0;
     EvPrint "[AudioService] Speaking: b";
     EvPopen 1 (play_text_command "b")].
Proof. reflexivity. Qed.

(* ===================================================================== *)
(** * Further properties of the strings *)
(* ===================================================================== *)

Lemma length_append (a b : string) :
  String.length (a +:+ b) = String.length a + String.length b.
Proof. induction a as [|c a IH]; cbn; [reflexivity|]. now rewrite IH. Qed.

Lemma lower_append (a b : string) :
  PyStr.lower (a +:+ b) = PyStr.lower a +:+ PyStr.lower b.
Proof. induction a as [|c a IH]; cbn; [reflexivity|]. now rewrite IH. Qed.

Lemma length_lower (s : string) :
  String.length (PyStr.lower s) = String.length s.
Proof. induction s as [|c s IH]; cbn; [reflexivity|]. now rewrite IH. Qed.

Lemma drop_append (a b : string) : PyStr.drop (String.length a) (a +:+ b) = b.
Proof. induction a as [|c a IH]; cbn; [reflexivity|]. exact IH. Qed.

Lemma lower_drop (n : nat) (s : string) :
  PyStr.lower (PyStr.drop n s) = PyStr.drop n (PyStr.lower s).
Proof.
  revert s. induction n as [|n IH]; intros s; [reflexivity|].
  destruct s as [|c s]; cbn; [reflexivity|]. apply IH.
Qed.

(** A string is what comes before an offset followed by what [drop]
    leaves. *)
Lemma drop_split (n : nat) (s : string) :
  exists stem, s = stem +:+ PyStr.drop n s.
Proof.
  revert s. induction n as [|n IH]; intros s.
  - exists EmptyString. reflexivity.
  - destruct s as [|c s]; [exists EmptyString; reflexivity|].
    destruct (IH s) as [stem Hstem]. exists (String c stem). cbn.
    now rewrite <- Hstem.
Qed.

Lemma endswith_append (a b : string) : PyStr.endswith (a +:+ b) b = true.
Proof.
  unfold PyStr.endswith. rewrite length_append.
  replace (String.length a + String.length b - String.length b)
    with (String.length a) by lia.
  rewrite drop_append, String.eqb_refl.
  rewrite andb_true_r. apply Nat.leb_le. lia.
Qed.

Lemma endswith_split (s suffix : string) :
  PyStr.endswith s suffix = true -> exists stem, s = stem +:+ suffix.
Proof.
  unfold PyStr.endswith. intros H. apply andb_true_iff in H as [_ H].
  apply String.eqb_eq in H.
  destruct (drop_split (String.length s - String.length suffix) s)
    as [stem Hstem].
  exists stem. now rewrite H in Hstem.
Qed.

(** The escaping is a homomorphism for concatenation. *)
Lemma escape_quotes_append (a b : string) :
  escape_quotes (a +:+ b) = escape_quotes a +:+ escape_quotes b.
Proof.
  induction a as [|c a IH]; [reflexivity|].
  cbn [String.append]. rewrite !escape_quotes_unfold.
  destruct (Ascii.eqb c PyStr.apostrophe); cbn [String.append];
    now rewrite IH.
Qed.

Lemma append_inj_l (a x y : string) : a +:+ x = a +:+ y -> x = y.
Proof.
  induction a as [|c a IH]; cbn [String.append]; intros H; [exact H|].
  injection H as H. now apply IH.
Qed.

(** X12: an escaped text, read by the single-quote rule, never closes
    the literal it sits in: the reader runs to the end of the text without
    finding a closing apostrophe. *)
Theorem X12_escaped_text_never_closes_literal (text : string) :
  ps_read_quoted (escape_quotes text) = None.
Proof.
  induction text as [|a text IH]; [reflexivity|].
  rewrite escape_quotes_unfold.
  destruct (Ascii.eqb a PyStr.apostrophe) eqn:Ha.
  - cbn [ps_read_quoted]. rewrite Ascii.eqb_refl. now rewrite IH.
  - cbn [ps_read_quoted]. rewrite Ha. now rewrite IH.
Qed.

(** X16: the escaping loses nothing: two texts with the same escaped form
    are the same text, so the speech commands of two different texts
    differ. *)
Theorem X16_escaping_is_injective (t1 t2 : string) :
  (escape_quotes t1 = escape_quotes t2 -> t1 = t2)
  /\ (play_text_command t1 = play_text_command t2 -> t1 = t2).
Proof.
  assert (Hinj : escape_quotes t1 = escape_quotes t2 -> t1 = t2).
  { intros H.
    pose proof (ps_read_quoted_escape t1 ")" eq_refl) as H1.
    pose proof (ps_read_quoted_escape t2 ")" eq_refl) as H2.
    rewrite H in H1. rewrite H1 in H2. now injection H2. }
  split; [exact Hinj|].
  intros H. apply Hinj.
  assert (Hs : play_text_script t1 = play_text_script t2)
    by (unfold play_text_command in H; congruence).
  unfold play_text_script in Hs. cbv zeta in Hs.
  apply append_inj_l in Hs. rename Hs into H'.
  assert (Hcut : forall x y, x +:+ "')" = y +:+ "')" -> x = y).
  { clear. induction x as [|c x IH]; intros y Hxy.
    - destruct y as [|d y]; [reflexivity|]. cbn in Hxy.
      injection Hxy as _ Hxy. destruct y as [|e y]; cbn in Hxy;
        [discriminate|]. injection Hxy as _ Hxy.
      destruct y; discriminate.
    - destruct y as [|d y].
      + cbn in Hxy. injection Hxy as _ Hxy. destruct x as [|e x];
          cbn in Hxy; [discriminate|]. injection Hxy as _ Hxy.
        destruct x; discriminate.
      + cbn in Hxy. injection Hxy as -> Hxy. f_equal. now apply IH. }
  exact (Hcut _ _ H').
Qed.

(* ===================================================================== *)
(** * Paths in the scripts *)
(* ===================================================================== *)

Lemma play_file_media_script_text (file_path : string) :
  exists head after,
    play_file_media_script file_path =
    head +:+ escape_quotes file_path +:+ "'" +:+ after
    /\ PyStr.endswith head "$p.Open('" = true
    /\ PyStr.startswith after ");" = true.
Proof.
  exists
    (lines [EmptyString;
            "                Add-Type -AssemblyName PresentationCore, PresentationFramework;";
            "                $p = New-Object System.Windows.Media.MediaPlayer;";
            "                $p.Open('"]),
    (PyStr.drop 1
       (lines ["');";
               "                $p.Play();";
               "                # We need to keep process alive while playing";
               "                # But we can't easily detect end in a headless Popen without blocking.";
               "                # Hack: Just sleep for a long time or until stopped?";
               "                # Better: Use a loop that checks 'stop' signal? No, we kill process to stop.";
               "                while ($p.Position -lt $p.NaturalDuration.TimeSpan) { Start-Sleep -Milliseconds 500 }";
               "                $p.Close();";
               "             "])).
  split; [|repeat split; vm_compute; reflexivity].
  unfold play_file_media_script. cbv zeta.
  etransitivity; [exact (lines_hole
             [EmptyString;
              "                Add-Type -AssemblyName PresentationCore, PresentationFramework;";
              "                $p = New-Object System.Windows.Media.MediaPlayer;"]
             "                $p.Open('" (escape_quotes file_path) "');" _)|].
  reflexivity.
Qed.

(** X13: [play_file] takes the SoundPlayer command exactly for the paths
    that end in four characters which lower-case to [.wav], in any mix of
    cases; a path shorter than four characters gets the MediaPlayer
    command. *)
Theorem X13_wav_extension_in_any_case (file_path : string) :
  (play_file_command file_path =
     ["powershell"; "-c"; play_file_wav_script file_path]
   <-> exists stem ext,
         file_path = stem +:+ ext /\ PyStr.lower ext = ".wav")
  /\ (String.length file_path < 4 ->
      play_file_command file_path =
        ["powershell"; "-c"; play_file_media_script file_path]).
Proof.
  pose proof (play_file_scripts_differ file_path) as Hdiff.
  split; [split|].
  - intros H. unfold play_file_command in H.
    destruct (PyStr.endswith (PyStr.lower file_path) ".wav") eqn:He;
      [|exfalso; apply Hdiff; congruence].
    clear H. unfold PyStr.endswith in He.
    apply andb_true_iff in He as [_ He]. apply String.eqb_eq in He.
    rewrite length_lower, <- lower_drop in He.
    destruct (drop_split (String.length file_path - String.length ".wav")
                         file_path) as [stem Hstem].
    eexists stem, _. split; [exact Hstem|exact He].
  - intros (stem & ext & -> & Hext). unfold play_file_command.
    rewrite lower_append, Hext, endswith_append. reflexivity.
  - intros Hlen. unfold play_file_command, PyStr.endswith.
    rewrite length_lower.
    replace (String.length ".wav" <=? String.length file_path)%nat with false;
      [reflexivity|].
    symmetry. apply Nat.leb_gt. exact Hlen.
Qed.

(** Witness for X13: an upper-case extension, and a path that is too
    short to have one. *)
Lemma X13_wav_extension_in_any_case_witness :
  play_file_command "Bell.WaV" =
    ["powershell"; "-c"; play_file_wav_script "Bell.WaV"]
  /\ play_file_command "wav" =
     ["powershell"; "-c"; play_file_media_script "wav"].
Proof.
  split.
  - apply (proj2 (proj1 (X13_wav_extension_in_any_case "Bell.WaV"))).
    exists "Bell", ".WaV". split; reflexivity.
  - apply (proj2 (X13_wav_extension_in_any_case "wav")). cbn. lia.
Defined.

(* ===================================================================== *)
(** * Further properties of the scripts *)
(* ===================================================================== *)

(** A player that never reports a duration: the polled scripts use up the
    budget, sleep the fixed time and finish, whatever the fuel. *)
Lemma polled_media_never_known (setup prelude closing : list Script.action)
      (pl : Script.player) (fuel : nat) :
  Forall (fun a => Script.sleep_ms a = 0) setup ->
  (forall r, Script.has_time_span pl r = false) ->
  polled_media setup prelude closing pl fuel =
  (Script.mkSt 22
     (setup ++ repeat (Script.Sleep 100) 20
        ++ Script.MediaPlay :: prelude ++ Script.Sleep 4000 :: closing),
   true).
Proof.
  intros Hsetup Hnever. unfold polled_media.
  rewrite perform_all_spec. cbn [Script.start Script.reads Script.performed app].
  destruct (poll_duration_spec pl 20 (Script.mkSt 0 setup))
    as (k & Hk & Hpoll & Hstop & _).
  cbn [Script.reads Script.performed Nat.add] in Hpoll, Hstop.
  assert (k = 20) as ->.
  { destruct (Nat.eq_dec k 20) as [E|E]; [exact E|].
    assert (Hlt : k < 20) by lia. specialize (Hstop Hlt).
    rewrite Hnever in Hstop. discriminate Hstop. }
  rewrite Hpoll.
  cbn [Script.perform Script.read_has_time_span Script.reads Script.performed].
  rewrite Hnever. rewrite !perform_all_spec.
  cbn [Script.perform Script.reads Script.performed].
  f_equal. f_equal.
  rewrite <- ?app_assoc. cbn [app]. rewrite <- ?app_assoc. reflexivity.
Qed.

(** A player that reports a duration at once and a position that stays
    short of it for [n] reads. *)
Lemma polled_media_waits (setup prelude closing : list Script.action)
      (n fuel : nat) :
  n <= fuel ->
  Script.performed
    (fst (polled_media setup prelude closing
            (Script.mkPlayer (fun _ => true) (fun r => Nat.ltb r (2 + n)))
            fuel))
  = setup ++ Script.MediaPlay :: repeat (Script.Sleep 100) n ++ closing
  /\ snd (polled_media setup prelude closing
            (Script.mkPlayer (fun _ => true) (fun r => Nat.ltb r (2 + n)))
            fuel) = true.
Proof.
  intros Hfuel. unfold polled_media.
  rewrite perform_all_spec. cbn [Script.start Script.reads Script.performed app].
  cbn [Script.poll_duration Script.read_has_time_span Script.has_time_span
       Script.perform Script.reads Script.performed].
  destruct (wait_position_spec
              (Script.mkPlayer (fun _ => true) (fun r => Nat.ltb r (2 + n)))
              100 fuel
              (Script.mkSt 2 (setup ++ [Script.MediaPlay])))
    as (k & Hk & Hacts & Hplaying & Hend & Hout).
  cbn [Script.reads Script.performed Script.position_lt_duration]
    in Hacts, Hplaying, Hend, Hout.
  destruct (Script.wait_position _ 100 fuel _) as [s1 fin].
  cbn [fst snd] in Hacts, Hend, Hout.
  assert (Hkn : k <= n).
  { destruct (Nat.le_gt_cases k n) as [Hle|Hgt]; [assumption|].
    specialize (Hplaying n Hgt). apply Nat.ltb_lt in Hplaying. lia. }
  destruct fin.
  - specialize (Hend eq_refl). apply Nat.ltb_ge in Hend.
    assert (k = n) as -> by lia.
    rewrite perform_all_spec. cbn [fst snd Script.performed].
    rewrite Hacts. split; [|reflexivity].
    rewrite <- !app_assoc. reflexivity.
  - destruct (Hout eq_refl) as [-> Hlt]. apply Nat.ltb_lt in Hlt. lia.
Qed.

(** X14: once the duration is known, the wait of the intro scripts for
    the end of the playback has no bound: for every [n] there is a player
    for which the script of [play_intro], the one the caller blocks on,
    sleeps [n] times 100 ms after [Play] before it closes. *)
Theorem X14_known_duration_wait_is_unbounded (path : string) (n : nat) :
  exists pl, forall fuel,
    n <= fuel ->
    Script.performed (fst (Script.intro pl path fuel)) =
      [Script.AddType "PresentationCore, PresentationFramework";
       Script.NewObject "System.Windows.Media.MediaPlayer";
       Script.MediaOpen path; Script.MediaPlay]
        ++ repeat (Script.Sleep 100) n ++ [Script.MediaClose]
    /\ Script.slept (Script.performed (fst (Script.intro pl path fuel)))
       = 100 * n.
Proof.
  exists (Script.mkPlayer (fun _ => true) (fun r => Nat.ltb r (2 + n))).
  intros fuel Hfuel. rewrite play_intro_polled.
  destruct (polled_media_waits
              [Script.AddType "PresentationCore, PresentationFramework";
               Script.NewObject "System.Windows.Media.MediaPlayer";
               Script.MediaOpen path]
              [Script.WriteHost "Duration unknown, using fallback wait."]
              [Script.MediaClose] n fuel Hfuel) as [-> _].
  split; [reflexivity|].
  change (Script.slept
            ([Script.AddType "PresentationCore, PresentationFramework";
              Script.NewObject "System.Windows.Media.MediaPlayer";
              Script.MediaOpen path; Script.MediaPlay]
               ++ repeat (Script.Sleep 100) n ++ [Script.MediaClose])
          = 100 * n).
  rewrite !slept_app, slept_repeat. cbn. lia.
Qed.

(* ===================================================================== *)
(** * Further properties of the controller *)
(* ===================================================================== *)

Lemma terminated_app (l1 l2 : list event) :
  terminated (l1 ++ l2) = terminated l1 ++ terminated l2.
Proof.
  induction l1 as [|e l1 IH]; [reflexivity|].
  destruct e; cbn; now rewrite IH.
Qed.

Lemma spawned_app (l1 l2 : list event) :
  spawned (l1 ++ l2) = spawned l1 ++ spawned l2.
Proof.
  induction l1 as [|e l1 IH]; [reflexivity|].
  destruct e; cbn; now rewrite IH.
Qed.

Lemma terminated_quiet (evs : list event) :
  Forall quiet evs -> terminated evs = [].
Proof.
  induction 1 as [|e evs He _ IH]; [reflexivity|].
  destruct e; cbn in *; try contradiction; exact IH.
Qed.

Lemma spawned_quiet (evs : list event) : Forall quiet evs -> spawned evs = [].
Proof.
  induction 1 as [|e evs He _ IH]; [reflexivity|].
  destruct e; cbn in *; try contradiction; exact IH.
Qed.

Lemma in_terminated (p : proc) (tr : list event) :
  In p (terminated tr) <-> In (EvTerminate p) tr.
Proof.
  induction tr as [|e tr IH]; [reflexivity|].
  destruct e; cbn; rewrite IH; split; intros H;
    try (right; exact H); try (destruct H as [H|H]; [discriminate H|exact H]).
  - destruct H as [->|H]; [now left|now right].
  - destruct H as [H|H]; [injection H as ->; now left|now right].
Qed.

Lemma in_spawned (p : proc) (tr : list event) :
  In p (spawned tr) <-> exists cmd, In (EvPopen p cmd) tr.
Proof.
  induction tr as [|e tr IH].
  - split; [intros []|intros [cmd []]].
  - destruct e as [l|q c|q c|q|q]; cbn; rewrite ?IH.
    + split; [intros [cmd H]; exists cmd; now right|].
      intros [cmd [H|H]]; [discriminate H|now exists cmd].
    + split.
      * intros [->|[cmd H]]; [exists c; now left|exists cmd; now right].
      * intros [cmd [H|H]]; [injection H as -> _; now left|].
        right. now exists cmd.
    + split; [intros [cmd H]; exists cmd; now right|].
      intros [cmd [H|H]]; [discriminate H|now exists cmd].
    + split; [intros [cmd H]; exists cmd; now right|].
      intros [cmd [H|H]]; [discriminate H|now exists cmd].
    + split; [intros [cmd H]; exists cmd; now right|].
      intros [cmd [H|H]]; [discriminate H|now exists cmd].
Qed.

(** Where a termination request sits in a history that was extended. *)
Lemma terminate_in_app (tr evs before after : list event) (p : proc) :
  tr ++ evs = before ++ EvTerminate p :: after ->
  (exists rest, tr = before ++ EvTerminate p :: rest)
  \/ (exists pre, before = tr ++ pre /\ evs = pre ++ EvTerminate p :: after).
Proof.
  revert before. induction tr as [|e tr IH]; intros before H.
  - right. exists before. split; [reflexivity|exact H].
  - destruct before as [|b before].
    + cbn in H. injection H as -> H. left. exists tr. reflexivity.
    + cbn in H. injection H as -> H.
      destruct (IH before H) as [[rest ->]|(pre & -> & ->)].
      * left. exists rest. reflexivity.
      * right. exists pre. split; reflexivity.
Qed.

Lemma quiet_no_terminate_split (evs pre after : list event) (p : proc) :
  Forall quiet evs -> evs = pre ++ EvTerminate p :: after -> False.
Proof.
  intros Hq ->. apply (quiet_not_terminate _ p Hq).
  apply in_or_app. right. now left.
Qed.

Lemma NoDup_snoc {A} (l : list A) (a : A) :
  NoDup l -> ~ In a l -> NoDup (l ++ [a]).
Proof.
  induction 1 as [|x l Hx Hl IH]; intros Ha; cbn.
  - constructor; [|constructor]. intros H. now apply list_elem_of_In in H.
  - constructor.
    + intros H. apply list_elem_of_In, in_app_or in H as [H|[H|[]]].
      * apply Hx. now apply list_elem_of_In.
      * apply Ha. now left.
    + apply IH. intros H. apply Ha. now right.
Qed.

(** The second invariant, step by step. *)
Lemma tidy_init : tidy init.
Proof.
  constructor; cbn.
  - intros p H. discriminate.
  - constructor.
  - constructor.
  - intros [|b before] p after H; discriminate H.
  - intros p H. discriminate.
Qed.

(** A change that keeps the slot and the history and no waiter of the
    slot's process gets lost. *)
Lemma tidy_of (s s' : State) :
  current_process s' = current_process s ->
  trace s' = trace s ->
  (forall p i t,
      current_process s = Some p -> threads s !! i = Some t ->
      waits_for t p ->
      exists i' t', threads s' !! i' = Some t' /\ waits_for t' p) ->
  tidy s -> tidy s'.
Proof.
  intros Hc Ht Hw [H1 H2 H3 H4 H5].
  constructor; rewrite ?Hc, ?Ht; try assumption.
  intros p Hp. destruct (H5 p Hp) as (i & t & Hi & Hwt). eauto.
Qed.

Lemma tidy_logs (evs : list event) (s : State) :
  terminated evs = [] -> spawned evs = [] -> tidy s -> tidy (logs evs s).
Proof.
  intros Ht Hs [H1 H2 H3 H4 H5].
  constructor; cbn; rewrite ?terminated_app, ?spawned_app, ?Ht, ?Hs,
                      ?app_nil_r; try assumption.
  intros before p after Heq.
  apply terminate_in_app in Heq as [[rest Heq]|(pre & _ & Heq)].
  - exact (H4 before p rest Heq).
  - rewrite Heq, terminated_app in Ht. cbn in Ht.
    now destruct (terminated pre).
Qed.

Lemma tidy_clear (s : State) : tidy s -> tidy (set_slot None s).
Proof.
  intros [H1 H2 H3 H4 H5].
  constructor; cbn; try assumption; intros p H; discriminate.
Qed.

(** [p.terminate()] followed by the clearing of the slot. *)
Lemma tidy_terminate (p : proc) (s : State) :
  current_process s = Some p -> In p (spawned (trace s)) ->
  tidy s -> tidy (set_slot None (logs [EvTerminate p] s)).
Proof.
  intros Hp Hspawned [H1 H2 H3 H4 H5].
  constructor; cbn; rewrite ?terminated_app, ?spawned_app; cbn;
    rewrite ?app_nil_r; try assumption.
  - intros q H. discriminate.
  - apply NoDup_snoc; [assumption|]. now apply H1.
  - intros before q after Heq.
    apply terminate_in_app in Heq as [[rest Heq]|(pre & -> & Heq)].
    + exact (H4 before q rest Heq).
    + destruct pre as [|e pre].
      * cbn in Heq. injection Heq as <- _. rewrite app_nil_r. assumption.
      * cbn in Heq. injection Heq as _ Heq. now destruct pre.
  - intros q H. discriminate.
Qed.

Lemma tidy_stop (W : World) (s : State) :
  consistent s -> tidy s -> tidy (snd (stop W s)).
Proof.
  intros Hcons H. rewrite stop_eq. cbn [snd].
  destruct (current_process s) as [p|] eqn:Hcur; [|assumption].
  apply (tidy_logs [EvPrint "[AudioService] Stopping Audio..."]) in H;
    [|reflexivity|reflexivity].
  apply (tidy_terminate p) in H.
  - unfold set_slot, logs in H. cbn in H. now rewrite app_two in H.
  - exact Hcur.
  - cbn. rewrite spawned_app. cbn. rewrite app_nil_r.
    apply in_spawned. exact (slot_popened s Hcons p Hcur).
Qed.

Lemma tidy_fork (t : thread) (s : State) : tidy s -> tidy (fork t s).
Proof.
  apply tidy_of; try reflexivity.
  intros p i t' _ Hi Hw. exists i, t'. split; [|assumption].
  cbn. now apply lookup_app_l_Some.
Qed.

Lemma tidy_popen (i : nat) (cmd : command) (s : State) :
  threads s !! i = Some (TSpawn cmd) ->
  consistent s -> tidy s ->
  tidy (mkState (Some (next_proc s)) (S (next_proc s))
                (<[i := TWait (next_proc s)]> (threads s))
                (trace s ++ [EvPopen (next_proc s) cmd])).
Proof.
  intros Hi Hcons [H1 H2 H3 H4 H5].
  assert (Hfresh : ~ In (next_proc s) (spawned (trace s))).
  { intros H. apply in_spawned in H as [c H].
    apply (popen_below s Hcons) in H. lia. }
  constructor; cbn; rewrite ?terminated_app, ?spawned_app; cbn;
    rewrite ?app_nil_r; try assumption.
  - intros p Hp H. injection Hp as <-. apply in_terminated in H.
    apply (terminate_popened s Hcons) in H. apply Hfresh.
    now apply in_spawned.
  - now apply NoDup_snoc.
  - intros before p after Heq.
    apply terminate_in_app in Heq as [[rest Heq]|(pre & _ & Heq)].
    + exact (H4 before p rest Heq).
    + destruct pre as [|e pre]; [discriminate Heq|].
      injection Heq as _ Heq. now destruct pre.
  - intros p Hp. injection Hp as <-.
    exists i, (TWait (next_proc s)). split; [|now left].
    apply list_lookup_insert_eq. eapply lookup_lt_Some. exact Hi.
Qed.

Lemma tidy_run_spawn (cmd : command) (s : State) :
  tidy s ->
  tidy (mkState (current_process s) (S (next_proc s))
                (threads s ++ [TRun (next_proc s) cmd])
                (trace s ++ [EvRun (next_proc s) cmd])).
Proof.
  intros H.
  apply (tidy_of (fork (TRun (next_proc s) cmd)
                       (logs [EvRun (next_proc s) cmd] s)));
    [reflexivity|reflexivity| |].
  - intros p i t _ Hi Hw. exists i, t. split; assumption.
  - apply tidy_fork, tidy_logs; [reflexivity|reflexivity|assumption].
Qed.

(** A thread moves on: a waiter of the slot's process stays one. *)
Lemma tidy_set_thread (i : nat) (t t' : thread) (s : State) :
  threads s !! i = Some t ->
  (forall p, current_process s = Some p -> waits_for t p -> waits_for t' p) ->
  tidy s -> tidy (set_threads (<[i := t']> (threads s)) s).
Proof.
  intros Hi Hkeep. apply tidy_of; try reflexivity.
  intros p j tj Hp Hj Hw. cbn.
  destruct (Nat.eq_dec i j) as [->|Hne].
  - exists j, t'. split.
    + apply list_lookup_insert_eq. eapply lookup_lt_Some. exact Hj.
    + apply (Hkeep p Hp). congruence.
  - exists j, tj. split; [|assumption].
    now rewrite list_lookup_insert_ne.
Qed.

Lemma waits_for_cleanup (p q : proc) (r : outcome unit) :
  waits_for (TCleanup p r) q -> q = p.
Proof. intros [H|[r' H]]; [discriminate H|]. now injection H. Qed.

Lemma tidy_dispatch (W : World) (line : string) (cmd : command) (s : State) :
  consistent s -> tidy s ->
  tidy (fork (TSpawn cmd) (logs [EvPrint line] (snd (stop W s)))).
Proof.
  intros Hc H. apply tidy_fork, tidy_logs; [reflexivity|reflexivity|].
  now apply tidy_stop.
Qed.

Lemma tidy_call (W : World) (r : request) (s : State) :
  consistent s -> tidy s -> tidy (call W r s).
Proof.
  intros Hc H. destruct r as [text|path|path|intro text|path|]; cbn [call].
  - rewrite play_text_eq. now apply tidy_dispatch.
  - destruct (path_exists W path) eqn:Hex.
    + destruct (popen_error W (play_intro_command path) (next_proc s))
        as [e|] eqn:Hp.
      * rewrite (play_intro_unstartable _ _ _ e) by assumption. cbn [snd].
        apply tidy_logs; [reflexivity|reflexivity|]. now apply tidy_stop.
      * rewrite play_intro_present by assumption. cbn [snd].
        apply (tidy_run_spawn (play_intro_command path)
                 (logs [EvPrint ("[AudioService] Playing Intro: " +:+ path)]
                       (snd (stop W s)))).
        apply tidy_logs; [reflexivity|reflexivity|]. now apply tidy_stop.
    + rewrite play_intro_absent by assumption. cbn [snd].
      apply tidy_fork, tidy_logs; [reflexivity|reflexivity|].
      now apply tidy_stop.
  - rewrite play_file_eq. now apply tidy_dispatch.
  - rewrite play_announcement_eq. now apply tidy_dispatch.
  - rewrite play_intro_async_eq. now apply tidy_dispatch.
  - now apply tidy_stop.
Qed.

Lemma tidy_exec (W : World) (a : move) (s : State) :
  consistent s -> tidy s -> tidy (exec W a s).
Proof.
  intros Hc H. destruct a as [r|i]; [now apply tidy_call|].
  destruct (threads s !! i) as [[cmd|p|p r|p cmd|r]|] eqn:Ht.
  - destruct (popen_error W cmd (next_proc s)) as [e|] eqn:Hp.
    + rewrite (exec_sched_spawn_fails W i cmd s e) by assumption.
      apply (tidy_set_thread i (TSpawn cmd) _ (logs _ s)); [assumption| |].
      * intros q _ [Hq|[r Hq]]; discriminate Hq.
      * apply tidy_logs; [reflexivity|reflexivity|assumption].
    + rewrite (exec_sched_spawn_ok _ _ cmd) by assumption.
      now apply tidy_popen.
  - rewrite (exec_sched_wait _ _ p) by assumption.
    apply (tidy_set_thread i (TWait p) _ (logs _ s)); [assumption| |].
    + intros q _ [Hq|[r Hq]]; [|discriminate Hq].
      injection Hq as ->. right. now exists (Returned tt).
    + apply tidy_logs;
        [apply terminated_quiet|apply spawned_quiet|assumption];
        apply quiet_wait_events.
  - rewrite (exec_sched_cleanup _ _ p r) by assumption.
    destruct (current_process s) as [q|] eqn:Hq;
      [destruct (Nat.eqb q p) eqn:Hqp|].
    + apply (tidy_set_thread i (TCleanup p r) _ (set_slot None s));
        [assumption| |now apply tidy_clear].
      intros q' Hq'. discriminate Hq'.
    + apply (tidy_set_thread i (TCleanup p r)); [assumption| |assumption].
      intros q' Hq' Hw. apply waits_for_cleanup in Hw. subst q'.
      rewrite Hq in Hq'. injection Hq' as ->.
      rewrite Nat.eqb_refl in Hqp. discriminate Hqp.
    + apply (tidy_set_thread i (TCleanup p r)); [assumption| |assumption].
      intros q' Hq'. rewrite Hq in Hq'. discriminate Hq'.
  - rewrite (exec_sched_run _ _ p cmd) by assumption.
    apply (tidy_set_thread i (TRun p cmd) _ (logs _ s)); [assumption| |].
    + intros q _ [Hq|[r Hq]]; discriminate Hq.
    + apply tidy_logs;
        [apply terminated_quiet|apply spawned_quiet|assumption];
        apply quiet_run_events.
  - now rewrite (exec_sched_done _ _ r).
  - now rewrite exec_sched_none.
Qed.

Lemma tidy_run (W : World) (sched : list move) (s : State) :
  consistent s -> tidy s -> tidy (run W sched s).
Proof.
  revert s. induction sched as [|a sched IH]; intros s Hc H; [assumption|].
  cbn. apply IH; [now apply consistent_exec|now apply tidy_exec].
Qed.

Lemma reachable_tidy (W : World) (s : State) : reachable W s -> tidy s.
Proof.
  intros [sched ->]. apply tidy_run; [apply consistent_init|apply tidy_init].
Qed.

(** X8: in every state the controller can reach, no process has been
    asked to terminate twice, no process handle has been handed out twice,
    and the process in the slot has not been asked to terminate. *)
Theorem X8_terminate_at_most_once (W : World) (s : State) :
  reachable W s ->
  NoDup (terminated (trace s))
  /\ NoDup (spawned (trace s))
  /\ (forall p, current_process s = Some p -> ~ In (EvTerminate p) (trace s)).
Proof.
  intros Hr. pose proof (reachable_tidy W s Hr) as [H1 H2 H3 H4 H5].
  split; [assumption|]. split; [assumption|].
  intros p Hp H. apply (H1 p Hp). now apply in_terminated.
Qed.

(** Witness for X8: two sessions, the first stopped by the second
    request, the second by an explicit stop that is then repeated. *)
Lemma X8_terminate_at_most_once_witness :
  terminated
    (trace (run calm [Call (PlayText "a"); Sched 0; Call (PlayText "b");
                      Sched 1; Call Stop; Call Stop] init)) = [0; 1]
  /\ NoDup (terminated
              (trace (run calm [Call (PlayText "a"); Sched 0;
                                Call (PlayText "b"); Sched 1; Call Stop;
                                Call Stop] init))).
Proof.
  split; [reflexivity|].
  exact (proj1 (X8_terminate_at_most_once calm _
                  (ex_intro _ [Call (PlayText "a"); Sched 0;
                               Call (PlayText "b"); Sched 1; Call Stop;
                               Call Stop] eq_refl))).
Defined.

(** X9: in every state the controller can reach, the process in the
    slot has a worker thread that is waiting for it or is about to run its
    cleanup; the slot never holds a handle that nobody will clear. *)
Theorem X9_slot_always_has_a_waiter (W : World) (s : State) (p : proc) :
  reachable W s ->
  current_process s = Some p ->
  exists i,
    threads s !! i = Some (TWait p)
    \/ exists r, threads s !! i = Some (TCleanup p r).
Proof.
  intros Hr Hp.
  destruct (slot_has_waiter s (reachable_tidy W s Hr) p Hp)
    as (i & t & Hi & [->|[r ->]]); exists i; [now left|right; now exists r].
Qed.

(** Witness for X9: a session that was spawned and is being waited for. *)
Lemma X9_slot_always_has_a_waiter_witness :
  exists i,
    threads (run calm [Call (PlayFile "a.wav"); Sched 0] init) !! i
      = Some (TWait 0)
    \/ exists r,
        threads (run calm [Call (PlayFile "a.wav"); Sched 0] init) !! i
          = Some (TCleanup 0 r).
Proof.
  exact (X9_slot_always_has_a_waiter calm _ 0
           (ex_intro _ [Call (PlayFile "a.wav"); Sched 0] eq_refl) eq_refl).
Defined.

(** X10: in every state the controller can reach, each termination
    request in the history comes after the [Popen] that made the process
    it is for: [stop()] never signals a process that a worker has not
    spawned before. *)
Theorem X10_terminate_only_after_spawn (W : World) (s : State)
        (before after : list event) (p : proc) :
  reachable W s ->
  trace s = before ++ EvTerminate p :: after ->
  exists cmd, In (EvPopen p cmd) before.
Proof.
  intros Hr Heq. apply in_spawned.
  exact (terminate_after_popen s (reachable_tidy W s Hr) before p after Heq).
Qed.

(** Witness for X10. *)
Lemma X10_terminate_only_after_spawn_witness :
  exists cmd,
    In (EvPopen 0 cmd)
       [EvPrint "[AudioService] Playing: a.wav";
        EvPopen 0 (play_file_command "a.wav");
        EvPrint "[AudioService] Stopping Audio..."].
Proof.
  exact (X10_terminate_only_after_spawn calm
           (run calm [Call (PlayFile "a.wav"); Sched 0; Call Stop] init)
           [EvPrint "[AudioService] Playing: a.wav";
            EvPopen 0 (play_file_command "a.wav");
            EvPrint "[AudioService] Stopping Audio..."]
           [] 0
           (ex_intro _ [Call (PlayFile "a.wav"); Sched 0; Call Stop] eq_refl)
           eq_refl).
Defined.

Lemma stop_spawned (W : World) (s : State) :
  spawned (trace (snd (stop W s))) = spawned (trace s).
Proof.
  rewrite stop_eq. cbn [snd]. destruct (current_process s); [|reflexivity].
  cbn. rewrite spawned_app. cbn. now rewrite app_nil_r.
Qed.

(** X2: when the intro file exists but the process cannot be started,
    [play_intro] prints the failure and returns: nothing is raised, no
    process and no thread is made.  When the process was started and
    [subprocess.run] raises at its end, the resumed call prints the failure
    and returns as well. *)
Theorem X2_intro_failures_are_printed (W : World) (file_path : string)
        (s : State) (e : exn) :
  path_exists W file_path = true ->
  (popen_error W (play_intro_command file_path) (next_proc s) = Some e ->
   fst (play_intro W file_path s) = Returned Finished
   /\ trace (snd (play_intro W file_path s)) =
      trace (snd (stop W s))
        ++ [EvPrint ("[AudioService] Playing Intro: " +:+ file_path);
            EvPrint ("[AudioService] Intro playback failed: " +:+ exn_str e)]
   /\ threads (snd (play_intro W file_path s)) = threads s
   /\ next_proc (snd (play_intro W file_path s)) = next_proc s)
  /\ (forall p cmd s',
        run_error W p = Some e ->
        fst (play_intro_resume W p cmd s') = Returned tt
        /\ trace (snd (play_intro_resume W p cmd s')) =
           trace s'
             ++ [EvWait p;
                 EvPrint ("[AudioService] Intro playback failed: "
                            +:+ exn_str e)]).
Proof.
  intros Hex. split.
  - intros Hp. rewrite (play_intro_unstartable W file_path s e Hex Hp).
    cbn [fst snd logs trace threads next_proc].
    now rewrite stop_threads, stop_next_proc.
  - intros p cmd s' He. rewrite play_intro_resume_eq.
    unfold run_events. rewrite He. split; reflexivity.
Qed.

(** Witness for X2: an existing file in a world where no program starts. *)
Lemma X2_intro_failures_are_printed_witness :
  fst (play_intro
         (mkWorld (fun _ => true)
                  (fun _ _ => Some (mkExn "FileNotFoundError" "[WinError 2]"))
                  (fun _ => None)
                  (fun _ => Returned (EmptyString, EmptyString))
                  (fun _ => None))
         "chime.mp3" init) = Returned Finished.
Proof.
  exact (proj1 (proj1 (X2_intro_failures_are_printed
                         (mkWorld (fun _ => true)
                            (fun _ _ =>
                               Some (mkExn "FileNotFoundError" "[WinError 2]"))
                            (fun _ => None)
                            (fun _ => Returned (EmptyString, EmptyString))
                            (fun _ => None))
                         "chime.mp3" init
                         (mkExn "FileNotFoundError" "[WinError 2]") eq_refl)
                      eq_refl)).
Defined.

(** X4: a worker that waits for [p] goes on to its cleanup whatever
    [communicate()] does, with nothing raised and the slot untouched: the
    error output of the process is printed when there is some, nothing is
    printed when there is none, and an exception of [communicate()] is
    dropped without a trace. *)
Theorem X4_worker_wait_outcomes (W : World) (s : State) (i : nat) (p : proc) :
  threads s !! i = Some (TWait p) ->
  threads (exec W (Sched i) s) !! i = Some (TCleanup p (Returned tt))
  /\ current_process (exec W (Sched i) s) = current_process s
  /\ next_proc (exec W (Sched i) s) = next_proc s
  /\ (forall out,
        communicate_result W p = Returned (out, EmptyString) ->
        trace (exec W (Sched i) s) = trace s ++ [EvWait p])
  /\ (forall out err,
        communicate_result W p = Returned (out, err) ->
        err <> EmptyString ->
        trace (exec W (Sched i) s) =
        trace s ++ [EvWait p;
                    EvPrint ("[AudioService] Process Error: " +:+ err)])
  /\ (forall e,
        communicate_result W p = Raised e ->
        trace (exec W (Sched i) s) = trace s).
Proof.
  intros Hi. rewrite (exec_sched_wait W i p s Hi).
  cbn [set_threads logs threads current_process next_proc trace].
  split.
  { apply list_lookup_insert_eq. eapply lookup_lt_Some. exact Hi. }
  split; [reflexivity|]. split; [reflexivity|].
  unfold wait_events. split; [|split].
  - intros out H. now rewrite H.
  - intros out err H Hne. rewrite H.
    destruct err as [|a err]; [contradiction|reflexivity].
  - intros e H. rewrite H. apply app_nil_r.
Qed.

(** Witness for X4: a process that wrote to its error output. *)
Lemma X4_worker_wait_outcomes_witness :
  let W := mkWorld (fun _ => true) (fun _ _ => None) (fun _ => None)
                   (fun _ => Returned (EmptyString, "boom")) (fun _ => None) in
  trace (run W [Call (PlayText "a"); Sched 0; Sched 0] init)
  = [EvPrint "[AudioService] Speaking: a";
     EvPopen 0 (play_text_command "a");
     EvWait 0;
     EvPrint "[AudioService] Process Error: boom"].
Proof.
  intros W.
  exact (proj1 (proj2 (proj2 (proj2 (proj2
           (X4_worker_wait_outcomes W
              (run W [Call (PlayText "a"); Sched 0] init) 0 0 eq_refl)))))
           EmptyString "boom" eq_refl ltac:(discriminate)).
Defined.

(** X7: a second [stop()] right after a first one changes nothing: it
    finds the slot empty, prints nothing and asks nothing to terminate. *)
Theorem X7_stop_twice_is_stop_once (W : World) (s : State) :
  stop W (snd (stop W s)) = (Returned tt, snd (stop W s))
  /\ run W [Call Stop; Call Stop] s = run W [Call Stop] s.
Proof.
  assert (H : stop W (snd (stop W s)) = (Returned tt, snd (stop W s))).
  { rewrite (stop_eq W (snd (stop W s))), stop_current. reflexivity. }
  split; [exact H|]. unfold run. cbn [fold_left exec call]. now rewrite H.
Qed.

Lemma steps_S (W : World) (i n : nat) (s : State) :
  steps W i (S n) s = steps W i n (exec W (Sched i) s).
Proof. reflexivity. Qed.

Lemma steps_add (W : World) (i n m : nat) (s : State) :
  steps W i (n + m) s = steps W i m (steps W i n s).
Proof.
  unfold steps, run. rewrite repeat_app. apply fold_left_app.
Qed.

Lemma steps_done (W : World) (i n : nat) (r : outcome unit) (s : State) :
  threads s !! i = Some (TDone r) -> steps W i n s = s.
Proof.
  intros H. induction n as [|n IH]; [reflexivity|].
  rewrite steps_S, (exec_sched_done W i r s H). exact IH.
Qed.

(** Each step of a thread brings it nearer to its end. *)
Lemma sched_progress (W : World) (i : nat) (t : thread) (s : State) :
  threads s !! i = Some t ->
  exists t',
    threads (exec W (Sched i) s) !! i = Some t'
    /\ steps_left t' <= pred (steps_left t).
Proof.
  intros Hi.
  assert (Hlen : i < length (threads s)) by (eapply lookup_lt_Some; eauto).
  destruct t as [cmd|p|p r|p cmd|r].
  - destruct (popen_error W cmd (next_proc s)) as [e|] eqn:Hp.
    + rewrite (exec_sched_spawn_fails W i cmd s e Hi Hp).
      exists (TDone (Returned tt)). split; [|cbn; lia].
      cbn. now apply list_lookup_insert_eq.
    + rewrite (exec_sched_spawn_ok W i cmd s Hi Hp).
      exists (TWait (next_proc s)). split; [|cbn; lia].
      cbn. now apply list_lookup_insert_eq.
  - rewrite (exec_sched_wait W i p s Hi).
    exists (TCleanup p (Returned tt)). split; [|cbn; lia].
    cbn. now apply list_lookup_insert_eq.
  - rewrite (exec_sched_cleanup W i p r s Hi).
    exists (TDone r). split; [|cbn; lia].
    destruct (current_process s) as [q|]; [destruct (Nat.eqb q p)|];
      cbn; now apply list_lookup_insert_eq.
  - rewrite (exec_sched_run W i p cmd s Hi).
    exists (TDone (Returned tt)). split; [|cbn; lia].
    cbn. now apply list_lookup_insert_eq.
  - rewrite (exec_sched_done W i r s Hi). exists (TDone r). split; [|cbn; lia].
    exact Hi.
Qed.

Lemma steps_progress (W : World) (i n : nat) (t : thread) (s : State) :
  threads s !! i = Some t ->
  exists t',
    threads (steps W i n s) !! i = Some t'
    /\ steps_left t' <= steps_left t - n.
Proof.
  revert t s. induction n as [|n IH]; intros t s Hi.
  - exists t. split; [exact Hi|lia].
  - destruct (sched_progress W i t s Hi) as (t1 & H1 & Hle1).
    destruct (IH t1 _ H1) as (t' & H' & Hle').
    exists t'. rewrite steps_S. split; [exact H'|lia].
Qed.

(** X6: a thread of the service has no loop of its own: whatever state it
    is in, after three of its steps it has finished, and a finished
    thread changes nothing any more. *)
Theorem X6_threads_finish_in_three_steps (W : World) (s : State) (i : nat)
        (t : thread) :
  threads s !! i = Some t ->
  (exists r, threads (steps W i 3 s) !! i = Some (TDone r))
  /\ (forall n, steps W i (3 + n) s = steps W i 3 s).
Proof.
  intros Hi.
  destruct (steps_progress W i 3 t s Hi) as (t' & H' & Hle).
  assert (Hzero : steps_left t' = 0) by (destruct t; cbn in Hle; lia).
  destruct t' as [cmd|p|p r|p cmd|r]; try discriminate Hzero.
  split; [now exists r|].
  intros n. rewrite steps_add. exact (steps_done W i n r _ H').
Qed.

(** Witness for X6: a worker whose spawn fails is finished after one
    step already. *)
Lemma X6_threads_finish_in_three_steps_witness :
  exists r,
    threads (steps barren 0 3 (run barren [Call (PlayText "hi")] init)) !! 0
    = Some (TDone r).
Proof.
  exact (proj1 (X6_threads_finish_in_three_steps barren
                  (run barren [Call (PlayText "hi")] init) 0 _ eq_refl)).
Defined.

(** X5: a session that nobody interrupts returns the controller to idle.
    When a worker's spawn succeeds, its first step puts the new handle in
    the slot, whatever was there; the handle stays through the wait; the
    third step, the cleanup, empties the slot and ends the worker with
    nothing raised.  The history gets the spawn and what the wait adds. *)
Theorem X5_session_returns_to_idle (W : World) (s : State) (i : nat)
        (cmd : command) :
  threads s !! i = Some (TSpawn cmd) ->
  popen_error W cmd (next_proc s) = None ->
  current_process (steps W i 1 s) = Some (next_proc s)
  /\ current_process (steps W i 2 s) = Some (next_proc s)
  /\ current_process (steps W i 3 s) = None
  /\ threads (steps W i 3 s) !! i = Some (TDone (Returned tt))
  /\ trace (steps W i 3 s) =
     trace s ++ EvPopen (next_proc s) cmd :: wait_events W (next_proc s)
  /\ next_proc (steps W i 3 s) = S (next_proc s).
Proof.
  intros Hi Hp.
  assert (Hlen : i < length (threads s)) by (eapply lookup_lt_Some; eauto).
  rewrite !steps_S. change (steps W i 0) with (fun x : State => x). cbv beta.
  pose proof (exec_sched_spawn_ok W i cmd s Hi Hp) as H1.
  set (s1 := exec W (Sched i) s) in *.
  assert (Ht1 : threads s1 !! i = Some (TWait (next_proc s))).
  { rewrite H1. cbn. now apply list_lookup_insert_eq. }
  pose proof (exec_sched_wait W i (next_proc s) s1 Ht1) as H2.
  set (s2 := exec W (Sched i) s1) in *.
  assert (Ht2 : threads s2 !! i
                = Some (TCleanup (next_proc s) (Returned tt))).
  { rewrite H2. cbn. apply list_lookup_insert_eq.
    eapply lookup_lt_Some. exact Ht1. }
  assert (Hc1 : current_process s1 = Some (next_proc s)) by now rewrite H1.
  assert (Hc2 : current_process s2 = Some (next_proc s)) by now rewrite H2.
  pose proof (exec_sched_cleanup W i (next_proc s) (Returned tt) s2 Ht2) as H3.
  rewrite Hc2, Nat.eqb_refl in H3.
  set (s3 := exec W (Sched i) s2) in *.
  split; [exact Hc1|]. split; [exact Hc2|].
  rewrite H3. cbn [set_threads set_slot current_process threads trace
                   next_proc].
  split; [reflexivity|]. split.
  { apply list_lookup_insert_eq. eapply lookup_lt_Some. exact Ht2. }
  rewrite H2. cbn [set_threads logs trace next_proc]. rewrite H1.
  cbn [trace next_proc]. split; [|reflexivity].
  now rewrite <- app_assoc.
Qed.

(** Witness for X5: one announcement, left alone until it is over. *)
Lemma X5_session_returns_to_idle_witness :
  current_process
    (steps calm 0 3 (run calm [Call (PlayAnnouncement "c.mp3" "hi")] init))
  = None.
Proof.
  exact (proj1 (proj2 (proj2
           (X5_session_returns_to_idle calm
              (run calm [Call (PlayAnnouncement "c.mp3" "hi")] init) 0 _
              eq_refl eq_refl)))).
Defined.

Lemma call_dispatch (W : World) (r : request) (cmd : command) (s : State) :
  request_command r = Some cmd ->
  exists line,
    call W r s = fork (TSpawn cmd) (logs [EvPrint line] (snd (stop W s))).
Proof.
  destruct r as [text|path|path|intro text|path|]; cbn [request_command call];
    intros H; try discriminate H; injection H as <-.
  - rewrite play_text_eq. eexists. reflexivity.
  - rewrite play_file_eq. eexists. reflexivity.
  - rewrite play_announcement_eq. eexists. reflexivity.
  - rewrite play_intro_async_eq. eexists. reflexivity.
Qed.

(** X3: when the worker of a fire-and-forget request takes its first
    step right after the request, stop-before-start holds: the request
    leaves the slot empty, the process that was in the slot has been asked
    to terminate, and only then is the new process made and put in the
    slot. *)
Theorem X3_request_then_its_worker (W : World) (r : request) (cmd : command)
        (s : State) :
  request_command r = Some cmd ->
  popen_error W cmd (next_proc s) = None ->
  threads (call W r s) !! length (threads s) = Some (TSpawn cmd)
  /\ current_process (call W r s) = None
  /\ (forall p,
        current_process s = Some p ->
        exists line,
          trace (call W r s) =
          trace s ++ [EvPrint "[AudioService] Stopping Audio...";
                      EvTerminate p; EvPrint line])
  /\ (current_process s = None ->
      exists line, trace (call W r s) = trace s ++ [EvPrint line])
  /\ trace (exec W (Sched (length (threads s))) (call W r s)) =
     trace (call W r s) ++ [EvPopen (next_proc s) cmd]
  /\ current_process (exec W (Sched (length (threads s))) (call W r s)) =
     Some (next_proc s).
Proof.
  intros Hr Hp. destruct (call_dispatch W r cmd s Hr) as [line Hcall].
  assert (Ht : threads (call W r s) !! length (threads s) = Some (TSpawn cmd)).
  { rewrite Hcall. cbn [fork logs threads]. rewrite stop_threads.
    rewrite lookup_app_r by lia. now rewrite Nat.sub_diag. }
  assert (Hn : next_proc (call W r s) = next_proc s).
  { rewrite Hcall. cbn [fork logs next_proc]. apply stop_next_proc. }
  split; [exact Ht|].
  split. { rewrite Hcall. cbn [fork logs current_process]. apply stop_current. }
  split.
  { intros p Hcur. exists line. rewrite Hcall, stop_eq, Hcur. cbn.
    now rewrite <- app_assoc. }
  split.
  { intros Hcur. exists line. rewrite Hcall, stop_eq, Hcur. reflexivity. }
  rewrite (exec_sched_spawn_ok W _ cmd (call W r s) Ht)
    by (rewrite Hn; exact Hp).
  cbn [trace current_process]. rewrite Hn. split; reflexivity.
Qed.

(** Witness for X3: a file request while a speech session is active. *)
Lemma X3_request_then_its_worker_witness :
  let s := run calm [Call (PlayText "a"); Sched 0] init in
  trace (exec calm (Sched 1) (call calm (PlayFile "b.wav") s))
  = [EvPrint "[AudioService] Speaking: a";
     EvPopen 0 (play_text_command "a");
     EvPrint "[AudioService] Stopping Audio...";
     EvTerminate 0;
     EvPrint "[AudioService] Playing: b.wav";
     EvPopen 1 (play_file_command "b.wav")].
Proof.
  intros s.
  pose proof (X3_request_then_its_worker calm (PlayFile "b.wav")
                (play_file_command "b.wav") s eq_refl eq_refl)
    as (_ & _ & _ & _ & Htrace & _).
  exact Htrace.
Defined.

(** Witness for X14: three rounds of the position loop. *)
Lemma X14_known_duration_wait_is_unbounded_witness :
  exists pl, forall fuel,
    3 <= fuel ->
    Script.performed (fst (Script.intro pl "chime.mp3" fuel)) =
      [Script.AddType "PresentationCore, PresentationFramework";
       Script.NewObject "System.Windows.Media.MediaPlayer";
       Script.MediaOpen "chime.mp3"; Script.MediaPlay;
       Script.Sleep 100; Script.Sleep 100; Script.Sleep 100;
       Script.MediaClose]
    /\ Script.slept (Script.performed (fst (Script.intro pl "chime.mp3" fuel)))
       = 300.
Proof. exact (X14_known_duration_wait_is_unbounded "chime.mp3" 3). Defined.

(** Witness for X16: a text with an apostrophe. *)
Lemma X16_escaping_is_injective_witness :
  escape_quotes "it's" = escape_quotes ("it" +:+ "'s")
  /\ "it's" = "it" +:+ "'s".
Proof.
  split; [reflexivity|].
  exact (proj1 (X16_escaping_is_injective "it's" ("it" +:+ "'s")) eq_refl).
Defined.

(* ===================================================================== *)
(** * The single-quote rule of PowerShell *)
(* ===================================================================== *)

Lemma quote_width_apostrophe (rest : string) :
  quote_width (String PyStr.apostrophe rest) = 1.
Proof. reflexivity. Qed.

Lemma quote_width_values (s : string) :
  quote_width s = 0 \/ quote_width s = 1 \/ quote_width s = 3.
Proof.
  destruct s as [|a [|b [|c s]]]; cbn [quote_width]; auto;
    destruct (Ascii.eqb a PyStr.apostrophe); auto.
  destruct (is_typographic_quote a b c); auto.
Qed.

(** A byte that is not the apostrophe and does not start a typographic
    quote in the text does not start one in the escaped text either. *)
Lemma quote_width_escaped (a : ascii) (t after : string) :
  Ascii.eqb a PyStr.apostrophe = false ->
  no_typographic_quote (String a t) = true ->
  quote_width (String a (escape_quotes t +:+ String PyStr.apostrophe after))
  = 0.
Proof.
  intros Ha Hno. cbn [no_typographic_quote] in Hno.
  apply andb_true_iff in Hno as [Hno _]. apply negb_true_iff in Hno.
  apply Nat.eqb_neq in Hno.
  assert (Hq : forall c, is_typographic_quote a PyStr.apostrophe c = false).
  { intros c. unfold is_typographic_quote.
    destruct (Ascii.eqb a "226"); reflexivity. }
  assert (Hq' : forall b, is_typographic_quote a b PyStr.apostrophe = false).
  { intros b. unfold is_typographic_quote.
    destruct (Ascii.eqb a "226"), (Ascii.eqb b "128"); reflexivity. }
  destruct t as [|b t].
  - change (escape_quotes EmptyString) with EmptyString.
    cbn [String.append quote_width]. rewrite Ha.
    destruct after as [|c after]; [reflexivity|]. now rewrite Hq.
  - rewrite escape_quotes_unfold.
    destruct (Ascii.eqb b PyStr.apostrophe) eqn:Hb.
    + cbn [String.append quote_width]. rewrite Ha. now rewrite Hq.
    + destruct t as [|c t].
      * change (escape_quotes EmptyString) with EmptyString.
        cbn [String.append quote_width]. rewrite Ha. now rewrite Hq'.
      * rewrite escape_quotes_unfold.
        destruct (Ascii.eqb c PyStr.apostrophe) eqn:Hc.
        -- cbn [String.append quote_width]. rewrite Ha. now rewrite Hq'.
        -- cbn [String.append quote_width]. rewrite Ha.
           cbn [quote_width] in Hno. rewrite Ha in Hno.
           destruct (is_typographic_quote a b c); [contradiction|reflexivity].
Qed.

(** A text without typographic quotes, escaped and closed by an
    apostrophe, is read back by PowerShell's rule as the text, and the
    reading ends at that apostrophe. *)
Lemma pwsh_read_escape (text after : string) (fuel : nat) :
  no_typographic_quote text = true ->
  quote_width after = 0 ->
  String.length text < fuel ->
  pwsh_read fuel (escape_quotes text +:+ String PyStr.apostrophe after)
  = Some (text, after).
Proof.
  intros Hno Hafter. revert fuel.
  induction text as [|a text IH]; intros fuel Hfuel.
  - destruct fuel as [|fuel]; [cbn in Hfuel; lia|].
    change (escape_quotes EmptyString) with EmptyString.
    cbn [String.append pwsh_read]. rewrite quote_width_apostrophe.
    cbn [PyStr.drop]. destruct (quote_width after); [reflexivity|].
    discriminate Hafter.
  - destruct fuel as [|fuel]; [cbn in Hfuel; lia|].
    cbn [String.length] in Hfuel.
    pose proof Hno as Hno'. cbn [no_typographic_quote] in Hno'.
    apply andb_true_iff in Hno' as [_ Hrest].
    rewrite escape_quotes_unfold.
    destruct (Ascii.eqb a PyStr.apostrophe) eqn:Ha.
    + cbn [String.append pwsh_read]. rewrite quote_width_apostrophe.
      cbn [PyStr.drop]. rewrite quote_width_apostrophe.
      cbn [PyStr.drop substring].
      rewrite (IH Hrest fuel) by lia.
      apply Ascii.eqb_eq in Ha. subst a.
      destruct (escape_quotes text +:+ String PyStr.apostrophe after);
        reflexivity.
    + cbn [String.append pwsh_read].
      rewrite (quote_width_escaped a text after Ha Hno).
      now rewrite (IH Hrest fuel) by lia.
Qed.

Lemma pwsh_read_quoted_escape (text after : string) :
  no_typographic_quote text = true ->
  quote_width after = 0 ->
  pwsh_read_quoted (escape_quotes text +:+ "'" +:+ after) = Some (text, after).
Proof.
  intros Hno Hafter. unfold pwsh_read_quoted.
  change ("'" +:+ after) with (String PyStr.apostrophe after).
  apply pwsh_read_escape; [assumption|assumption|].
  rewrite length_append, escape_quotes_length. cbn [String.length]. lia.
Qed.

Lemma starts_paren_no_quote (s : string) :
  PyStr.startswith s ");" = true -> quote_width s = 0.
Proof.
  intros H. destruct s as [|c s]; [discriminate H|].
  cbn [PyStr.startswith] in H. apply andb_true_iff in H as [H _].
  apply Ascii.eqb_eq in H. subst c. now destruct s as [|b [|c s]].
Qed.

(** ** The scripts are the texts of their programs *)

Lemma lines_hole_at (n : nat) (l : list string) (a x b : string)
      (ys : list string) :
  skipn n l = (a +:+ x +:+ b) :: ys ->
  lines l = lines (firstn n l ++ [a]) +:+ x +:+ lines (b :: ys).
Proof.
  intros H. rewrite <- (firstn_skipn n l) at 1. rewrite H. apply lines_hole.
Qed.

Lemma render_seq_app (l1 l2 : list PS.stmt) :
  PS.render (PS.seq (l1 ++ l2)) =
  PS.render (PS.seq l1) +:+ PS.render (PS.seq l2).
Proof.
  induction l1 as [|s l1 IH]; [reflexivity|].
  cbn [app PS.seq PS.render]. now rewrite IH, append_assoc.
Qed.

Lemma render_open_at (n : nat) (l : list PS.stmt) (literal : string)
      (rest : list PS.stmt) :
  skipn n l = PS.OpenMedia literal :: rest ->
  PS.render (PS.seq l) =
  (PS.render (PS.seq (firstn n l)) +:+ "$p.Open('")
    +:+ literal +:+ PS.render (PS.seq (PS.Layout "')" :: rest)).
Proof.
  intros H. rewrite <- (firstn_skipn n l) at 1. rewrite H, render_seq_app.
  cbn [PS.seq PS.render PS.render_stmt]. now rewrite !append_assoc.
Qed.

Lemma render_speak_at (n : nat) (l : list PS.stmt) (literal : string)
      (rest : list PS.stmt) :
  skipn n l = PS.SpeakText literal :: rest ->
  PS.render (PS.seq l) =
  (PS.render (PS.seq (firstn n l)) +:+ "$synth.Speak('")
    +:+ literal +:+ PS.render (PS.seq (PS.Layout "')" :: rest)).
Proof.
  intros H. rewrite <- (firstn_skipn n l) at 1. rewrite H, render_seq_app.
  cbn [PS.seq PS.render PS.render_stmt]. now rewrite !append_assoc.
Qed.

Lemma hole_eq (a1 a2 x b1 b2 : string) :
  a1 = a2 -> b1 = b2 -> a1 +:+ x +:+ b1 = a2 +:+ x +:+ b2.
Proof. now intros -> ->. Qed.

Lemma intro_program_text (file_path : string) :
  play_intro_script file_path = PS.render (PS.intro_program file_path).
Proof.
  unfold play_intro_script, PS.intro_program. cbv zeta.
  etransitivity; [apply (lines_hole_at 3); reflexivity|].
  etransitivity; [|symmetry; apply (render_open_at 5); reflexivity].
  apply hole_eq; vm_compute; reflexivity.
Qed.

Lemma intro_async_program_text (file_path : string) :
  play_intro_async_script file_path =
  PS.render (PS.intro_async_program file_path).
Proof.
  unfold play_intro_async_script, PS.intro_async_program. cbv zeta.
  etransitivity; [apply (lines_hole_at 3); reflexivity|].
  etransitivity; [|symmetry; apply (render_open_at 5); reflexivity].
  apply hole_eq; vm_compute; reflexivity.
Qed.

Lemma announcement_program_text (intro_path text : string) :
  play_announcement_script intro_path text =
  PS.render (PS.announcement_program intro_path text).
Proof.
  unfold play_announcement_script, PS.announcement_program. cbv zeta.
  etransitivity; [apply (lines_hole_at 6); reflexivity|].
  etransitivity; [|symmetry; apply (render_open_at 7); reflexivity].
  apply hole_eq; [vm_compute; reflexivity|].
  etransitivity; [apply (lines_hole_at 23); reflexivity|].
  etransitivity; [|symmetry; apply (render_speak_at 14); reflexivity].
  apply hole_eq; vm_compute; reflexivity.
Qed.

Lemma programs_layout_ok (intro_path text : string) :
  PS.layout_ok (PS.intro_program intro_path) = true
  /\ PS.layout_ok (PS.intro_async_program intro_path) = true
  /\ PS.layout_ok (PS.announcement_program intro_path text) = true.
Proof. repeat split; vm_compute; reflexivity. Qed.

(** ** Running the programs *)

(** An escaped text without typographic quotes is a literal for that
    text. *)
Lemma decode_escape (text : string) :
  no_typographic_quote text = true ->
  PS.decode (escape_quotes text) = Some text.
Proof.
  intros H. unfold PS.decode.
  change (escape_quotes text +:+ "'")
    with (escape_quotes text +:+ "'" +:+ EmptyString).
  now rewrite (pwsh_read_quoted_escape text EmptyString H eq_refl).
Qed.

Lemma literal_ok_escape (text : string) :
  no_typographic_quote text = true ->
  PS.literal_ok (escape_quotes text) = true.
Proof. intros H. unfold PS.literal_ok. now rewrite decode_escape. Qed.

Lemma intro_program_well_formed (file_path : string) :
  no_typographic_quote file_path = true ->
  PS.well_formed (PS.intro_program file_path) = true.
Proof.
  intros H. unfold PS.well_formed. apply andb_true_iff.
  split; [vm_compute; reflexivity|].
  unfold PS.intro_program.
  cbn [PS.seq PS.literals_ok PS.literals_ok_stmt PS.poll_test andb].
  now rewrite literal_ok_escape.
Qed.

Lemma intro_async_program_well_formed (file_path : string) :
  no_typographic_quote file_path = true ->
  PS.well_formed (PS.intro_async_program file_path) = true.
Proof.
  intros H. unfold PS.well_formed. apply andb_true_iff.
  split; [vm_compute; reflexivity|].
  unfold PS.intro_async_program.
  cbn [PS.seq PS.literals_ok PS.literals_ok_stmt PS.poll_test andb].
  now rewrite literal_ok_escape.
Qed.

Lemma announcement_program_well_formed (intro_path text : string) :
  no_typographic_quote intro_path = true ->
  no_typographic_quote text = true ->
  PS.well_formed (PS.announcement_program intro_path text) = true.
Proof.
  intros Hp Ht. unfold PS.well_formed. apply andb_true_iff.
  split; [vm_compute; reflexivity|].
  unfold PS.announcement_program.
  cbn [PS.seq PS.literals_ok PS.literals_ok_stmt PS.poll_test andb].
  now rewrite !literal_ok_escape.
Qed.

(** The poll loop of the programs is [Script.poll_duration]. *)
Lemma poll_loop (pl : Script.player) (body : PS.env -> PS.env * bool)
      (budget fuel : nat) (s : Script.st) :
  (forall e, body e =
             (PS.mkEnv (PS.attempts e - 1)
                       (Script.perform (Script.Sleep 100) (PS.state e)), true)) ->
  budget <= fuel ->
  exists z,
    PS.while_loop (PS.eval pl PS.poll_test) body fuel
                  (PS.mkEnv (Z.of_nat budget) s) =
    (PS.mkEnv z (Script.poll_duration pl budget s), true).
Proof.
  intros Hbody. revert fuel s.
  induction budget as [|budget IH]; intros fuel s Hle.
  - destruct fuel as [|fuel];
      cbn [PS.while_loop PS.eval PS.poll_test PS.state PS.attempts
           Script.poll_duration Script.read_has_time_span];
      destruct (Script.has_time_span pl (Script.reads s));
      cbn [negb Z.of_nat Z.ltb Z.compare]; eexists; reflexivity.
  - destruct fuel as [|fuel]; [lia|].
    cbn [PS.while_loop PS.eval PS.poll_test PS.state PS.attempts
         Script.poll_duration Script.read_has_time_span].
    destruct (Script.has_time_span pl (Script.reads s)); cbn [negb].
    + eexists; reflexivity.
    + replace (Z.of_nat 0 <? Z.of_nat (S budget))%Z with true
        by (symmetry; apply Z.ltb_lt; lia).
      rewrite Hbody. cbn [PS.attempts PS.state].
      replace (Z.of_nat (S budget) - 1)%Z with (Z.of_nat budget) by lia.
      apply IH. lia.
Qed.

(** The position loop of the programs is [Script.wait_position]. *)
Lemma position_loop (pl : Script.player) (test : PS.env -> bool * PS.env)
      (body : PS.env -> PS.env * bool) (fuel : nat) (z : Z) (s : Script.st) :
  (forall e, test e = PS.eval pl PS.PositionBelowDuration e) ->
  (forall e, body e =
             (PS.mkEnv (PS.attempts e)
                       (Script.perform (Script.Sleep 100) (PS.state e)), true)) ->
  PS.while_loop test body fuel (PS.mkEnv z s) =
  (PS.mkEnv z (fst (Script.wait_position pl 100 fuel s)),
   snd (Script.wait_position pl 100 fuel s)).
Proof.
  intros Htest Hbody. revert s.
  induction fuel as [|fuel IH]; intros s;
    cbn [PS.while_loop]; rewrite Htest;
    cbn [PS.eval PS.state PS.attempts
         Script.wait_position Script.read_position_lt_duration];
    destruct (Script.position_lt_duration pl (Script.reads s));
    try reflexivity.
  rewrite Hbody. cbn [PS.attempts PS.state]. apply IH.
Qed.

Ltac run_steps :=
  cbn [PS.run PS.run_stmt PS.seq PS.act PS.state PS.attempts PS.eval].

Lemma intro_program_run (pl : Script.player) (file_path : string)
      (fuel : nat) :
  no_typographic_quote file_path = true ->
  20 <= fuel ->
  PS.run_program pl fuel (PS.intro_program file_path) =
  Script.intro pl file_path fuel.
Proof.
  intros Hpath Hfuel. unfold PS.run_program.
  rewrite intro_program_well_formed by assumption.
  unfold PS.intro_program, Script.intro.
  run_steps. rewrite decode_escape by assumption. run_steps.
  edestruct (poll_loop pl) as [z ->]; [|exact Hfuel|]; [reflexivity|].
  run_steps. cbn [Script.read_has_time_span].
  set (s := Script.perform Script.MediaPlay _).
  destruct (Script.has_time_span pl (Script.reads s)).
  - run_steps. rewrite (position_loop pl) by reflexivity.
    destruct (Script.wait_position pl 100 fuel _) as [s1 fin].
    cbn [fst snd]. destruct fin; reflexivity.
  - reflexivity.
Qed.

Lemma intro_async_program_run (pl : Script.player) (file_path : string)
      (fuel : nat) :
  no_typographic_quote file_path = true ->
  20 <= fuel ->
  PS.run_program pl fuel (PS.intro_async_program file_path) =
  Script.intro_async pl file_path fuel.
Proof.
  intros Hpath Hfuel. unfold PS.run_program.
  rewrite intro_async_program_well_formed by assumption.
  unfold PS.intro_async_program, Script.intro_async.
  run_steps. rewrite decode_escape by assumption. run_steps.
  edestruct (poll_loop pl) as [z ->]; [|exact Hfuel|]; [reflexivity|].
  run_steps. cbn [Script.read_has_time_span].
  set (s := Script.perform Script.MediaPlay _).
  destruct (Script.has_time_span pl (Script.reads s)).
  - run_steps. rewrite (position_loop pl) by reflexivity.
    destruct (Script.wait_position pl 100 fuel _) as [s1 fin].
    cbn [fst snd]. destruct fin; reflexivity.
  - reflexivity.
Qed.

Lemma announcement_program_run (pl : Script.player)
      (intro_path text : string) (fuel : nat) :
  no_typographic_quote intro_path = true ->
  no_typographic_quote text = true ->
  20 <= fuel ->
  PS.run_program pl fuel (PS.announcement_program intro_path text) =
  Script.announcement pl intro_path text fuel.
Proof.
  intros Hpath Htext Hfuel. unfold PS.run_program.
  rewrite announcement_program_well_formed by assumption.
  unfold PS.announcement_program, Script.announcement.
  run_steps. rewrite (decode_escape intro_path) by assumption. run_steps.
  edestruct (poll_loop pl) as [z ->]; [|exact Hfuel|]; [reflexivity|].
  run_steps. cbn [Script.read_has_time_span].
  set (s := Script.perform Script.MediaPlay _).
  destruct (Script.has_time_span pl (Script.reads s)).
  - run_steps. rewrite (position_loop pl) by reflexivity.
    destruct (Script.wait_position pl 100 fuel _) as [s1 fin].
    cbn [fst snd]. destruct fin; [|reflexivity].
    run_steps. now rewrite (decode_escape text) by assumption.
  - run_steps. now rewrite (decode_escape text) by assumption.
Qed.

(** X11: the file path that [play_intro], [play_intro_async] and
    [play_file] put into their scripts sits in a single-quoted literal
    right after the opening of the call.  For a path in which none of
    U+2018, U+2019, U+201A and U+201B occurs, PowerShell's single-quote
    rule reads the literal back as the path, apostrophes included, ending
    at the apostrophe the script closes the literal with. *)
Theorem X11_paths_are_read_back (file_path : string) :
  no_typographic_quote file_path = true ->
  (exists head after,
      play_intro_script file_path =
      head +:+ escape_quotes file_path +:+ "'" +:+ after
      /\ PyStr.endswith head "$p.Open('" = true
      /\ pwsh_read_quoted (escape_quotes file_path +:+ "'" +:+ after)
         = Some (file_path, after))
  /\ (exists head after,
        play_intro_async_script file_path =
        head +:+ escape_quotes file_path +:+ "'" +:+ after
        /\ PyStr.endswith head "$p.Open('" = true
        /\ pwsh_read_quoted (escape_quotes file_path +:+ "'" +:+ after)
           = Some (file_path, after))
  /\ (exists head after,
        play_file_media_script file_path =
        head +:+ escape_quotes file_path +:+ "'" +:+ after
        /\ PyStr.endswith head "$p.Open('" = true
        /\ pwsh_read_quoted (escape_quotes file_path +:+ "'" +:+ after)
           = Some (file_path, after))
  /\ play_file_wav_script file_path =
     "(New-Object Media.SoundPlayer '" +:+ escape_quotes file_path +:+ "'"
       +:+ ").PlaySync()"
  /\ pwsh_read_quoted (escape_quotes file_path +:+ "'" +:+ ").PlaySync()")
     = Some (file_path, ").PlaySync()").
Proof.
  intros Hpath.
  split.
  { destruct (play_intro_script_text file_path)
      as (head & after & Heq & Hhead & Hafter & _).
    exists head, after. repeat split; try assumption.
    apply pwsh_read_quoted_escape; [assumption|]. now apply starts_paren_no_quote. }
  split.
  { destruct (play_intro_async_script_text file_path)
      as (head & after & Heq & Hhead & Hafter & _).
    exists head, after. repeat split; try assumption.
    apply pwsh_read_quoted_escape; [assumption|]. now apply starts_paren_no_quote. }
  split.
  { destruct (play_file_media_script_text file_path)
      as (head & after & Heq & Hhead & Hafter).
    exists head, after. repeat split; try assumption.
    apply pwsh_read_quoted_escape; [assumption|]. now apply starts_paren_no_quote. }
  split; [reflexivity|].
  now apply pwsh_read_quoted_escape.
Qed.

Lemma X11_paths_are_read_back_witness :
  no_typographic_quote "C:\o'clock.wav" = true
  /\ pwsh_read_quoted (escape_quotes "C:\o'clock.wav" +:+ "'" +:+ ").PlaySync()")
     = Some ("C:\o'clock.wav", ").PlaySync()").
Proof.
  split; [reflexivity|].
  exact (proj2 (proj2 (proj2 (proj2
           (X11_paths_are_read_back "C:\o'clock.wav" eq_refl))))).
Defined.

(** A path with a typographic quote is outside this: the literal ends at
    the quote. *)
Example typographic_quote_in_path :
  no_typographic_quote "C:\o’clock.wav" = false
  /\ pwsh_read_quoted (escape_quotes "C:\o’clock.wav" +:+ "'" +:+ ").PlaySync()")
     = Some ("C:\o", "clock.wav').PlaySync()").
Proof. split; vm_compute; reflexivity. Qed.

(** ** The claims on the intro scripts *)

(** A thread that is past its spawn makes no process. *)
Lemma no_process_after_spawn (W : World) (s : State) (i : nat) (t : thread) :
  threads s !! i = Some t ->
  (forall cmd, t <> TSpawn cmd) ->
  spawned (trace (exec W (Sched i) s)) = spawned (trace s).
Proof.
  intros Hi Hnot. destruct t as [cmd|p|p r|p cmd|r].
  - now destruct (Hnot cmd).
  - rewrite (exec_sched_wait W i p s Hi). cbn [set_threads trace logs].
    rewrite spawned_app. unfold wait_events.
    destruct (communicate_result W p) as [[out [|a err]]|e]; cbn;
      now rewrite app_nil_r.
  - rewrite (exec_sched_cleanup W i p r s Hi).
    destruct (current_process s) as [q|]; [|reflexivity].
    now destruct (Nat.eqb q p).
  - rewrite (exec_sched_run W i p cmd s Hi). cbn [set_threads trace logs].
    rewrite spawned_app. unfold run_events.
    destruct (run_error W p); cbn; now rewrite app_nil_r.
  - now rewrite (exec_sched_done W i r s Hi).
Qed.

(** A polled media script fails to finish only in the wait on a known
    duration, with the position below it at every read. *)
Lemma polled_media_unfinished (setup prelude closing : list Script.action)
      (pl : Script.player) (fuel : nat) :
  Forall (fun a => Script.sleep_ms a = 0) setup ->
  snd (polled_media setup prelude closing pl fuel) = false ->
  exists k,
    k <= 20
    /\ Script.has_time_span pl (S k) = true
    /\ forall j, j <= fuel ->
                 Script.position_lt_duration pl (S (S k) + j) = true.
Proof.
  intros Hsetup Hfin.
  destruct (polled_media_spec setup prelude closing Hsetup pl fuel)
    as (k & tail & Hk & _ & _ & _ & _ & _ & Hunknown & Hknown).
  exists k. split; [exact Hk|].
  destruct (Script.has_time_span pl (S k)) eqn:Hts.
  - split; [reflexivity|].
    destruct (Hknown eq_refl) as (n & _ & _ & Hplaying & _ & Hout).
    destruct (Hout Hfin) as [-> Hlast].
    intros j Hj. destruct (Nat.eq_dec j fuel) as [->|Hne];
      [exact Hlast|apply Hplaying; lia].
  - destruct (Hunknown eq_refl) as [_ Hd]. congruence.
Qed.

(** C7: the three intro commands are [powershell -c] with the text of a
    program each, character for character; [play_intro] runs its command
    in the caller when the file exists, [play_intro_async] and
    [play_announcement] hand theirs to a worker.  Each program sets
    [$attempts] to 20 and sleeps 100 ms per round of the poll, so that
    there are at most 20 polls, 2000 ms at most, before [Play]; when the
    duration is unknown at the test after [Play], the script sleeps
    4000 ms and closes the player without reading the position; when it is
    known, the script waits on the position and fails to finish only while
    the position stays below the duration.  For arguments without
    typographic quotes the programs are well formed and running them is
    what the script functions compute. *)
Theorem C7_bounded_poll_then_fixed_wait (W : World) (file_path text : string)
        (s : State) :
  path_exists W file_path = true ->
  (play_intro_command file_path =
     ["powershell"; "-c"; PS.render (PS.intro_program file_path)]
   /\ play_intro_async_command file_path =
      ["powershell"; "-c"; PS.render (PS.intro_async_program file_path)]
   /\ play_announcement_command file_path text =
      ["powershell"; "-c";
       PS.render (PS.announcement_program file_path text)])
  /\ (PS.layout_ok (PS.intro_program file_path) = true
      /\ PS.layout_ok (PS.intro_async_program file_path) = true
      /\ PS.layout_ok (PS.announcement_program file_path text) = true)
  /\ (popen_error W (play_intro_command file_path) (next_proc s) = None ->
      trace (snd (play_intro W file_path s)) =
      trace (snd (stop W s))
        ++ [EvPrint ("[AudioService] Playing Intro: " +:+ file_path);
            EvRun (next_proc s) (play_intro_command file_path)])
  /\ threads (snd (play_intro_async W file_path s)) =
     threads s ++ [TSpawn (play_intro_async_command file_path)]
  /\ threads (snd (play_announcement W file_path text s)) =
     threads s ++ [TSpawn (play_announcement_command file_path text)]
  /\ bounded_poll_script
       [Script.AddType "PresentationCore, PresentationFramework";
        Script.NewObject "System.Windows.Media.MediaPlayer";
        Script.MediaOpen file_path]
       [Script.WriteHost "Duration unknown, using fallback wait."]
       [Script.MediaClose]
       (fun pl fuel => Script.intro pl file_path fuel)
  /\ bounded_poll_script
       [Script.AddType "PresentationCore, PresentationFramework";
        Script.NewObject "System.Windows.Media.MediaPlayer";
        Script.MediaOpen file_path]
       []
       [Script.MediaClose]
       (fun pl fuel => Script.intro_async pl file_path fuel)
  /\ bounded_poll_script
       [Script.AddType "PresentationCore, PresentationFramework";
        Script.AddType "System.Speech";
        Script.NewObject "System.Windows.Media.MediaPlayer";
        Script.MediaOpen file_path]
       []
       [Script.MediaClose;
        Script.NewObject "System.Speech.Synthesis.SpeechSynthesizer";
        Script.Speak text]
       (fun pl fuel => Script.announcement pl file_path text fuel)
  /\ (no_typographic_quote file_path = true ->
      PS.well_formed (PS.intro_program file_path) = true
      /\ PS.well_formed (PS.intro_async_program file_path) = true
      /\ forall pl fuel,
          20 <= fuel ->
          PS.run_program pl fuel (PS.intro_program file_path) =
          Script.intro pl file_path fuel
          /\ PS.run_program pl fuel (PS.intro_async_program file_path) =
             Script.intro_async pl file_path fuel)
  /\ (no_typographic_quote file_path = true ->
      no_typographic_quote text = true ->
      PS.well_formed (PS.announcement_program file_path text) = true
      /\ forall pl fuel,
          20 <= fuel ->
          PS.run_program pl fuel (PS.announcement_program file_path text) =
          Script.announcement pl file_path text fuel).
Proof.
  intros Hexists.
  split.
  { unfold play_intro_command, play_intro_async_command,
      play_announcement_command.
    now rewrite intro_program_text, intro_async_program_text,
      announcement_program_text. }
  split; [apply programs_layout_ok|].
  split.
  { intros Hp. rewrite (play_intro_present W file_path s Hexists Hp).
    cbn [snd trace logs next_proc]. rewrite stop_next_proc.
    now rewrite <- app_assoc. }
  split.
  { rewrite play_intro_async_eq. cbn [snd fork logs threads].
    now rewrite stop_threads. }
  split.
  { rewrite play_announcement_eq. cbn [snd fork logs threads].
    now rewrite stop_threads. }
  split.
  { intros pl fuel. rewrite play_intro_polled.
    apply polled_media_spec. repeat constructor. }
  split.
  { intros pl fuel. rewrite play_intro_async_polled.
    apply polled_media_spec. repeat constructor. }
  split.
  { intros pl fuel. rewrite play_announcement_polled.
    apply polled_media_spec. repeat constructor. }
  split.
  { intros Hpath.
    split; [now apply intro_program_well_formed|].
    split; [now apply intro_async_program_well_formed|].
    intros pl fuel Hfuel.
    split; [now apply intro_program_run|now apply intro_async_program_run]. }
  intros Hpath Htext.
  split; [now apply announcement_program_well_formed|].
  intros pl fuel Hfuel. now apply announcement_program_run.
Qed.

(** Witness for C7: a file that exists, in a world where all goes well,
    and a player that never reports a duration. *)
Lemma C7_bounded_poll_then_fixed_wait_witness :
  path_exists calm "chime.mp3" = true
  /\ trace (snd (play_intro calm "chime.mp3" init)) =
     [EvPrint "[AudioService] Playing Intro: chime.mp3";
      EvRun 0 ["powershell"; "-c"; PS.render (PS.intro_program "chime.mp3")]]
  /\ threads (snd (play_intro_async calm "chime.mp3" init)) =
     [TSpawn (play_intro_async_command "chime.mp3")]
  /\ PS.run_program (Script.mkPlayer (fun _ => false) (fun _ => true)) 20
                    (PS.intro_program "chime.mp3") =
     Script.intro (Script.mkPlayer (fun _ => false) (fun _ => true))
                  "chime.mp3" 20.
Proof.
  assert (H : path_exists calm "chime.mp3" = true) by reflexivity.
  pose proof (C7_bounded_poll_then_fixed_wait calm "chime.mp3" "hello" init H)
    as ((Hcmd & _) & _ & Hrun & Hasync & _ & _ & _ & _ & Htie & _).
  split; [exact H|].
  split; [rewrite <- Hcmd; exact (Hrun eq_refl)|].
  split; [exact Hasync|].
  destruct (Htie eq_refl) as (_ & _ & Hprog).
  exact (proj1 (Hprog (Script.mkPlayer (fun _ => false) (fun _ => true)) 20
                      (le_n 20))).
Defined.

(** A path with a typographic quote: the script is the text of the
    program all the same, but the literal of [Open] ends at the quote, the
    program is not well formed and nothing of it runs. *)
Example typographic_quote_in_intro_path :
  play_intro_command "o’clock.mp3" =
    ["powershell"; "-c"; PS.render (PS.intro_program "o’clock.mp3")]
  /\ PS.decode (escape_quotes "o’clock.mp3") = None
  /\ PS.well_formed (PS.intro_program "o’clock.mp3") = false
  /\ PS.run_program (Script.mkPlayer (fun _ => false) (fun _ => true)) 20
                    (PS.intro_program "o’clock.mp3")
     = (Script.start, false).
Proof.
  split.
  { unfold play_intro_command. now rewrite intro_program_text. }
  repeat split; vm_compute; reflexivity.
Qed.

(** C4: [play_announcement] hands one command to one worker, and the
    command is [powershell -c] with the text of one program: open the
    intro, poll, play, wait, close, and only then make the synthesizer and
    speak.  The worker makes one process, puts it in the slot, where
    [stop] finds it and asks it to terminate, and makes no other process
    afterwards.  The script fails to get to the speech only while the
    intro is still playing: with the duration known and the position below
    it at every read.  When it finishes, closing the player and speaking
    are its last actions, and nothing before them speaks; so a process of
    that script that is killed before it has closed the player has not
    spoken and, being dead, never will.  For arguments without typographic
    quotes both literals hold their arguments, the program is well formed
    and running it is what the script function computes. *)
Theorem C4_announcement_is_one_process (W : World) (intro_path text : string)
        (s : State) :
  play_announcement W intro_path text s =
    (Returned tt,
     fork (TSpawn (play_announcement_command intro_path text))
          (logs [EvPrint ("[AudioService] Announcing: Intro -> '" +:+ text
                            +:+ "'")]
                (snd (stop W s))))
  /\ play_announcement_command intro_path text =
     ["powershell"; "-c";
      PS.render (PS.announcement_program intro_path text)]
  /\ PS.layout_ok (PS.announcement_program intro_path text) = true
  /\ (no_typographic_quote intro_path = true ->
      no_typographic_quote text = true ->
      PS.decode (escape_quotes intro_path) = Some intro_path
      /\ PS.decode (escape_quotes text) = Some text
      /\ PS.well_formed (PS.announcement_program intro_path text) = true
      /\ forall pl fuel,
          20 <= fuel ->
          PS.run_program pl fuel (PS.announcement_program intro_path text) =
          Script.announcement pl intro_path text fuel)
  /\ (forall s1 i,
        threads s1 !! i =
          Some (TSpawn (play_announcement_command intro_path text)) ->
        popen_error W (play_announcement_command intro_path text)
                    (next_proc s1) = None ->
        trace (exec W (Sched i) s1) =
          trace s1 ++ [EvPopen (next_proc s1)
                               (play_announcement_command intro_path text)]
        /\ current_process (exec W (Sched i) s1) = Some (next_proc s1)
        /\ threads (exec W (Sched i) s1) !! i = Some (TWait (next_proc s1))
        /\ trace (snd (stop W (exec W (Sched i) s1))) =
           trace (exec W (Sched i) s1)
             ++ [EvPrint "[AudioService] Stopping Audio...";
                 EvTerminate (next_proc s1)]
        /\ current_process (snd (stop W (exec W (Sched i) s1))) = None)
  /\ (forall s2 i t,
        threads s2 !! i = Some t ->
        (forall cmd, t <> TSpawn cmd) ->
        spawned (trace (exec W (Sched i) s2)) = spawned (trace s2))
  /\ bounded_poll_script
       [Script.AddType "PresentationCore, PresentationFramework";
        Script.AddType "System.Speech";
        Script.NewObject "System.Windows.Media.MediaPlayer";
        Script.MediaOpen intro_path]
       []
       [Script.MediaClose;
        Script.NewObject "System.Speech.Synthesis.SpeechSynthesizer";
        Script.Speak text]
       (fun pl fuel => Script.announcement pl intro_path text fuel)
  /\ (forall pl fuel,
        snd (Script.announcement pl intro_path text fuel) = false ->
        exists k,
          k <= 20
          /\ Script.has_time_span pl (S k) = true
          /\ forall j, j <= fuel ->
                       Script.position_lt_duration pl (S (S k) + j) = true)
  /\ (forall pl fuel, exists body,
        Script.performed
          (fst (Script.announcement pl intro_path text fuel)) =
        body ++ (if snd (Script.announcement pl intro_path text fuel)
                 then [Script.MediaClose;
                       Script.NewObject
                         "System.Speech.Synthesis.SpeechSynthesizer";
                       Script.Speak text]
                 else [])
        /\ Forall (fun a => Script.is_speak a = false
                            /\ Script.is_close a = false) body)
  /\ (forall pl fuel k,
        ~ In Script.MediaClose
             (Script.killed_after k
                (Script.performed
                   (fst (Script.announcement pl intro_path text fuel)))) ->
        forall t,
          ~ In (Script.Speak t)
               (Script.killed_after k
                  (Script.performed
                     (fst (Script.announcement pl intro_path text
                                                    fuel))))).
Proof.
  split; [apply play_announcement_eq|].
  split.
  { unfold play_announcement_command. now rewrite announcement_program_text. }
  split; [apply (programs_layout_ok intro_path text)|].
  split.
  { intros Hpath Htext.
    split; [now apply decode_escape|].
    split; [now apply decode_escape|].
    split; [now apply announcement_program_well_formed|].
    intros pl fuel Hfuel. now apply announcement_program_run. }
  split.
  { intros s1 i Hi Hp.
    rewrite (exec_sched_spawn_ok W i _ s1 Hi Hp).
    rewrite stop_eq. cbn [current_process trace threads next_proc snd].
    rewrite <- app_assoc.
    split; [reflexivity|]. split; [reflexivity|].
    split; [|split; reflexivity].
    apply list_lookup_insert_eq. eapply lookup_lt_Some. exact Hi. }
  split; [intros s2 i t; apply no_process_after_spawn|].
  split.
  { intros pl fuel. rewrite play_announcement_polled.
    apply polled_media_spec. repeat constructor. }
  split.
  { intros pl fuel. rewrite play_announcement_polled.
    apply polled_media_unfinished. repeat constructor. }
  split; [intros pl fuel; apply announcement_body|].
  intros pl fuel k.
  destruct (announcement_body pl intro_path text fuel) as (body & -> & Hbody).
  apply killed_before_close_is_silent; [assumption|].
  destruct (snd (Script.announcement pl intro_path text fuel));
    [right|left; reflexivity].
  eexists _, _. split; reflexivity.
Qed.

(** Witness for C4: an announcement in a world where all goes well, with
    a player that never reports a duration; killed after 26 actions, in
    the fixed wait, the process has not spoken. *)
Lemma C4_announcement_is_one_process_witness :
  let s := run calm [Call (PlayAnnouncement "chime.mp3" "Gate 4")] init in
  let pl := Script.mkPlayer (fun _ => false) (fun _ => true) in
  let acts :=
    Script.performed (fst (Script.announcement pl "chime.mp3" "Gate 4" 20)) in
  threads s !! 0 = Some (TSpawn (play_announcement_command "chime.mp3"
                                                           "Gate 4"))
  /\ current_process (exec calm (Sched 0) s) = Some 0
  /\ current_process (snd (stop calm (exec calm (Sched 0) s))) = None
  /\ PS.run_program pl 20 (PS.announcement_program "chime.mp3" "Gate 4")
     = Script.announcement pl "chime.mp3" "Gate 4" 20
  /\ In (Script.Speak "Gate 4") acts
  /\ ~ In (Script.Speak "Gate 4") (Script.killed_after 26 acts).
Proof.
  intros s pl acts.
  pose proof (C4_announcement_is_one_process calm "chime.mp3" "Gate 4" init)
    as (_ & _ & _ & Htie & Hworker & _ & _ & _ & _ & Hkill).
  assert (H0 : threads s !! 0 =
               Some (TSpawn (play_announcement_command "chime.mp3" "Gate 4")))
    by reflexivity.
  destruct (Hworker s 0 H0 eq_refl) as (_ & Hslot & _ & _ & Hclear).
  destruct (Htie eq_refl eq_refl) as (_ & _ & _ & Hrun).
  split; [exact H0|]. split; [exact Hslot|]. split; [exact Hclear|].
  split; [exact (Hrun pl 20 (le_n 20))|].
  split.
  - vm_compute. repeat (first [left; reflexivity | right]).
  - apply (Hkill pl 20 26).
    vm_compute. intros H.
    repeat (destruct H as [H|H]; [discriminate H|]). exact H.
Defined.

(** A text with a typographic apostrophe: the literal of [Speak] ends at
    it, and nothing of the announcement runs, the intro included. *)
Example typographic_quote_in_announcement :
  PS.decode (escape_quotes "Don’t run") = None
  /\ PS.well_formed (PS.announcement_program "chime.mp3" "Don’t run") = false
  /\ PS.run_program (Script.mkPlayer (fun _ => false) (fun _ => true)) 20
                    (PS.announcement_program "chime.mp3" "Don’t run")
     = (Script.start, false).
Proof. repeat split; vm_compute; reflexivity. Qed.

(** X15: with a player that never reports a duration, each of the three
    intro scripts finishes whatever the fuel, and does exactly this: the
    set-up, 20 polls of 100 ms, [Play], for [play_intro] the message, the
    sleep of 4000 ms, [Close], and for the announcement the speech;
    6000 ms of sleep in all.  The scripts are the texts of the programs,
    and for arguments without typographic quotes the programs run to the
    same end. *)
Theorem X15_unknown_duration_never_hangs (pl : Script.player)
        (path text : string) (fuel : nat) :
  (forall r, Script.has_time_span pl r = false) ->
  Script.intro pl path fuel =
    (Script.mkSt 22
       ([Script.AddType "PresentationCore, PresentationFramework";
         Script.NewObject "System.Windows.Media.MediaPlayer";
         Script.MediaOpen path]
          ++ repeat (Script.Sleep 100) 20
          ++ [Script.MediaPlay;
              Script.WriteHost "Duration unknown, using fallback wait.";
              Script.Sleep 4000;
              Script.MediaClose]),
     true)
  /\ Script.intro_async pl path fuel =
     (Script.mkSt 22
        ([Script.AddType "PresentationCore, PresentationFramework";
          Script.NewObject "System.Windows.Media.MediaPlayer";
          Script.MediaOpen path]
           ++ repeat (Script.Sleep 100) 20
           ++ [Script.MediaPlay; Script.Sleep 4000; Script.MediaClose]),
      true)
  /\ Script.announcement pl path text fuel =
     (Script.mkSt 22
        ([Script.AddType "PresentationCore, PresentationFramework";
          Script.AddType "System.Speech";
          Script.NewObject "System.Windows.Media.MediaPlayer";
          Script.MediaOpen path]
           ++ repeat (Script.Sleep 100) 20
           ++ [Script.MediaPlay; Script.Sleep 4000; Script.MediaClose;
               Script.NewObject "System.Speech.Synthesis.SpeechSynthesizer";
               Script.Speak text]),
      true)
  /\ Script.slept (Script.performed (fst (Script.intro pl path fuel)))
     = 2000 + 4000
  /\ Script.slept (Script.performed (fst (Script.intro_async pl path fuel)))
     = 2000 + 4000
  /\ Script.slept
       (Script.performed (fst (Script.announcement pl path text fuel)))
     = 2000 + 4000
  /\ (play_intro_script path = PS.render (PS.intro_program path)
      /\ play_intro_async_script path =
         PS.render (PS.intro_async_program path)
      /\ play_announcement_script path text =
         PS.render (PS.announcement_program path text))
  /\ (no_typographic_quote path = true ->
      no_typographic_quote text = true ->
      20 <= fuel ->
      PS.run_program pl fuel (PS.intro_program path) =
        Script.intro pl path fuel
      /\ PS.run_program pl fuel (PS.intro_async_program path) =
         Script.intro_async pl path fuel
      /\ PS.run_program pl fuel (PS.announcement_program path text) =
         Script.announcement pl path text fuel).
Proof.
  intros Hnever.
  assert (Hi : Script.intro pl path fuel =
    (Script.mkSt 22
       ([Script.AddType "PresentationCore, PresentationFramework";
         Script.NewObject "System.Windows.Media.MediaPlayer";
         Script.MediaOpen path]
          ++ repeat (Script.Sleep 100) 20
          ++ [Script.MediaPlay;
              Script.WriteHost "Duration unknown, using fallback wait.";
              Script.Sleep 4000;
              Script.MediaClose]),
     true)).
  { rewrite play_intro_polled.
    now rewrite polled_media_never_known by (repeat constructor || assumption). }
  assert (Ha : Script.intro_async pl path fuel =
     (Script.mkSt 22
        ([Script.AddType "PresentationCore, PresentationFramework";
          Script.NewObject "System.Windows.Media.MediaPlayer";
          Script.MediaOpen path]
           ++ repeat (Script.Sleep 100) 20
           ++ [Script.MediaPlay; Script.Sleep 4000; Script.MediaClose]),
      true)).
  { rewrite play_intro_async_polled.
    now rewrite polled_media_never_known by (repeat constructor || assumption). }
  assert (Hn : Script.announcement pl path text fuel =
     (Script.mkSt 22
        ([Script.AddType "PresentationCore, PresentationFramework";
          Script.AddType "System.Speech";
          Script.NewObject "System.Windows.Media.MediaPlayer";
          Script.MediaOpen path]
           ++ repeat (Script.Sleep 100) 20
           ++ [Script.MediaPlay; Script.Sleep 4000; Script.MediaClose;
               Script.NewObject "System.Speech.Synthesis.SpeechSynthesizer";
               Script.Speak text]),
      true)).
  { rewrite play_announcement_polled.
    now rewrite polled_media_never_known by (repeat constructor || assumption). }
  split; [exact Hi|]. split; [exact Ha|]. split; [exact Hn|].
  split; [now rewrite Hi|]. split; [now rewrite Ha|]. split; [now rewrite Hn|].
  split.
  { split; [apply intro_program_text|].
    split; [apply intro_async_program_text|apply announcement_program_text]. }
  intros Hpath Htext Hfuel.
  split; [now apply intro_program_run|].
  split; [now apply intro_async_program_run|now apply announcement_program_run].
Qed.

(** Witness for X15. *)
Lemma X15_unknown_duration_never_hangs_witness :
  snd (Script.announcement (Script.mkPlayer (fun _ => false) (fun _ => true))
                           "chime.mp3" "Gate 4" 0) = true
  /\ Script.slept
       (Script.performed
          (fst (Script.intro (Script.mkPlayer (fun _ => false) (fun _ => true))
                             "chime.mp3" 0)))
     = 2000 + 4000.
Proof.
  pose proof (X15_unknown_duration_never_hangs
                (Script.mkPlayer (fun _ => false) (fun _ => true))
                "chime.mp3" "Gate 4" 0 (fun _ => eq_refl))
    as (_ & _ & Hn & Hs & _).
  split; [now rewrite Hn|exact Hs].
Defined.

(** X17: for a text in which none of U+2018, U+2019, U+201A and U+201B
    occurs, the literal that [play_text] writes is read back by
    PowerShell's single-quote rule as the text, and ends at the apostrophe
    the script closes it with. *)
Theorem X17_speech_text_is_read_back (text : string) :
  no_typographic_quote text = true ->
  play_text_command text =
    ["powershell"; "-Command";
     "Add-Type –AssemblyName System.Speech; (New-Object System.Speech.Synthesis.SpeechSynthesizer).Speak('"
       +:+ escape_quotes text +:+ "')"]
  /\ pwsh_read_quoted (escape_quotes text +:+ "')") = Some (text, ")")
  /\ PS.decode (escape_quotes text) = Some text.
Proof.
  intros Htext.
  split; [reflexivity|].
  split; [exact (pwsh_read_quoted_escape text ")" Htext eq_refl)|].
  now apply decode_escape.
Qed.

Lemma X17_speech_text_is_read_back_witness :
  no_typographic_quote "it's fine" = true
  /\ pwsh_read_quoted (escape_quotes "it's fine" +:+ "')")
     = Some ("it's fine", ")").
Proof.
  split; [reflexivity|].
  exact (proj1 (proj2 (X17_speech_text_is_read_back "it's fine" eq_refl))).
Defined.
